(** * Scope-bound resource management with for-scopes (scope.h)

    The header [scope.h] defines three statement macros, [SE350_SCOPE],
    [SE350_SCOPE_EXIT] and [SE350_USING], and the escape [SE350_SCOPE_BREAK].
    Each macro expands to nested C [for] statements around the statement
    that follows it.  A macro is a function from program text to program
    text, so the macros are embedded as Rocq functions on the abstract
    syntax of the C fragment they are written in, and their behaviour is
    what an executable interpreter of that fragment computes.

    The fragment: side-effecting expressions (assignment, the comma and
    conditional operators, logical negation, calls of external functions,
    loads and stores through pointers), and the statements [for] (with an
    optional declaration in its first clause), [break], [continue],
    [return], [if], compound statements with a local declaration, and
    [assert]. *)

From Stdlib Require Import ZArith List String Bool Lia.
Import ListNotations.

Set Warnings "-register-all".

Local Open Scope string_scope.
Local Open Scope list_scope.
Local Open Scope Z_scope.

(** ** Syntax *)

Definition ident := string.

(** Object types that occur in the header and its usage file:
    [_Bool] for the run-state flag, [int], and pointers. *)
Inductive ctype := TBool | TInt | TPtr.

(** Conversion on initialisation and assignment: a scalar converted to
    [_Bool] is 0 if it compares equal to 0 and 1 otherwise. *)
Definition convert (ty : ctype) (v : Z) : Z :=
  match ty with
  | TBool => if v =? 0 then 0 else 1
  | TInt | TPtr => v
  end.

Inductive binop := Oadd | Osub | Oeq | Olt.

(** An external function is known by its name; [printf] is kept apart so
    that its format string shows in the trace. *)
Inductive callee :=
| Fn (name : string)
| Printf (fmt : string).

Inductive expr :=
| EConst (z : Z)
| EVar (x : ident)
| EAssign (x : ident) (e : expr)            (* x = e *)
| EDeref (p : expr)                         (* *p *)
| EStore (p e : expr)                       (* *p = e *)
| ENot (e : expr)                           (* !e *)
| EBinop (op : binop) (e1 e2 : expr)
| ECond (c t f : expr)                      (* c ? t : f *)
| EComma (e1 e2 : expr)                     (* ((void)(e1), e2) *)
| ECall (f : callee) (args : list expr).

(** A declaration without its semicolon: [ty x = e]. *)
Inductive declaration := Decl (ty : ctype) (x : ident) (e : expr).

Inductive stmt :=
| SSkip
| SExpr (e : expr)                          (* e; *)
| SAssert (e : expr)                        (* assert(e); *)
| SSeq (s1 s2 : stmt)
| SIf (c : expr) (s1 s2 : stmt)
| SLocal (d : declaration) (s : stmt)       (* { d; s } *)
| SFor (init : option declaration) (cond : expr) (incr : option expr)
       (body : stmt)
| SBreak
| SContinue
| SReturn (e : option expr).

(** ** The macros of scope.h *)

Definition _se350_loop_has_run : ident := "_se350_loop_has_run".

(** [#define SE350_SCOPE(before_expr, after_expr)
       for (_Bool _se350_loop_has_run = 0;
            _se350_loop_has_run ? 0 : ((void)(before_expr), 1);
            ((void)(after_expr), _se350_loop_has_run = 1))
           for (; !_se350_loop_has_run; _se350_loop_has_run = 1)]
    followed by the guarded statement [body]. *)
Definition SE350_SCOPE (before_expr after_expr : expr) (body : stmt) : stmt :=
  SFor (Some (Decl TBool _se350_loop_has_run (EConst 0)))
       (ECond (EVar _se350_loop_has_run) (EConst 0)
              (EComma before_expr (EConst 1)))
       (Some (EComma after_expr (EAssign _se350_loop_has_run (EConst 1))))
    (SFor None
          (ENot (EVar _se350_loop_has_run))
          (Some (EAssign _se350_loop_has_run (EConst 1)))
       body).

(** [#define SE350_SCOPE_EXIT(after_expr) SE350_SCOPE(0, after_expr)] *)
Definition SE350_SCOPE_EXIT (after_expr : expr) (body : stmt) : stmt :=
  SE350_SCOPE (EConst 0) after_expr body.

(** [#define SE350_USING(decl, after_expr)
       for (_Bool _se350_loop_has_run = 0; !_se350_loop_has_run;)
           for (decl; !_se350_loop_has_run;
                ((void)(after_expr), _se350_loop_has_run = 1))
               for (; !_se350_loop_has_run; _se350_loop_has_run = 1)] *)
Definition SE350_USING (decl : declaration) (after_expr : expr) (body : stmt)
    : stmt :=
  SFor (Some (Decl TBool _se350_loop_has_run (EConst 0)))
       (ENot (EVar _se350_loop_has_run))
       None
    (SFor (Some decl)
          (ENot (EVar _se350_loop_has_run))
          (Some (EComma after_expr (EAssign _se350_loop_has_run (EConst 1))))
       (SFor None
             (ENot (EVar _se350_loop_has_run))
             (Some (EAssign _se350_loop_has_run (EConst 1)))
          body)).

(** [#define SE350_SCOPE_BREAK break] *)
Definition SE350_SCOPE_BREAK : stmt := SBreak.

(** ** Program states *)

(** Block-scoped objects, innermost declaration first: a name denotes the
    nearest enclosing declaration of it. *)
Definition env := list (ident * (ctype * Z)).

(** Every step that touches the state or the outside world is logged, in
    the order of execution. *)
Inductive event :=
| EvCall (f : callee) (args : list Z) (ret : Z)
| EvDecl (x : ident) (v : Z)
| EvWrite (x : ident) (old new : Z)
| EvStore (addr v : Z)
| EvBreak
| EvContinue
| EvReturn (v : option Z).

Inductive outcome :=
| ONormal
| OBreak
| OContinue
| OReturn (v : option Z)
| OAbort.

Fixpoint lookup (x : ident) (rho : env) : option (ctype * Z) :=
  match rho with
  | [] => None
  | (y, b) :: rho' => if String.eqb y x then Some b else lookup x rho'
  end.

(** Overwrite the nearest binding of [x]; the value is already converted. *)
Fixpoint update (x : ident) (v : Z) (rho : env) : env :=
  match rho with
  | [] => []
  | (y, (ty, w)) :: rho' =>
      if String.eqb y x then (y, (ty, v)) :: rho'
      else (y, (ty, w)) :: update x v rho'
  end.

Section Semantics.

(** The outside world (interrupt controller, memory-block allocator,
    console) and what a call of an external function does to it.  [rtx.h]
    and [printf.h] are not part of the sources, so both are parameters. *)
Variable W : Type.
Variable extcall : callee -> list Z -> W -> Z * W.

Record state := mkState {
  locals : env;
  globals : ident -> Z;
  heap : Z -> Z;
  ext : W;
  trace : list event
}.

Definition log (ev : event) (st : state) : state :=
  mkState (locals st) (globals st) (heap st) (ext st) (trace st ++ [ev]).

Definition read (x : ident) (st : state) : Z :=
  match lookup x (locals st) with
  | Some (_, v) => v
  | None => globals st x
  end.

Definition assign (x : ident) (v : Z) (st : state) : Z * state :=
  match lookup x (locals st) with
  | Some (ty, old) =>
      let v' := convert ty v in
      (v', mkState (update x v' (locals st)) (globals st) (heap st) (ext st)
                   (trace st ++ [EvWrite x old v']))
  | None =>
      (v, mkState (locals st)
                  (fun y => if String.eqb y x then v else globals st y)
                  (heap st) (ext st)
                  (trace st ++ [EvWrite x (globals st x) v]))
  end.

Definition store (a v : Z) (st : state) : state :=
  mkState (locals st) (globals st)
          (fun b => if b =? a then v else heap st b)
          (ext st) (trace st ++ [EvStore a v]).

Definition call (f : callee) (vs : list Z) (st : state) : Z * state :=
  let '(r, w) := extcall f vs (ext st) in
  (r, mkState (locals st) (globals st) (heap st) w
              (trace st ++ [EvCall f vs r])).

(** Entering the scope of a declaration, and leaving it. *)
Definition declare (ty : ctype) (x : ident) (v : Z) (st : state) : state :=
  mkState ((x, (ty, convert ty v)) :: locals st) (globals st) (heap st)
          (ext st) (trace st ++ [EvDecl x (convert ty v)]).

Definition leave (st : state) : state :=
  mkState (tl (locals st)) (globals st) (heap st) (ext st) (trace st).

Definition truth (v : Z) : bool := negb (v =? 0).

Definition eval_binop (op : binop) (a b : Z) : Z :=
  match op with
  | Oadd => a + b
  | Osub => a - b
  | Oeq => if a =? b then 1 else 0
  | Olt => if a <? b then 1 else 0
  end.

(** ** Expressions *)

(** Operands are evaluated left to right. *)
Fixpoint eval (e : expr) (st : state) : Z * state :=
  match e with
  | EConst z => (z, st)
  | EVar x => (read x st, st)
  | EAssign x e1 =>
      let '(v, st1) := eval e1 st in assign x v st1
  | EDeref p =>
      let '(a, st1) := eval p st in (heap st1 a, st1)
  | EStore p e1 =>
      let '(a, st1) := eval p st in
      let '(v, st2) := eval e1 st1 in
      (v, store a v st2)
  | ENot e1 =>
      let '(v, st1) := eval e1 st in ((if truth v then 0 else 1), st1)
  | EBinop op e1 e2 =>
      let '(a, st1) := eval e1 st in
      let '(b, st2) := eval e2 st1 in
      (eval_binop op a b, st2)
  | ECond c t f =>
      let '(v, st1) := eval c st in
      if truth v then eval t st1 else eval f st1
  | EComma e1 e2 =>
      let '(_, st1) := eval e1 st in eval e2 st1
  | ECall f args =>
      let '(vs, st1) :=
        (fix eval_args (es : list expr) (st : state) : list Z * state :=
           match es with
           | [] => ([], st)
           | e1 :: es' =>
               let '(v, st1) := eval e1 st in
               let '(vs, st2) := eval_args es' st1 in
               (v :: vs, st2)
           end) args st in
      call f vs st1
  end.

Fixpoint eval_args (es : list expr) (st : state) : list Z * state :=
  match es with
  | [] => ([], st)
  | e1 :: es' =>
      let '(v, st1) := eval e1 st in
      let '(vs, st2) := eval_args es' st1 in
      (v :: vs, st2)
  end.

Definition eval_opt (oe : option expr) (st : state) : state :=
  match oe with
  | Some e => snd (eval e st)
  | None => st
  end.

(** ** Statements *)

(** [exec n s st] runs [s] from [st] with recursion depth at most [n];
    [None] means that [n] was not enough.  A [for] statement with a
    declaration opens the scope of the declared object, runs the loop,
    and closes the scope however the loop ends. *)
Fixpoint exec (n : nat) (s : stmt) (st : state) : option (outcome * state) :=
  match n with
  | O => None
  | S n' =>
      match s with
      | SSkip => Some (ONormal, st)
      | SExpr e => Some (ONormal, snd (eval e st))
      | SAssert e =>
          let '(v, st1) := eval e st in
          if truth v then Some (ONormal, st1) else Some (OAbort, st1)
      | SSeq s1 s2 =>
          match exec n' s1 st with
          | Some (ONormal, st1) => exec n' s2 st1
          | r => r
          end
      | SIf c s1 s2 =>
          let '(v, st1) := eval c st in
          if truth v then exec n' s1 st1 else exec n' s2 st1
      | SLocal (Decl ty x e) s1 =>
          let '(v, st1) := eval e st in
          match exec n' s1 (declare ty x v st1) with
          | Some (o, st2) => Some (o, leave st2)
          | None => None
          end
      | SFor (Some (Decl ty x e)) c i b =>
          let '(v, st1) := eval e st in
          match exec n' (SFor None c i b) (declare ty x v st1) with
          | Some (o, st2) => Some (o, leave st2)
          | None => None
          end
      | SFor None c i b =>
          let '(v, st1) := eval c st in
          if truth v then
            match exec n' b st1 with
            | Some (ONormal, st2) | Some (OContinue, st2) =>
                exec n' (SFor None c i b) (eval_opt i st2)
            | Some (OBreak, st2) => Some (ONormal, st2)
            | Some (OReturn r, st2) => Some (OReturn r, st2)
            | Some (OAbort, st2) => Some (OAbort, st2)
            | None => None
            end
          else Some (ONormal, st1)
      | SBreak => Some (OBreak, log EvBreak st)
      | SContinue => Some (OContinue, log EvContinue st)
      | SReturn None => Some (OReturn None, log (EvReturn None) st)
      | SReturn (Some e) =>
          let '(v, st1) := eval e st in
          Some (OReturn (Some v), log (EvReturn (Some v)) st1)
      end
  end.


(** ** Hygiene

    The macros are unhygienic: the flag is an ordinary block-scoped object
    named [_se350_loop_has_run], and the caller's expressions and block are
    pasted into its scope.  The name is the macros' own; what is proved
    below is about callers that do not write it themselves (a guard nested
    in the block of another declares its own flag, which hides the outer
    one, and is no such use).  [uses x e] says that the identifier [x]
    occurs in [e]; [free x s] that it occurs in [s] outside the scope of a
    declaration of [x] made by [s] itself. *)

Fixpoint uses (x : ident) (e : expr) : bool :=
  match e with
  | EConst _ => false
  | EVar y => String.eqb y x
  | EAssign y e1 => String.eqb y x || uses x e1
  | EDeref p => uses x p
  | EStore p e1 => uses x p || uses x e1
  | ENot e1 => uses x e1
  | EBinop _ e1 e2 => uses x e1 || uses x e2
  | ECond c t f => uses x c || uses x t || uses x f
  | EComma e1 e2 => uses x e1 || uses x e2
  | ECall _ args => existsb (uses x) args
  end.

Definition uses_opt (x : ident) (oe : option expr) : bool :=
  match oe with
  | Some e => uses x e
  | None => false
  end.

Fixpoint free (x : ident) (s : stmt) : bool :=
  match s with
  | SSkip | SBreak | SContinue | SReturn None => false
  | SExpr e | SAssert e | SReturn (Some e) => uses x e
  | SSeq s1 s2 => free x s1 || free x s2
  | SIf c s1 s2 => uses x c || free x s1 || free x s2
  | SLocal (Decl _ y e) s1 =>
      uses x e || (negb (String.eqb y x) && free x s1)
  | SFor (Some (Decl _ y e)) c i b =>
      uses x e
      || (negb (String.eqb y x) && (uses x c || uses_opt x i || free x b))
  | SFor None c i b => uses x c || uses_opt x i || free x b
  end.

(** [agree f seen rho rho']: the two environments declare the same objects
    with the same types, and differ at most in the value of an object that
    is visible (its name is not in [seen], the names declared further in)
    and whose name satisfies [f]. *)
Inductive agree (f : ident -> bool) : list ident -> env -> env -> Prop :=
| agree_nil seen : agree f seen [] []
| agree_cons seen y ty v v' rho rho' :
    v' = v \/ (f y = true /\ ~ In y seen) ->
    agree f (y :: seen) rho rho' ->
    agree f seen ((y, (ty, v)) :: rho) ((y, (ty, v')) :: rho').

(** What is declared, without the values. *)
Definition shape (rho : env) : list (ident * ctype) :=
  map (fun b => (fst b, fst (snd b))) rho.

(** The trace from [st] on. *)
Definition since (st st' : state) : list event :=
  skipn (List.length (trace st)) (trace st').

(** [_se350_loop_has_run = 1], and what the flag is. *)
Definition set_run (st : state) : state :=
  snd (assign _se350_loop_has_run 1 st).

Definition flag_is (v : Z) (st : state) : Prop :=
  lookup _se350_loop_has_run (locals st) = Some (TBool, v).

End Semantics.

Arguments mkState {W} _ _ _ _ _.
Arguments locals {W} _.
Arguments globals {W} _.
Arguments heap {W} _.
Arguments ext {W} _.
Arguments trace {W} _.
Arguments log {W} _ _.
Arguments read {W} _ _.
Arguments assign {W} _ _ _.
Arguments store {W} _ _ _.
Arguments declare {W} _ _ _ _.
Arguments leave {W} _.
Arguments since {W} _ _.
Arguments set_run {W} _.
Arguments flag_is {W} _ _.
Arguments call {W} _ _ _ _.
Arguments eval {W} _ _ _.
Arguments eval_args {W} _ _ _.
Arguments eval_opt {W} _ _ _.
Arguments exec {W} _ _ _ _.

(** Induction on expressions that reaches the arguments of a call. *)
Section ExprInduction.

Variable P : expr -> Prop.
Hypothesis HConst : forall z, P (EConst z).
Hypothesis HVar : forall x, P (EVar x).
Hypothesis HAssign : forall x e, P e -> P (EAssign x e).
Hypothesis HDeref : forall p, P p -> P (EDeref p).
Hypothesis HStore : forall p e, P p -> P e -> P (EStore p e).
Hypothesis HNot : forall e, P e -> P (ENot e).
Hypothesis HBinop : forall op e1 e2, P e1 -> P e2 -> P (EBinop op e1 e2).
Hypothesis HCond : forall c t f, P c -> P t -> P f -> P (ECond c t f).
Hypothesis HComma : forall e1 e2, P e1 -> P e2 -> P (EComma e1 e2).
Hypothesis HCall : forall f args, Forall P args -> P (ECall f args).

Fixpoint expr_induction (e : expr) : P e :=
  match e with
  | EConst z => HConst z
  | EVar x => HVar x
  | EAssign x e1 => HAssign x e1 (expr_induction e1)
  | EDeref p => HDeref p (expr_induction p)
  | EStore p e1 => HStore p e1 (expr_induction p) (expr_induction e1)
  | ENot e1 => HNot e1 (expr_induction e1)
  | EBinop op e1 e2 => HBinop op e1 e2 (expr_induction e1) (expr_induction e2)
  | ECond c t f =>
      HCond c t f (expr_induction c) (expr_induction t) (expr_induction f)
  | EComma e1 e2 => HComma e1 e2 (expr_induction e1) (expr_induction e2)
  | ECall f args =>
      HCall f args
        ((fix all (l : list expr) : Forall P l :=
            match l with
            | [] => Forall_nil P
            | e1 :: l' => Forall_cons e1 (expr_induction e1) (all l')
            end) args)
  end.

End ExprInduction.

(** ** What a guard does around its block

    [enter_scope] and [enter_using] are the steps from the guard's entry
    to the first statement of the block; [guard_exit] is what follows the
    block, by the way the block ended. *)

Definition enter_scope {W} (extcall : callee -> list Z -> W -> Z * W)
    (before_expr : expr) (st : state W) : state W :=
  snd (eval extcall before_expr (declare TBool _se350_loop_has_run 0 st)).

Definition enter_using {W} (extcall : callee -> list Z -> W -> Z * W)
    (d : declaration) (st : state W) : state W :=
  match d with
  | Decl ty x e =>
      let '(v, st1) := eval extcall e (declare TBool _se350_loop_has_run 0 st) in
      declare ty x v st1
  end.

Definition guard_exit {W} (extcall : callee -> list Z -> W -> Z * W)
    (after_expr : expr) (r : outcome * state W) : outcome * state W :=
  match r with
  | (ONormal, st2) | (OContinue, st2) =>
      (ONormal, set_run (snd (eval extcall after_expr (set_run st2))))
  | (OBreak, st2) =>
      (ONormal, set_run (snd (eval extcall after_expr st2)))
  | (OReturn v, st2) => (OReturn v, st2)
  | (OAbort, st2) => (OAbort, st2)
  end.

Definition declared (d : declaration) : ident :=
  match d with Decl _ x _ => x end.

Definition initialiser (d : declaration) : expr :=
  match d with Decl _ _ e => e end.

(** ** Reading traces *)

(** The last event of a run tells how it ended: a run that ends in
    [break], [continue] or [return] ends at that statement. *)
Definition ends_with (o : outcome) (t : list event) : Prop :=
  match o with
  | OBreak => exists t', t = t' ++ [EvBreak]
  | OContinue => exists t', t = t' ++ [EvContinue]
  | OReturn v => exists t', t = t' ++ [EvReturn v]
  | ONormal | OAbort => True
  end.

(** The external calls of a trace, in order. *)
Fixpoint calls (t : list event) : list callee :=
  match t with
  | [] => []
  | EvCall f _ _ :: t' => f :: calls t'
  | _ :: t' => calls t'
  end.

(** The events of the guards' own bookkeeping. *)
Definition is_flag_event (ev : event) : bool :=
  match ev with
  | EvDecl x _ | EvWrite x _ _ => String.eqb x _se350_loop_has_run
  | _ => false
  end.

(** ** A concrete outside world *)

(** Modelled from the spec: the collaborators of the demonstration, which
    the sources only use ([rtx.h] and [printf.h] are not among them): an
    interrupt-mask pair without arguments and results, and a resource-block
    allocator pair, request giving a handle and release taking one.  Here the
    world is the address of the next free block and blocks are 128 bytes;
    every other function returns 0 and leaves the world alone. *)
Definition rtx_extcall (f : callee) (args : list Z) (w : Z) : Z * Z :=
  match f with
  | Fn name =>
      if String.eqb name "request_memory_block" then (w, w + 128) else (0, w)
  | Printf _ => (0, w)
  end.

Definition rtx_boot : state Z :=
  mkState [] (fun _ => 0) (fun _ => 0) 4096 [].

(** Calls without arguments, as statements use them. *)
Definition call0 (name : string) : expr := ECall (Fn name) [].

(** ** The three guards under one name

    A use of one of the three macros with its arguments, [expand]ed around
    the guarded statement. *)
Inductive guard :=
| Scope (before_expr after_expr : expr)
| ScopeExit (after_expr : expr)
| Using (d : declaration) (after_expr : expr).

Definition expand (g : guard) (body : stmt) : stmt :=
  match g with
  | Scope before_expr after_expr => SE350_SCOPE before_expr after_expr body
  | ScopeExit after_expr => SE350_SCOPE_EXIT after_expr body
  | Using d after_expr => SE350_USING d after_expr body
  end.

Definition after_of (g : guard) : expr :=
  match g with
  | Scope _ after_expr | ScopeExit after_expr | Using _ after_expr => after_expr
  end.

(** The caller's text does not name the flag. *)
Definition hygienic (g : guard) : bool :=
  match g with
  | Scope before_expr after_expr =>
      negb (uses _se350_loop_has_run before_expr)
      && negb (uses _se350_loop_has_run after_expr)
  | ScopeExit after_expr => negb (uses _se350_loop_has_run after_expr)
  | Using d after_expr =>
      negb (String.eqb (declared d) _se350_loop_has_run)
      && negb (uses _se350_loop_has_run (initialiser d))
      && negb (uses _se350_loop_has_run after_expr)
  end.

(** From the guard's entry to the first statement of its block. *)
Definition enter {W} (extcall : callee -> list Z -> W -> Z * W)
    (g : guard) (st : state W) : state W :=
  match g with
  | Scope before_expr _ => enter_scope extcall before_expr st
  | ScopeExit _ => enter_scope extcall (EConst 0) st
  | Using d _ => enter_using extcall d st
  end.

(** Leaving the scopes that the guard opened: the flag's, and for
    SE350_USING the declared object's. *)
Definition close {W} (g : guard) (st : state W) : state W :=
  match g with
  | Scope _ _ | ScopeExit _ => leave st
  | Using _ _ => leave (leave st)
  end.

(** The [for] statements between the guard and its block, plus one. *)
Definition depth (g : guard) : nat :=
  match g with
  | Scope _ _ | ScopeExit _ => 3
  | Using _ _ => 5
  end.

(** How a run ended and what it logged. *)
Definition run_trace {W} (extcall : callee -> list Z -> W -> Z * W)
    (n : nat) (s : stmt) (st : state W) : option (outcome * list event) :=
  match exec extcall n s st with
  | Some (o, st') => Some (o, trace st')
  | None => None
  end.

(** The state a run ends in ([st] itself when the fuel runs out). *)
Definition state_after {W} (extcall : callee -> list Z -> W -> Z * W)
    (n : nat) (s : stmt) (st : state W) : state W :=
  match exec extcall n s st with
  | Some (_, st') => st'
  | None => st
  end.

(** ** Programs *)

(** usage.c:
    [#define INTERRUPT_FREE_BLOCK SE350_SCOPE(__disable_irq(), __enable_irq())] *)
Definition INTERRUPT_FREE_BLOCK (body : stmt) : stmt :=
  SE350_SCOPE (call0 "__disable_irq") (call0 "__enable_irq") body.

Definition irq_guard : guard :=
  Scope (call0 "__disable_irq") (call0 "__enable_irq").

(** The block of the usage example of SE350_SCOPE_BREAK in scope.h:
    [{ if (earlyCondition) { SE350_SCOPE_BREAK; } critical(); }]
    where [critical()] stands for the comment "no interrupts". *)
Definition early_break_block : stmt :=
  SSeq (SIf (EVar "earlyCondition") SE350_SCOPE_BREAK SSkip)
       (SExpr (call0 "critical")).

(** The machine after boot with the file-scope [earlyCondition] set. *)
Definition rtx_early : state Z :=
  mkState [] (fun x => if String.eqb x "earlyCondition" then 1 else 0)
          (fun _ => 0) 4096 [].

(** [{ while (1) { SE350_SCOPE_BREAK; } rest(); }]: the escape written
    inside a loop of the guarded block. *)
Definition break_in_loop_block : stmt :=
  SSeq (SFor None (EConst 1) None SE350_SCOPE_BREAK)
       (SExpr (call0 "rest")).

(** [{ work(); continue; more(); }] and [{ work(); return; more(); }]. *)
Definition continue_block : stmt :=
  SSeq (SExpr (call0 "work")) (SSeq SContinue (SExpr (call0 "more"))).

Definition return_block : stmt :=
  SSeq (SExpr (call0 "work")) (SSeq (SReturn None) (SExpr (call0 "more"))).

(** [x] names an object that holds any integer as it is: a local that is
    not a [_Bool], or a file-scope [int]. *)
Definition int_object {W} (x : ident) (st : state W) : Prop :=
  match lookup x (locals st) with
  | Some (ty, _) => ty <> TBool
  | None => True
  end.

(** The scenario
    [SE350_SCOPE(x = 1, x = 2) { assert(x == 1); }] and the check
    [assert(x == 2);] after it. *)
Definition set_x_scenario : stmt :=
  SE350_SCOPE (EAssign "x" (EConst 1)) (EAssign "x" (EConst 2))
    (SAssert (EBinop Oeq (EVar "x") (EConst 1))).

Definition set_x_check : stmt :=
  SAssert (EBinop Oeq (EVar "x") (EConst 2)).

(** usage.c: [void log_release(void* p)] prints and releases; a call of it
    is its body with the argument in place of the parameter. *)
Definition log_release (p : expr) : expr :=
  EComma (ECall (Printf "Freeing pointer\n") [])
         (ECall (Fn "release_memory_block") [p]).

Definition request_memory_block : expr := call0 "request_memory_block".

(** usage.c, the two stacked declarations ("C#'s double-up using"):
    [SE350_USING(int* p4 = request_memory_block(), log_release(p4))
     SE350_USING(int* p5 = request_memory_block(), log_release(p5)) {
         *p4 = 8;
         *p5 = 9;
         printf("(*p4, *p5) = (%d, %d)\n", *p4, *p5);
     }] *)
Definition double_up_block : stmt :=
  SSeq (SExpr (EStore (EVar "p4") (EConst 8)))
    (SSeq (SExpr (EStore (EVar "p5") (EConst 9)))
       (SExpr (ECall (Printf "(*p4, *p5) = (%d, %d)\n")
                     [EDeref (EVar "p4"); EDeref (EVar "p5")]))).

Definition using_p4 : declaration := Decl TPtr "p4" request_memory_block.
Definition using_p5 : declaration := Decl TPtr "p5" request_memory_block.

Definition double_up_using : stmt :=
  SE350_USING using_p4 (log_release (EVar "p4"))
    (SE350_USING using_p5 (log_release (EVar "p5"))
       double_up_block).

(** usage.c, [main]. *)
Definition main : stmt :=
  SSeq (INTERRUPT_FREE_BLOCK SSkip)
    (SLocal (Decl TPtr "p2" request_memory_block)
       (SSeq
          (SE350_SCOPE_EXIT (log_release (EVar "p2"))
             (SSeq (SExpr (EStore (EVar "p2") (EConst 6)))
                (SExpr (ECall (Printf "*p2: %d\n") [EDeref (EVar "p2")]))))
          (SSeq
             (SE350_USING (Decl TPtr "p3" request_memory_block)
                (log_release (EVar "p3"))
                (SSeq (SExpr (EStore (EVar "p3") (EConst 7)))
                   (SExpr (ECall (Printf "*p3: %d\n") [EDeref (EVar "p3")]))))
             double_up_using))).

(** ** The guard's own steps

    A step of the guard's bookkeeping: nothing changes but the value of
    the visible [_se350_loop_has_run], and the trace grows by flag events
    only. *)
Definition own_step {W} (st st' : state W) : Prop :=
  globals st' = globals st
  /\ heap st' = heap st
  /\ ext st' = ext st
  /\ agree (fun y => String.eqb y _se350_loop_has_run) []
           (locals st) (locals st')
  /\ exists t, trace st' = trace st ++ t /\ forallb is_flag_event t = true.

(** The block ended in a way that leaves the function. *)
Definition leaves_function (o : outcome) : bool :=
  match o with
  | OReturn _ | OAbort => true
  | ONormal | OBreak | OContinue => false
  end.

(** The flag going from "not yet run" to "run". *)
Definition is_transition (ev : event) : bool :=
  match ev with
  | EvWrite x old new =>
      String.eqb x _se350_loop_has_run && (old =? 0) && (new =? 1)
  | _ => false
  end.

Definition transitions (t : list event) : nat :=
  List.length (filter is_transition t).

(** ** Repeated entry

    [for (int i = 0; i < N; i = i + 1) s] *)
Definition counted_loop (i : ident) (N : nat) (s : stmt) : stmt :=
  SFor (Some (Decl TInt i (EConst 0)))
       (EBinop Olt (EVar i) (EConst (Z.of_nat N)))
       (Some (EAssign i (EBinop Oadd (EVar i) (EConst 1))))
       s.

Definition callee_eqb (f f' : callee) : bool :=
  match f, f' with
  | Fn a, Fn b | Printf a, Printf b => String.eqb a b
  | _, _ => false
  end.

(** The calls of [fb] and [fa] in a trace, in order. *)
Definition marks (fb fa : callee) (t : list event) : list callee :=
  filter (fun f => callee_eqb f fb || callee_eqb f fa) (calls t).

(** A guard inside the block of another, the inner block ending at the
    escape:
    [INTERRUPT_FREE_BLOCK {
         SE350_SCOPE(lock(), unlock()) { work(); SE350_SCOPE_BREAK; more(); }
         rest();
     }] *)
Definition lock_guard : guard := Scope (call0 "lock") (call0 "unlock").

Definition break_block : stmt :=
  SSeq (SExpr (call0 "work")) (SSeq SE350_SCOPE_BREAK (SExpr (call0 "more"))).

Definition nested_break_program : stmt :=
  INTERRUPT_FREE_BLOCK
    (SSeq (expand lock_guard break_block) (SExpr (call0 "rest"))).

(** ** Looking past the flag

    A trace without the guards' bookkeeping, and two states that differ at
    most in the value of the visible flag and in flag events. *)
Definition unflagged (t : list event) : list event :=
  filter (fun ev => negb (is_flag_event ev)) t.

Definition same_but_flag {W} (st st' : state W) : Prop :=
  globals st' = globals st
  /\ heap st' = heap st
  /\ ext st' = ext st
  /\ agree (fun y => String.eqb y _se350_loop_has_run) []
           (locals st) (locals st')
  /\ unflagged (trace st') = unflagged (trace st).

(** Two states with the same objects, memory and outside world, and the
    same trace but for flag events. *)
Definition same_outside {W} (st st' : state W) : Prop :=
  locals st' = locals st
  /\ globals st' = globals st
  /\ heap st' = heap st
  /\ ext st' = ext st
  /\ unflagged (trace st') = unflagged (trace st).

(** ** The caller's parts alone

    The environment without its [k]-th declaration, and a state [stw] with
    a flag declared [k] declarations in, next to the same state [sto]
    without that flag. *)
Fixpoint drop_at (k : nat) (rho : env) : env :=
  match rho with
  | [] => []
  | b :: rho' =>
      match k with
      | O => rho'
      | S k' => b :: drop_at k' rho'
      end
  end.

Definition erased {W} (k : nat) (stw sto : state W) : Prop :=
  (exists b, nth_error (locals stw) k = Some (_se350_loop_has_run, b))
  /\ locals sto = drop_at k (locals stw)
  /\ globals sto = globals stw
  /\ heap sto = heap stw
  /\ ext sto = ext stw
  /\ unflagged (trace sto) = unflagged (trace stw).

(** A declaration of the flag among the [k] innermost ones. *)
Definition shadowed {W} (k : nat) (st : state W) : Prop :=
  In _se350_loop_has_run (map fst (firstn k (locals st))).

(** What the caller wrote before the block, run without any guard: the
    before-expression, nothing, or the declaration; and the end of the
    declaration's scope. *)
Definition caller_enter {W} (extcall : callee -> list Z -> W -> Z * W)
    (g : guard) (st : state W) : state W :=
  match g with
  | Scope before_expr _ => snd (eval extcall before_expr st)
  | ScopeExit _ => st
  | Using (Decl ty x e) _ =>
      declare ty x (fst (eval extcall e st)) (snd (eval extcall e st))
  end.

Definition caller_close {W} (g : guard) (st : state W) : state W :=
  match g with
  | Scope _ _ | ScopeExit _ => st
  | Using _ _ => leave st
  end.

(** The caller's parts in order, from the state [st]: entry, block, and
    the after-expression unless the block left the function. *)
Definition caller_run {W} (extcall : callee -> list Z -> W -> Z * W)
    (g : guard) (body : stmt) (n : nat) (st : state W)
    : option (outcome * state W) :=
  match exec extcall n body (caller_enter extcall g st) with
  | Some (ob, st2) =>
      if leaves_function ob then Some (ob, caller_close g st2)
      else Some (ONormal,
                 caller_close g (snd (eval extcall (after_of g) st2)))
  | None => None
  end.

(** The number of declarations above the flag when the block is entered. *)
Definition flag_depth (g : guard) : nat :=
  match g with
  | Scope _ _ | ScopeExit _ => 0
  | Using _ _ => 1
  end.

(** ** Callers that write the flag

    What of the caller's text runs before the guard first tests its flag:
    the before-expression of SE350_SCOPE and the declaration of
    SE350_USING.  [entry_hygienic] says that this part does not name the
    flag; the after-expression and the block may. *)
Definition entry_hygienic (g : guard) : bool :=
  match g with
  | Scope before_expr _ => negb (uses _se350_loop_has_run before_expr)
  | ScopeExit _ => true
  | Using d _ =>
      negb (String.eqb (declared d) _se350_loop_has_run)
      && negb (uses _se350_loop_has_run (initialiser d))
  end.

(** [_se350_loop_has_run = 0], written by a caller. *)
Definition clear_flag : expr := EAssign _se350_loop_has_run (EConst 0).

(** [(_se350_loop_has_run = 1, e)], written by a caller. *)
Definition raise_flag (e : expr) : expr :=
  EComma (EAssign _se350_loop_has_run (EConst 1)) e.

(** ** Objects the block leaves alone

    [assigns x e]: the expression [e] has an assignment to the identifier
    [x]; [writes x s]: the statement [s] has one outside the scope of a
    declaration of [x] of its own. *)
Fixpoint assigns (x : ident) (e : expr) : bool :=
  match e with
  | EConst _ | EVar _ => false
  | EAssign y e1 => String.eqb y x || assigns x e1
  | EDeref p => assigns x p
  | EStore p e1 => assigns x p || assigns x e1
  | ENot e1 => assigns x e1
  | EBinop _ e1 e2 => assigns x e1 || assigns x e2
  | ECond c t f => assigns x c || assigns x t || assigns x f
  | EComma e1 e2 => assigns x e1 || assigns x e2
  | ECall _ args => existsb (assigns x) args
  end.

Definition assigns_opt (x : ident) (oe : option expr) : bool :=
  match oe with
  | Some e => assigns x e
  | None => false
  end.

Fixpoint writes (x : ident) (s : stmt) : bool :=
  match s with
  | SSkip | SBreak | SContinue | SReturn None => false
  | SExpr e | SAssert e | SReturn (Some e) => assigns x e
  | SSeq s1 s2 => writes x s1 || writes x s2
  | SIf c s1 s2 => assigns x c || writes x s1 || writes x s2
  | SLocal (Decl _ y e) s1 =>
      assigns x e || (negb (String.eqb y x) && writes x s1)
  | SFor (Some (Decl _ y e)) c i b =>
      assigns x e
      || (negb (String.eqb y x)
          && (assigns x c || assigns_opt x i || writes x b))
  | SFor None c i b => assigns x c || assigns_opt x i || writes x b
  end.

(** usage.c, the block of the guard of [p3]:
    [{ *p3 = 7; printf("*p3: %d\n", *p3); }] *)
Definition p3_block : stmt :=
  SSeq (SExpr (EStore (EVar "p3") (EConst 7)))
       (SExpr (ECall (Printf "*p3: %d\n") [EDeref (EVar "p3")])).

Definition using_p3 : declaration := Decl TPtr "p3" request_memory_block.

(** ** Guards stacked on one block

    [g1 g2 ... gk body], as in the double-up of usage.c: each macro takes
    the statement that follows it, so the first guard is the outermost. *)
Fixpoint expand_all (gs : list guard) (body : stmt) : stmt :=
  match gs with
  | [] => body
  | g :: gs' => expand g (expand_all gs' body)
  end.

Fixpoint enter_all {W} (extcall : callee -> list Z -> W -> Z * W)
    (gs : list guard) (st : state W) : state W :=
  match gs with
  | [] => st
  | g :: gs' => enter_all extcall gs' (enter extcall g st)
  end.

(** What follows the block: the exits of the guards from the innermost
    out, each closing the scopes of its guard. *)
Fixpoint exit_all {W} (extcall : callee -> list Z -> W -> Z * W)
    (gs : list guard) (r : outcome * state W) : outcome * state W :=
  match gs with
  | [] => r
  | g :: gs' =>
      let '(o, st') :=
        guard_exit extcall (after_of g) (exit_all extcall gs' r) in
      (o, close g st')
  end.

Fixpoint close_all {W} (gs : list guard) (st : state W) : state W :=
  match gs with
  | [] => st
  | g :: gs' => close g (close_all gs' st)
  end.

Fixpoint depth_all (gs : list guard) : nat :=
  match gs with
  | [] => 0
  | g :: gs' => depth g + depth_all gs'
  end.

(** The statement has a [return] or an [assert]. *)
Fixpoint may_leave (s : stmt) : bool :=
  match s with
  | SSkip | SExpr _ | SBreak | SContinue => false
  | SAssert _ | SReturn _ => true
  | SSeq s1 s2 | SIf _ s1 s2 => may_leave s1 || may_leave s2
  | SLocal _ s1 | SFor _ _ _ s1 => may_leave s1
  end.

(** ** Reading the allocator's calls off a trace *)

(** The handles that [request_memory_block] returned, the handles given
    to [release_memory_block], and what was printed, each in order. *)
Fixpoint acquired (t : list event) : list Z :=
  match t with
  | [] => []
  | EvCall (Fn name) _ r :: t' =>
      if String.eqb name "request_memory_block" then r :: acquired t'
      else acquired t'
  | _ :: t' => acquired t'
  end.

Fixpoint released (t : list event) : list Z :=
  match t with
  | [] => []
  | EvCall (Fn name) args _ :: t' =>
      if String.eqb name "release_memory_block" then args ++ released t'
      else released t'
  | _ :: t' => released t'
  end.

Fixpoint printed (t : list event) : list (string * list Z) :=
  match t with
  | [] => []
  | EvCall (Printf fmt) args _ :: t' => (fmt, args) :: printed t'
  | _ :: t' => printed t'
  end.

(** ** The outside world as the history of its calls

    Whatever the outside world is, a run sees it only through the results
    of the calls it makes.  [replay] makes the calls of a history one
    after the other from the world [w0]; in the world of histories a call
    is answered by what the replay of the history up to it gives; and
    [tracks] relates a state of a run in the given world, begun with the
    trace [t0], to the state of the same run in the world of histories,
    begun with an empty trace. *)
Definition history := list (callee * list Z).

Definition replay {W} (extcall : callee -> list Z -> W -> Z * W)
    (w0 : W) (h : history) : Z * W :=
  fold_left (fun rw c => extcall (fst c) (snd c) (snd rw)) h (0, w0).

Definition history_extcall (answer : history -> Z)
    (f : callee) (vs : list Z) (h : history) : Z * history :=
  (answer (h ++ [(f, vs)]), h ++ [(f, vs)]).

Definition answers {W} (extcall : callee -> list Z -> W -> Z * W)
    (w0 : W) (h : history) : Z :=
  fst (replay extcall w0 h).

Definition tracks {W} (extcall : callee -> list Z -> W -> Z * W)
    (w0 : W) (t0 : list event) (st : state W) (sh : state history) : Prop :=
  locals sh = locals st
  /\ globals sh = globals st
  /\ heap sh = heap st
  /\ trace st = t0 ++ trace sh
  /\ snd (replay extcall w0 (ext sh)) = ext st.

(** The state [st] at the beginning of a run in the world of histories. *)
Definition afresh {W} (st : state W) : state history :=
  mkState (locals st) (globals st) (heap st) [] [].

(** The two guards of the double-up of usage.c, and a block that returns
    under them: [{ *p4 = 8; return; }]. *)
Definition double_up_guards : list guard :=
  [Using using_p4 (log_release (EVar "p4"));
   Using using_p5 (log_release (EVar "p5"))].

Definition leaking_block : stmt :=
  SSeq (SExpr (EStore (EVar "p4") (EConst 8))) (SReturn None).

(** usage.c, the block of the guard of [p2],
    [{ *p2 = 6; printf("*p2: %d\n", *p2); }], and the machine after
    [int* p2 = request_memory_block();]. *)
Definition p2_block : stmt :=
  SSeq (SExpr (EStore (EVar "p2") (EConst 6)))
       (SExpr (ECall (Printf "*p2: %d\n") [EDeref (EVar "p2")])).

Definition rtx_with_p2 : state Z :=
  declare TPtr "p2"
    (fst (eval rtx_extcall request_memory_block rtx_boot))
    (snd (eval rtx_extcall request_memory_block rtx_boot)).

(** * Properties *)

(** ** Environments *)

Lemma agree_refl f seen rho : agree f seen rho rho.
Proof.
  revert seen; induction rho as [|[y [ty v]] rho IH]; intros seen.
  - constructor.
  - constructor; [now left | apply IH].
Qed.

Lemma agree_trans f seen r1 r2 r3 :
  agree f seen r1 r2 -> agree f seen r2 r3 -> agree f seen r1 r3.
Proof.
  intros H12; revert r3; induction H12; intros r3 H23.
  - exact H23.
  - inversion H23; subst. constructor.
    + destruct H as [->|H]; [ assumption | now right ].
    + now apply IHagree.
Qed.

Lemma agree_weaken f g seen seen' rho rho' :
  (forall z, f z = true -> ~ In z seen -> g z = true /\ ~ In z seen') ->
  agree f seen rho rho' -> agree g seen' rho rho'.
Proof.
  intros Hfg H; revert seen' Hfg; induction H; intros seen' Hfg.
  - constructor.
  - constructor.
    + destruct H as [->|[Hf Hn]]; [now left | right; now apply Hfg].
    + apply IHagree. intros z Hz Hnz.
      destruct (Hfg z Hz) as [Hg Hn'].
      * intro Hin; apply Hnz; now right.
      * split; [exact Hg|]. intros [->|Hin]; [apply Hnz; now left | now apply Hn'].
Qed.

Lemma agree_mono f g rho rho' :
  (forall z, f z = true -> g z = true) ->
  agree f [] rho rho' -> agree g [] rho rho'.
Proof.
  intros Hfg; apply agree_weaken; intros z Hz _; split; [now apply Hfg | intros []].
Qed.

Lemma agree_update f x v seen rho :
  f x = true -> ~ In x seen -> agree f seen rho (update x v rho).
Proof.
  intros Hf; revert seen; induction rho as [|[y [ty w]] rho IH]; intros seen Hn.
  - constructor.
  - simpl. destruct (String.eqb_spec y x) as [->|Hne].
    + constructor; [now right | apply agree_refl].
    + constructor; [now left |]. apply IH. intros [E|Hin]; [now apply Hne | now apply Hn].
Qed.

Lemma agree_lookup f seen rho rho' x :
  agree f seen rho rho' -> f x = false -> lookup x rho' = lookup x rho.
Proof.
  intros H Hf; induction H; simpl.
  - reflexivity.
  - destruct (String.eqb_spec y x) as [->|Hne].
    + destruct H as [->|[Hy _]]; [reflexivity | congruence].
    + exact IHagree.
Qed.

Lemma agree_shape f seen rho rho' :
  agree f seen rho rho' -> shape rho' = shape rho.
Proof.
  induction 1; simpl; [reflexivity | now f_equal].
Qed.

Lemma agree_pop f x ty v rho rho' :
  agree f [] ((x, (ty, v)) :: rho) rho' ->
  exists v' rho1, rho' = (x, (ty, v')) :: rho1 /\ agree f [x] rho rho1.
Proof.
  intros H; inversion H; subst. eauto.
Qed.

Lemma lookup_update_same x v ty old rho :
  lookup x rho = Some (ty, old) -> lookup x (update x v rho) = Some (ty, v).
Proof.
  induction rho as [|[y [ty' w]] rho IH]; simpl; [discriminate|].
  destruct (String.eqb_spec y x) as [->|Hne]; simpl.
  - rewrite String.eqb_refl. now intros [= -> _].
  - destruct (String.eqb_spec y x); [contradiction | exact IH].
Qed.

Section Proofs.

Context {W : Type} (extcall : callee -> list Z -> W -> Z * W).

(** ** Unfolding the interpreter *)

Lemma eval_call f args (st : state W) :
  eval extcall (ECall f args) st =
  let '(vs, st1) := eval_args extcall args st in call extcall f vs st1.
Proof. reflexivity. Qed.

Lemma assign_locals x v (st : state W) :
  agree (fun z => String.eqb x z) [] (locals st) (locals (snd (assign x v st))).
Proof.
  unfold assign. destruct (lookup x (locals st)) as [[ty old]|]; simpl.
  - apply agree_update; [apply String.eqb_refl | intros []].
  - apply agree_refl.
Qed.

Lemma call_locals f vs (st : state W) :
  locals (snd (call extcall f vs st)) = locals st.
Proof. unfold call. now destruct (extcall f vs (ext st)). Qed.

(** ** The frame of an expression and of a statement *)

Lemma eval_agree e :
  forall (st : state W),
    agree (fun x => uses x e) [] (locals st) (locals (snd (eval extcall e st))).
Proof.
  induction e using expr_induction; intros st.
  - apply agree_refl.
  - apply agree_refl.
  - simpl. specialize (IHe st). destruct (eval extcall e st) as [v st1]; simpl in *.
    eapply agree_trans.
    + eapply agree_mono; [|exact IHe]. intros z Hz; simpl. rewrite Hz. apply orb_true_r.
    + eapply agree_mono; [|apply assign_locals]. intros z Hz; simpl.
      now rewrite Hz.
  - simpl. specialize (IHe st). now destruct (eval extcall e st).
  - simpl. specialize (IHe1 st). destruct (eval extcall e1 st) as [a st1]; simpl in *.
    specialize (IHe2 st1). destruct (eval extcall e2 st1) as [v st2]; simpl in *.
    eapply agree_trans.
    + eapply agree_mono; [|exact IHe1]. intros z Hz; now rewrite Hz.
    + eapply agree_mono; [|exact IHe2]. intros z Hz; rewrite Hz; apply orb_true_r.
  - simpl. specialize (IHe st). now destruct (eval extcall e st).
  - simpl. specialize (IHe1 st). destruct (eval extcall e1 st) as [a st1]; simpl in *.
    specialize (IHe2 st1). destruct (eval extcall e2 st1) as [v st2]; simpl in *.
    eapply agree_trans.
    + eapply agree_mono; [|exact IHe1]. intros z Hz; now rewrite Hz.
    + eapply agree_mono; [|exact IHe2]. intros z Hz; rewrite Hz; apply orb_true_r.
  - simpl. specialize (IHe1 st). destruct (eval extcall e1 st) as [v st1]; simpl in *.
    eapply agree_trans.
    + eapply agree_mono; [|exact IHe1]. intros z Hz; now rewrite Hz.
    + destruct (truth v).
      * eapply agree_mono; [|apply IHe2]. intros z Hz; rewrite Hz.
        rewrite orb_true_r; reflexivity.
      * eapply agree_mono; [|apply IHe3]. intros z Hz; rewrite Hz.
        apply orb_true_r.
  - simpl. specialize (IHe1 st). destruct (eval extcall e1 st) as [v st1]; simpl in *.
    eapply agree_trans.
    + eapply agree_mono; [|exact IHe1]. intros z Hz; now rewrite Hz.
    + eapply agree_mono; [|apply IHe2]. intros z Hz; rewrite Hz; apply orb_true_r.
  - rewrite eval_call.
    assert (Hargs : forall st : state W,
               agree (fun x => existsb (uses x) args) [] (locals st)
                     (locals (snd (eval_args extcall args st)))).
    { clear st. induction H as [|e args He Hall IH]; intros st; simpl.
      - apply agree_refl.
      - specialize (He st). destruct (eval extcall e st) as [v st1]; simpl in *.
        specialize (IH st1). destruct (eval_args extcall args st1) as [vs st2]; simpl in *.
        eapply agree_trans.
        + eapply agree_mono; [|exact He]. intros z Hz; now rewrite Hz.
        + eapply agree_mono; [|exact IH]. intros z Hz; rewrite Hz; apply orb_true_r. }
    specialize (Hargs st). destruct (eval_args extcall args st) as [vs st1]; simpl in *.
    now rewrite call_locals.
Qed.

Lemma eval_opt_agree i (st : state W) :
  agree (fun x => uses_opt x i) [] (locals st) (locals (eval_opt extcall i st)).
Proof.
  destruct i as [e|]; simpl; [apply eval_agree | apply agree_refl].
Qed.

Lemma exec_agree n :
  forall s (st : state W) o st',
    exec extcall n s st = Some (o, st') ->
    agree (fun x => free x s) [] (locals st) (locals st').
Proof.
  induction n as [|n IH]; intros s st o st' H; [discriminate|].
  destruct s; simpl in H.
  - injection H as <- <-. apply agree_refl.
  - injection H as <- <-. apply eval_agree.
  - pose proof (eval_agree e st) as He.
    destruct (eval extcall e st) as [v st1]; simpl in He.
    destruct (truth v); injection H as <- <-; exact He.
  - destruct (exec extcall n s1 st) as [[o1 st1]|] eqn:E1; [|discriminate].
    apply IH in E1.
    assert (H1 : agree (fun x => free x (SSeq s1 s2)) [] (locals st) (locals st1)).
    { eapply agree_mono; [|exact E1]. intros z Hz; simpl; now rewrite Hz. }
    destruct o1; try (injection H as <- <-; exact H1).
    apply IH in H. eapply agree_trans; [exact H1|].
    eapply agree_mono; [|exact H]. intros z Hz; simpl; rewrite Hz; apply orb_true_r.
  - pose proof (eval_agree c st) as Hc.
    destruct (eval extcall c st) as [v st1]; simpl in Hc.
    eapply agree_trans.
    + eapply agree_mono; [|exact Hc]. intros z Hz; simpl; now rewrite Hz.
    + destruct (truth v); apply IH in H.
      * eapply agree_mono; [|exact H]. intros z Hz; simpl; rewrite Hz.
        rewrite orb_true_r; reflexivity.
      * eapply agree_mono; [|exact H]. intros z Hz; simpl; rewrite Hz.
        apply orb_true_r.
  - destruct d as [ty y e].
    pose proof (eval_agree e st) as He.
    destruct (eval extcall e st) as [v st1]; simpl in He.
    destruct (exec extcall n s (declare ty y v st1)) as [[o2 st2]|] eqn:E2;
      [|discriminate].
    injection H as <- <-. apply IH in E2. simpl in E2.
    apply agree_pop in E2 as (v' & rho1 & Hl & Hag).
    simpl. rewrite Hl; simpl.
    eapply agree_trans.
    + eapply agree_mono; [|exact He]. intros z Hz; now rewrite Hz.
    + eapply agree_weaken; [|exact Hag]. intros z Hz Hn; split; [|intros []].
      rewrite Hz, andb_true_r.
      destruct (String.eqb_spec y z) as [->|]; [exfalso; apply Hn; now left|].
      apply orb_true_r.
  - destruct init as [[ty y e]|].
    + pose proof (eval_agree e st) as He.
      destruct (eval extcall e st) as [v st1]; simpl in He.
      destruct (exec extcall n (SFor None cond incr s) (declare ty y v st1))
        as [[o2 st2]|] eqn:E2; [|discriminate].
      injection H as <- <-. apply IH in E2. simpl in E2.
      apply agree_pop in E2 as (v' & rho1 & Hl & Hag).
      simpl. rewrite Hl; simpl.
      eapply agree_trans.
      * eapply agree_mono; [|exact He]. intros z Hz; now rewrite Hz.
      * eapply agree_weaken; [|exact Hag]. intros z Hz Hn; split; [|intros []].
        rewrite Hz, andb_true_r.
        destruct (String.eqb_spec y z) as [->|]; [exfalso; apply Hn; now left|].
        apply orb_true_r.
    + pose proof (eval_agree cond st) as Hc.
      destruct (eval extcall cond st) as [v st1]; simpl in Hc.
      assert (H1 : agree (fun x => free x (SFor None cond incr s)) []
                         (locals st) (locals st1)).
      { eapply agree_mono; [|exact Hc]. intros z Hz; simpl; now rewrite Hz. }
      destruct (truth v); [|injection H as <- <-; exact H1].
      destruct (exec extcall n s st1) as [[o2 st2]|] eqn:E2; [|discriminate].
      apply IH in E2.
      assert (H2 : agree (fun x => free x (SFor None cond incr s)) []
                         (locals st) (locals st2)).
      { eapply agree_trans; [exact H1|]. eapply agree_mono; [|exact E2].
        intros z Hz; simpl; rewrite Hz; apply orb_true_r. }
      assert (H3 : agree (fun x => free x (SFor None cond incr s)) []
                         (locals st) (locals (eval_opt extcall incr st2))).
      { eapply agree_trans; [exact H2|].
        eapply agree_mono; [|apply eval_opt_agree].
        intros z Hz; simpl; rewrite Hz. rewrite orb_true_r; reflexivity. }
      destruct o2; try (injection H as <- <-; exact H2);
        (apply IH in H; eapply agree_trans; [exact H3 | exact H]).
  - injection H as <- <-. apply agree_refl.
  - injection H as <- <-. apply agree_refl.
  - destruct e as [e|].
    + pose proof (eval_agree e st) as He.
      destruct (eval extcall e st) as [v st1]; simpl in He.
      injection H as <- <-. exact He.
    + injection H as <- <-. apply agree_refl.
Qed.

(** More fuel does not change a result. *)
Lemma exec_fuel_S n :
  forall s (st : state W) r,
    exec extcall n s st = Some r -> exec extcall (S n) s st = Some r.
Proof.
  induction n as [|n IH]; intros s st r H; [discriminate|].
  destruct s; try exact H.
  - simpl in H. change (exec extcall (S (S n)) (SSeq s1 s2) st)
      with (match exec extcall (S n) s1 st with
            | Some (ONormal, st1) => exec extcall (S n) s2 st1
            | r => r
            end).
    destruct (exec extcall n s1 st) as [[o1 st1]|] eqn:E1; [|discriminate].
    rewrite (IH _ _ _ E1).
    destruct o1; try exact H. now apply IH.
  - simpl in H. change (exec extcall (S (S n)) (SIf c s1 s2) st)
      with (let '(v, st1) := eval extcall c st in
            if truth v then exec extcall (S n) s1 st1
            else exec extcall (S n) s2 st1).
    destruct (eval extcall c st) as [v st1].
    destruct (truth v); now apply IH.
  - destruct d as [ty y e]. simpl in H.
    change (exec extcall (S (S n)) (SLocal (Decl ty y e) s) st)
      with (let '(v, st1) := eval extcall e st in
            match exec extcall (S n) s (declare ty y v st1) with
            | Some (o, st2) => Some (o, leave st2)
            | None => None
            end).
    destruct (eval extcall e st) as [v st1].
    destruct (exec extcall n s (declare ty y v st1)) as [[o2 st2]|] eqn:E2;
      [|discriminate].
    now rewrite (IH _ _ _ E2).
  - destruct init as [[ty y e]|]; simpl in H.
    + change (exec extcall (S (S n)) (SFor (Some (Decl ty y e)) cond incr s) st)
        with (let '(v, st1) := eval extcall e st in
              match exec extcall (S n) (SFor None cond incr s)
                         (declare ty y v st1) with
              | Some (o, st2) => Some (o, leave st2)
              | None => None
              end).
      destruct (eval extcall e st) as [v st1].
      destruct (exec extcall n (SFor None cond incr s) (declare ty y v st1))
        as [[o2 st2]|] eqn:E2; [|discriminate].
      now rewrite (IH _ _ _ E2).
    + change (exec extcall (S (S n)) (SFor None cond incr s) st)
        with (let '(v, st1) := eval extcall cond st in
              if truth v then
                match exec extcall (S n) s st1 with
                | Some (ONormal, st2) | Some (OContinue, st2) =>
                    exec extcall (S n) (SFor None cond incr s)
                         (eval_opt extcall incr st2)
                | Some (OBreak, st2) => Some (ONormal, st2)
                | Some (OReturn r, st2) => Some (OReturn r, st2)
                | Some (OAbort, st2) => Some (OAbort, st2)
                | None => None
                end
              else Some (ONormal, st1)).
      destruct (eval extcall cond st) as [v st1].
      destruct (truth v); [|exact H].
      destruct (exec extcall n s st1) as [[o2 st2]|] eqn:E2; [|discriminate].
      rewrite (IH _ _ _ E2).
      destruct o2; try exact H; now apply IH.
Qed.

Lemma exec_fuel_le n m s (st : state W) r :
  (n <= m)%nat -> exec extcall n s st = Some r -> exec extcall m s st = Some r.
Proof.
  induction 1 as [|m Hle IH]; [trivial|]. intros H; apply exec_fuel_S; auto.
Qed.

(** ** The run-state flag *)

Lemma flag_is_declare (st : state W) :
  flag_is 0 (declare TBool _se350_loop_has_run 0 st).
Proof. reflexivity. Qed.

Lemma flag_is_eval e v (st : state W) :
  uses _se350_loop_has_run e = false ->
  flag_is v st -> flag_is v (snd (eval extcall e st)).
Proof.
  unfold flag_is; intros He Hv.
  rewrite (agree_lookup _ _ _ _ _ (eval_agree e st) He). exact Hv.
Qed.

Lemma flag_is_exec n s v (st : state W) o st' :
  free _se350_loop_has_run s = false ->
  exec extcall n s st = Some (o, st') ->
  flag_is v st -> flag_is v st'.
Proof.
  unfold flag_is; intros Hs H Hv.
  rewrite (agree_lookup _ _ _ _ _ (exec_agree _ _ _ _ _ H) Hs). exact Hv.
Qed.

Lemma flag_is_under ty x w v (st : state W) :
  x <> _se350_loop_has_run ->
  flag_is v st -> flag_is v (declare ty x w st).
Proof.
  unfold flag_is; intros Hx Hv; simpl.
  destruct (String.eqb_spec x _se350_loop_has_run); [contradiction | exact Hv].
Qed.

Lemma set_run_eq v (st : state W) :
  flag_is v st ->
  set_run st =
  mkState (update _se350_loop_has_run 1 (locals st)) (globals st) (heap st)
          (ext st) (trace st ++ [EvWrite _se350_loop_has_run v 1]).
Proof.
  unfold flag_is, set_run, assign; intros ->; reflexivity.
Qed.

Lemma flag_is_set_run v (st : state W) :
  flag_is v st -> flag_is 1 (set_run st).
Proof.
  intros Hv. rewrite (set_run_eq v st Hv). unfold flag_is in *; simpl.
  now apply lookup_update_same with (old := v).
Qed.

Lemma eval_not_flag v (st : state W) :
  flag_is v st ->
  eval extcall (ENot (EVar _se350_loop_has_run)) st =
  ((if truth v then 0 else 1), st).
Proof.
  unfold flag_is; intros Hv; simpl. unfold read. now rewrite Hv.
Qed.

Lemma eval_scope_cond before_expr v (st : state W) :
  flag_is v st ->
  eval extcall
    (ECond (EVar _se350_loop_has_run) (EConst 0) (EComma before_expr (EConst 1)))
    st =
  if truth v then (0, st) else (1, snd (eval extcall before_expr st)).
Proof.
  unfold flag_is; intros Hv; simpl. unfold read. rewrite Hv.
  destruct (truth v); [reflexivity|].
  now destruct (eval extcall before_expr st).
Qed.

Lemma eval_guard_incr after_expr (st : state W) :
  snd (eval extcall
         (EComma after_expr (EAssign _se350_loop_has_run (EConst 1))) st) =
  set_run (snd (eval extcall after_expr st)).
Proof.
  simpl. now destruct (eval extcall after_expr st).
Qed.

Lemma eval_flag_incr (st : state W) :
  snd (eval extcall (EAssign _se350_loop_has_run (EConst 1)) st) = set_run st.
Proof. reflexivity. Qed.

(** ** One [for] step at a time *)

Lemma exec_for_decl n ty x e c i b (st : state W) :
  exec extcall (S n) (SFor (Some (Decl ty x e)) c i b) st =
  let '(v, st1) := eval extcall e st in
  match exec extcall n (SFor None c i b) (declare ty x v st1) with
  | Some (o, st2) => Some (o, leave st2)
  | None => None
  end.
Proof. reflexivity. Qed.

Lemma exec_for_loop n c i b (st : state W) :
  exec extcall (S n) (SFor None c i b) st =
  let '(v, st1) := eval extcall c st in
  if truth v then
    match exec extcall n b st1 with
    | Some (ONormal, st2) | Some (OContinue, st2) =>
        exec extcall n (SFor None c i b) (eval_opt extcall i st2)
    | Some (OBreak, st2) => Some (ONormal, st2)
    | Some (OReturn r, st2) => Some (OReturn r, st2)
    | Some (OAbort, st2) => Some (OAbort, st2)
    | None => None
    end
  else Some (ONormal, st1).
Proof. reflexivity. Qed.

Lemma exec_seq n s1 s2 (st : state W) :
  exec extcall (S n) (SSeq s1 s2) st =
  match exec extcall n s1 st with
  | Some (ONormal, st1) => exec extcall n s2 st1
  | r => r
  end.
Proof. reflexivity. Qed.

Lemma exec_some_pos n s (st : state W) r :
  exec extcall n s st = Some r -> exists m, n = S m.
Proof. destruct n; [discriminate | eauto]. Qed.

(** The innermost loop of a guard, [for (; !flag; flag = 1) body], entered
    with the flag clear: the body runs once. *)
Lemma exec_inner_loop n body (st : state W) :
  free _se350_loop_has_run body = false ->
  flag_is 0 st ->
  exec extcall (S n)
       (SFor None (ENot (EVar _se350_loop_has_run))
             (Some (EAssign _se350_loop_has_run (EConst 1))) body) st =
  match exec extcall n body st with
  | Some (ONormal, st2) | Some (OContinue, st2) => Some (ONormal, set_run st2)
  | Some (OBreak, st2) => Some (ONormal, st2)
  | r => r
  end.
Proof.
  intros Hb H0. rewrite exec_for_loop, (eval_not_flag 0 st H0).
  change (truth (if truth 0 then 0 else 1)) with true. cbv iota.
  destruct (exec extcall n body st) as [[o st2]|] eqn:E; [|reflexivity].
  pose proof (flag_is_exec _ _ _ _ _ _ Hb E H0) as H2.
  destruct (exec_some_pos _ _ _ _ E) as [m ->].
  destruct o; try reflexivity;
    (unfold eval_opt; rewrite eval_flag_incr, exec_for_loop,
       (eval_not_flag 1 _ (flag_is_set_run _ _ H2)); reflexivity).
Qed.

(** *** The master equation of SE350_SCOPE *)
Lemma SE350_SCOPE_exec before_expr after_expr body n (st : state W) :
  uses _se350_loop_has_run before_expr = false ->
  uses _se350_loop_has_run after_expr = false ->
  free _se350_loop_has_run body = false ->
  exec extcall (S (S (S n))) (SE350_SCOPE before_expr after_expr body) st =
  match exec extcall n body (enter_scope extcall before_expr st) with
  | Some r =>
      let '(o, st') := guard_exit extcall after_expr r in Some (o, leave st')
  | None => None
  end.
Proof.
  intros Hb Ha Hblk. unfold SE350_SCOPE, enter_scope.
  rewrite exec_for_decl. simpl eval. cbv iota.
  rewrite exec_for_loop, (eval_scope_cond _ 0 _ (flag_is_declare st)).
  change (truth 0) with false. cbv iota. change (truth 1) with true. cbv iota.
  set (st1 := snd (eval extcall before_expr (declare TBool _se350_loop_has_run 0 st))).
  assert (H1 : flag_is 0 st1) by (apply flag_is_eval; [exact Hb | apply flag_is_declare]).
  rewrite (exec_inner_loop _ _ _ Hblk H1).
  destruct (exec extcall n body st1) as [[o st2]|] eqn:E; [|reflexivity].
  pose proof (flag_is_exec _ _ _ _ _ _ Hblk E H1) as H2.
  assert (Hlast : forall st3 : state W, flag_is 1 st3 ->
            exec extcall (S n)
              (SFor None
                 (ECond (EVar _se350_loop_has_run) (EConst 0)
                        (EComma before_expr (EConst 1)))
                 (Some (EComma after_expr (EAssign _se350_loop_has_run (EConst 1))))
                 (SFor None (ENot (EVar _se350_loop_has_run))
                       (Some (EAssign _se350_loop_has_run (EConst 1))) body))
              st3 = Some (ONormal, st3)).
  { intros st3 H3. now rewrite exec_for_loop, (eval_scope_cond _ 1 _ H3). }
  destruct o; simpl guard_exit; cbv iota; try reflexivity.
  - unfold eval_opt. rewrite eval_guard_incr, Hlast; [reflexivity|].
    eapply flag_is_set_run, flag_is_eval; [exact Ha|].
    eapply flag_is_set_run; exact H2.
  - unfold eval_opt. rewrite eval_guard_incr, Hlast; [reflexivity|].
    eapply flag_is_set_run, flag_is_eval; [exact Ha|]; exact H2.
  - unfold eval_opt. rewrite eval_guard_incr, Hlast; [reflexivity|].
    eapply flag_is_set_run, flag_is_eval; [exact Ha|].
    eapply flag_is_set_run; exact H2.
Qed.

(** ** Scopes are balanced *)

Lemma shape_eval e (st : state W) :
  shape (locals (snd (eval extcall e st))) = shape (locals st).
Proof. exact (agree_shape _ _ _ _ (eval_agree e st)). Qed.

Lemma shape_exec n s (st : state W) o st' :
  exec extcall n s st = Some (o, st') ->
  shape (locals st') = shape (locals st).
Proof. intros H; exact (agree_shape _ _ _ _ (exec_agree _ _ _ _ _ H)). Qed.

Lemma shape_set_run (st : state W) :
  shape (locals (set_run st)) = shape (locals st).
Proof. exact (agree_shape _ _ _ _ (assign_locals _ _ st)). Qed.

Lemma shape_guard_exit after_expr o (st : state W) :
  shape (locals (snd (guard_exit extcall after_expr (o, st)))) =
  shape (locals st).
Proof.
  destruct o; simpl;
    now rewrite ?shape_set_run, ?shape_eval, ?shape_set_run.
Qed.

Lemma shape_leave (st : state W) :
  shape (locals (leave st)) = tl (shape (locals st)).
Proof. simpl. now destruct (locals st). Qed.

Lemma flag_is_leave x ty sh v (st : state W) :
  shape (locals st) = (x, ty) :: sh ->
  x <> _se350_loop_has_run ->
  flag_is v st -> flag_is v (leave st).
Proof.
  unfold flag_is; simpl. destruct (locals st) as [|[y [ty' w]] rho]; [discriminate|].
  simpl. intros [= -> _ _] Hx.
  destruct (String.eqb_spec x _se350_loop_has_run); [contradiction | trivial].
Qed.

Lemma exec_loop_done n i b (st : state W) :
  flag_is 1 st ->
  exec extcall (S n) (SFor None (ENot (EVar _se350_loop_has_run)) i b) st =
  Some (ONormal, st).
Proof.
  intros H1. now rewrite exec_for_loop, (eval_not_flag 1 _ H1).
Qed.

Lemma flag_is_guard_exit after_expr o (st : state W) :
  uses _se350_loop_has_run after_expr = false ->
  flag_is 0 st ->
  match o with OReturn _ | OAbort => True | _ =>
    flag_is 1 (snd (guard_exit extcall after_expr (o, st)))
  end.
Proof.
  intros Ha H0. destruct o; simpl; trivial;
    eapply flag_is_set_run, flag_is_eval; try exact Ha;
    first [exact H0 | eapply flag_is_set_run; exact H0].
Qed.

(** The middle loop of SE350_USING, after its declaration:
    [for (; !flag; ((void)(after_expr), flag = 1)) for (; !flag; flag = 1) body]. *)
Lemma exec_using_loop after_expr body n (st : state W) :
  uses _se350_loop_has_run after_expr = false ->
  free _se350_loop_has_run body = false ->
  flag_is 0 st ->
  exec extcall (S (S n))
       (SFor None (ENot (EVar _se350_loop_has_run))
          (Some (EComma after_expr (EAssign _se350_loop_has_run (EConst 1))))
          (SFor None (ENot (EVar _se350_loop_has_run))
             (Some (EAssign _se350_loop_has_run (EConst 1))) body)) st =
  match exec extcall n body st with
  | Some r => Some (guard_exit extcall after_expr r)
  | None => None
  end.
Proof.
  intros Ha Hblk H0.
  rewrite exec_for_loop, (eval_not_flag 0 _ H0).
  change (truth (if truth 0 then 0 else 1)) with true. cbv iota.
  rewrite (exec_inner_loop _ _ _ Hblk H0).
  destruct (exec extcall n body st) as [[o st3]|] eqn:E; [|reflexivity].
  pose proof (flag_is_exec _ _ _ _ _ _ Hblk E H0) as H3.
  pose proof (flag_is_guard_exit after_expr o st3 Ha H3) as Hg.
  destruct o; simpl guard_exit in *; cbv iota; try reflexivity;
    (unfold eval_opt; rewrite eval_guard_incr; simpl snd in Hg;
     now rewrite (exec_loop_done _ _ _ _ Hg)).
Qed.

(** *** The master equation of SE350_USING *)
Lemma SE350_USING_exec d after_expr body n (st : state W) :
  declared d <> _se350_loop_has_run ->
  uses _se350_loop_has_run (initialiser d) = false ->
  uses _se350_loop_has_run after_expr = false ->
  free _se350_loop_has_run body = false ->
  exec extcall (S (S (S (S (S n))))) (SE350_USING d after_expr body) st =
  match exec extcall n body (enter_using extcall d st) with
  | Some r =>
      let '(o, st') := guard_exit extcall after_expr r in
      Some (o, leave (leave st'))
  | None => None
  end.
Proof.
  destruct d as [ty x e]; simpl declared; simpl initialiser.
  intros Hx He Ha Hblk. unfold SE350_USING, enter_using.
  rewrite exec_for_decl. simpl (eval extcall (EConst 0) st). cbv iota.
  set (st0 := declare TBool _se350_loop_has_run 0 st).
  assert (H0 : flag_is 0 st0) by apply flag_is_declare.
  rewrite exec_for_loop, (eval_not_flag 0 _ H0).
  change (truth (if truth 0 then 0 else 1)) with true. cbv iota.
  rewrite exec_for_decl.
  pose proof (flag_is_eval e 0 st0 He H0) as H1.
  destruct (eval extcall e st0) as [v st1]; simpl in H1.
  set (st2 := declare ty x v st1).
  assert (H2 : flag_is 0 st2) by (apply flag_is_under; assumption).
  rewrite (exec_using_loop _ _ _ _ Ha Hblk H2).
  destruct (exec extcall n body st2) as [[o st3]|] eqn:E; [|reflexivity].
  pose proof (flag_is_exec _ _ _ _ _ _ Hblk E H2) as H3.
  pose proof (shape_exec _ _ _ _ _ E) as S3.
  pose proof (flag_is_guard_exit after_expr o st3 Ha H3) as Hg.
  pose proof (shape_guard_exit after_expr o st3) as Sg.
  destruct (guard_exit extcall after_expr (o, st3)) as [o' st5] eqn:G.
  simpl snd in *.
  assert (Ho : match o with OReturn _ | OAbort => o' = o | _ => o' = ONormal end).
  { destruct o; simpl in G; now injection G. }
  destruct o; subst o'; try reflexivity;
    (unfold eval_opt; rewrite exec_loop_done; [reflexivity|];
     eapply flag_is_leave; [rewrite Sg, S3; reflexivity | exact Hx | exact Hg]).
Qed.

(** ** The trace only grows *)

Lemma since_app (st st' : state W) t :
  trace st' = trace st ++ t -> since st st' = t.
Proof.
  unfold since; intros ->.
  rewrite skipn_app, skipn_all, Nat.sub_diag. reflexivity.
Qed.

Lemma assign_trace x v (st : state W) :
  exists ev, trace (snd (assign x v st)) = trace st ++ [ev].
Proof.
  unfold assign. destruct (lookup x (locals st)) as [[ty old]|]; simpl; eauto.
Qed.

Lemma eval_extends e :
  forall st : state W, exists t, trace (snd (eval extcall e st)) = trace st ++ t.
Proof.
  induction e using expr_induction; intros st.
  - exists []; simpl; now rewrite app_nil_r.
  - exists []; simpl; now rewrite app_nil_r.
  - simpl. destruct (IHe st) as [t1 H1].
    destruct (eval extcall e st) as [v st1]; simpl in H1.
    destruct (assign_trace x v st1) as [ev Hev].
    exists (t1 ++ [ev]). now rewrite Hev, H1, app_assoc.
  - simpl. destruct (IHe st) as [t1 H1].
    destruct (eval extcall e st) as [v st1]; simpl in *. eauto.
  - simpl. destruct (IHe1 st) as [t1 H1].
    destruct (eval extcall e1 st) as [a st1]; simpl in H1.
    destruct (IHe2 st1) as [t2 H2].
    destruct (eval extcall e2 st1) as [v st2]; simpl in *.
    exists (t1 ++ t2 ++ [EvStore a v]). now rewrite H2, H1, !app_assoc.
  - simpl. destruct (IHe st) as [t1 H1].
    destruct (eval extcall e st) as [v st1]; simpl in *. eauto.
  - simpl. destruct (IHe1 st) as [t1 H1].
    destruct (eval extcall e1 st) as [a st1]; simpl in H1.
    destruct (IHe2 st1) as [t2 H2].
    destruct (eval extcall e2 st1) as [v st2]; simpl in *.
    exists (t1 ++ t2). now rewrite H2, H1, app_assoc.
  - simpl. destruct (IHe1 st) as [t1 H1].
    destruct (eval extcall e1 st) as [v st1]; simpl in H1.
    destruct (truth v).
    + destruct (IHe2 st1) as [t2 H2]. exists (t1 ++ t2). now rewrite H2, H1, app_assoc.
    + destruct (IHe3 st1) as [t2 H2]. exists (t1 ++ t2). now rewrite H2, H1, app_assoc.
  - simpl. destruct (IHe1 st) as [t1 H1].
    destruct (eval extcall e1 st) as [v st1]; simpl in H1.
    destruct (IHe2 st1) as [t2 H2]. exists (t1 ++ t2). now rewrite H2, H1, app_assoc.
  - rewrite eval_call.
    assert (Hargs : forall st : state W, exists t,
               trace (snd (eval_args extcall args st)) = trace st ++ t).
    { clear st. induction H as [|e args He Hall IH]; intros st; simpl.
      - exists []; now rewrite app_nil_r.
      - destruct (He st) as [t1 H1].
        destruct (eval extcall e st) as [v st1]; simpl in H1.
        destruct (IH st1) as [t2 H2].
        destruct (eval_args extcall args st1) as [vs st2]; simpl in *.
        exists (t1 ++ t2). now rewrite H2, H1, app_assoc. }
    destruct (Hargs st) as [t1 H1].
    destruct (eval_args extcall args st) as [vs st1]; simpl in H1.
    unfold call. destruct (extcall f vs (ext st1)) as [r w]; simpl.
    exists (t1 ++ [EvCall f vs r]). now rewrite H1, app_assoc.
Qed.

Lemma eval_trace e (st : state W) :
  trace (snd (eval extcall e st)) =
  trace st ++ since st (snd (eval extcall e st)).
Proof.
  destruct (eval_extends e st) as [t Ht]. now rewrite (since_app _ _ _ Ht).
Qed.

Lemma eval_opt_extends i (st : state W) :
  exists t, trace (eval_opt extcall i st) = trace st ++ t.
Proof.
  destruct i as [e|]; simpl; [apply eval_extends|].
  exists []; now rewrite app_nil_r.
Qed.

Lemma ends_with_app o t1 t2 : ends_with o t2 -> ends_with o (t1 ++ t2).
Proof.
  destruct o; simpl; trivial; intros [t' ->]; exists (t1 ++ t');
    now rewrite app_assoc.
Qed.

Lemma exec_extends n :
  forall s (st : state W) o st',
    exec extcall n s st = Some (o, st') ->
    exists t, trace st' = trace st ++ t /\ ends_with o t.
Proof.
  induction n as [|n IH]; intros s st o st' H; [discriminate|].
  destruct s; simpl in H.
  - injection H as <- <-. exists []; now rewrite app_nil_r.
  - injection H as <- <-. destruct (eval_extends e st) as [t Ht]. now exists t.
  - destruct (eval_extends e st) as [t Ht].
    destruct (eval extcall e st) as [v st1]; simpl in Ht.
    destruct (truth v); injection H as <- <-; now exists t.
  - destruct (exec extcall n s1 st) as [[o1 st1]|] eqn:E1; [|discriminate].
    destruct (IH _ _ _ _ E1) as (t1 & H1 & L1).
    destruct o1; try (injection H as <- <-; now exists t1).
    destruct (IH _ _ _ _ H) as (t2 & H2 & L2).
    exists (t1 ++ t2). split; [now rewrite H2, H1, app_assoc | now apply ends_with_app].
  - destruct (eval_extends c st) as [t1 H1].
    destruct (eval extcall c st) as [v st1]; simpl in H1.
    destruct (truth v); destruct (IH _ _ _ _ H) as (t2 & H2 & L2);
      (exists (t1 ++ t2); split;
       [now rewrite H2, H1, app_assoc | now apply ends_with_app]).
  - destruct d as [ty y e].
    destruct (eval_extends e st) as [t1 H1].
    destruct (eval extcall e st) as [v st1]; simpl in H1.
    destruct (exec extcall n s (declare ty y v st1)) as [[o2 st2]|] eqn:E2;
      [|discriminate].
    injection H as <- <-. destruct (IH _ _ _ _ E2) as (t2 & H2 & L2).
    simpl in H2. exists (t1 ++ [EvDecl y (convert ty v)] ++ t2). split.
    + simpl trace. now rewrite H2, H1, !app_assoc.
    + rewrite app_assoc. now apply ends_with_app.
  - destruct init as [[ty y e]|].
    + destruct (eval_extends e st) as [t1 H1].
      destruct (eval extcall e st) as [v st1]; simpl in H1.
      destruct (exec extcall n (SFor None cond incr s) (declare ty y v st1))
        as [[o2 st2]|] eqn:E2; [|discriminate].
      injection H as <- <-. destruct (IH _ _ _ _ E2) as (t2 & H2 & L2).
      simpl in H2. exists (t1 ++ [EvDecl y (convert ty v)] ++ t2). split.
      * simpl trace. now rewrite H2, H1, !app_assoc.
      * rewrite app_assoc. now apply ends_with_app.
    + destruct (eval_extends cond st) as [t1 H1].
      destruct (eval extcall cond st) as [v st1]; simpl in H1.
      destruct (truth v); [|injection H as <- <-; now exists t1].
      destruct (exec extcall n s st1) as [[o2 st2]|] eqn:E2; [|discriminate].
      destruct (IH _ _ _ _ E2) as (t2 & H2 & L2).
      destruct (eval_opt_extends incr st2) as [t3 H3].
      destruct o2.
      * destruct (IH _ _ _ _ H) as (t4 & H4 & L4).
        exists (t1 ++ t2 ++ t3 ++ t4). split.
        -- now rewrite H4, H3, H2, H1, !app_assoc.
        -- rewrite !app_assoc. now apply ends_with_app.
      * injection H as <- <-. exists (t1 ++ t2). split; [|exact I].
        now rewrite H2, H1, app_assoc.
      * destruct (IH _ _ _ _ H) as (t4 & H4 & L4).
        exists (t1 ++ t2 ++ t3 ++ t4). split.
        -- now rewrite H4, H3, H2, H1, !app_assoc.
        -- rewrite !app_assoc. now apply ends_with_app.
      * injection H as <- <-. exists (t1 ++ t2). split.
        -- now rewrite H2, H1, app_assoc.
        -- now apply ends_with_app.
      * injection H as <- <-. exists (t1 ++ t2). split; [|exact I].
        now rewrite H2, H1, app_assoc.
  - injection H as <- <-. exists [EvBreak]. split; [reflexivity | now exists []].
  - injection H as <- <-. exists [EvContinue]. split; [reflexivity | now exists []].
  - destruct e as [e|].
    + destruct (eval_extends e st) as [t1 H1].
      destruct (eval extcall e st) as [v st1]; simpl in H1.
      injection H as <- <-. exists (t1 ++ [EvReturn (Some v)]). split.
      * simpl. now rewrite H1, app_assoc.
      * now exists t1.
    + injection H as <- <-. exists [EvReturn None]. split; [reflexivity | now exists []].
Qed.

Lemma exec_trace n s (st : state W) o st' :
  exec extcall n s st = Some (o, st') ->
  trace st' = trace st ++ since st st'.
Proof.
  intros H. destruct (exec_extends _ _ _ _ _ H) as (t & Ht & _).
  now rewrite (since_app _ _ _ Ht).
Qed.

Lemma exec_ends n s (st : state W) o st' :
  exec extcall n s st = Some (o, st') -> ends_with o (since st st').
Proof.
  intros H. destruct (exec_extends _ _ _ _ _ H) as (t & Ht & L).
  now rewrite (since_app _ _ _ Ht).
Qed.

Lemma exec_deterministic n m s (st : state W) r r' :
  exec extcall n s st = Some r -> exec extcall m s st = Some r' -> r = r'.
Proof.
  intros Hn Hm.
  apply (exec_fuel_le n (Nat.max n m)) in Hn; [|lia].
  apply (exec_fuel_le m (Nat.max n m)) in Hm; [|lia].
  congruence.
Qed.

(** ** Traces of the guards' own steps *)

Lemma trace_set_run v (st : state W) :
  flag_is v st ->
  trace (set_run st) = trace st ++ [EvWrite _se350_loop_has_run v 1].
Proof. intros Hv. now rewrite (set_run_eq v st Hv). Qed.

Lemma trace_leave (st : state W) : trace (leave st) = trace st.
Proof. reflexivity. Qed.

Lemma trace_declare ty x v (st : state W) :
  trace (declare ty x v st) = trace st ++ [EvDecl x (convert ty v)].
Proof. reflexivity. Qed.

Lemma trace_enter_scope before_expr (st : state W) :
  trace (enter_scope extcall before_expr st) =
  trace st ++ [EvDecl _se350_loop_has_run 0]
    ++ since (declare TBool _se350_loop_has_run 0 st)
             (enter_scope extcall before_expr st).
Proof.
  unfold enter_scope. rewrite eval_trace at 1. rewrite trace_declare.
  now rewrite <- app_assoc.
Qed.

Lemma flag_is_enter_scope before_expr (st : state W) :
  uses _se350_loop_has_run before_expr = false ->
  flag_is 0 (enter_scope extcall before_expr st).
Proof.
  intros Hb. apply flag_is_eval; [exact Hb | apply flag_is_declare].
Qed.

(** ** The three guards at once *)

Lemma enter_using_eq ty x e (st : state W) :
  enter_using extcall (Decl ty x e) st =
  declare ty x
    (fst (eval extcall e (declare TBool _se350_loop_has_run 0 st)))
    (snd (eval extcall e (declare TBool _se350_loop_has_run 0 st))).
Proof.
  unfold enter_using.
  now destruct (eval extcall e (declare TBool _se350_loop_has_run 0 st)).
Qed.

Lemma guard_exec g body n (st : state W) :
  hygienic g = true ->
  free _se350_loop_has_run body = false ->
  exec extcall (depth g + n) (expand g body) st =
  match exec extcall n body (enter extcall g st) with
  | Some r =>
      let '(o, st') := guard_exit extcall (after_of g) r in
      Some (o, close g st')
  | None => None
  end.
Proof.
  intros Hg Hblk.
  destruct g as [b a|a|d a]; simpl hygienic in Hg;
    cbn [expand depth enter after_of close Nat.add].
  - apply andb_prop in Hg as [Hb Ha].
    apply negb_true_iff in Hb, Ha.
    now apply SE350_SCOPE_exec.
  - apply negb_true_iff in Hg.
    unfold SE350_SCOPE_EXIT. now apply SE350_SCOPE_exec.
  - apply andb_prop in Hg as [Hg Ha]. apply andb_prop in Hg as [Hx He].
    apply negb_true_iff in Hx, He, Ha.
    apply SE350_USING_exec; trivial.
    now apply String.eqb_neq.
Qed.

Lemma hygienic_after g :
  hygienic g = true -> uses _se350_loop_has_run (after_of g) = false.
Proof.
  destruct g as [b a|a|d a]; simpl; intros Hg.
  - apply andb_prop in Hg as [_ Ha]. now apply negb_true_iff.
  - now apply negb_true_iff.
  - apply andb_prop in Hg as [_ Ha]. now apply negb_true_iff.
Qed.

Lemma flag_is_enter g (st : state W) :
  hygienic g = true -> flag_is 0 (enter extcall g st).
Proof.
  destruct g as [b a|a|[ty x e] a]; simpl; intros Hg.
  - apply andb_prop in Hg as [Hb _]. apply negb_true_iff in Hb.
    now apply flag_is_enter_scope.
  - now apply flag_is_enter_scope.
  - apply andb_prop in Hg as [Hg _]. apply andb_prop in Hg as [Hx He].
    apply negb_true_iff in Hx, He. apply String.eqb_neq in Hx.
    pose proof (flag_is_eval e 0 (declare TBool _se350_loop_has_run 0 st) He
                  (flag_is_declare st)) as H1.
    destruct (eval extcall e (declare TBool _se350_loop_has_run 0 st)) as [v st1].
    now apply flag_is_under.
Qed.

Lemma enter_extends g (st : state W) :
  exists t, trace (enter extcall g st) =
            trace st ++ EvDecl _se350_loop_has_run 0 :: t.
Proof.
  destruct g as [b a|a|[ty x e] a]; cbn [enter]; unfold enter_scope, enter_using.
  - destruct (eval_extends b (declare TBool _se350_loop_has_run 0 st)) as [t Ht].
    exists t. rewrite Ht, trace_declare. now rewrite <- app_assoc.
  - exists []. reflexivity.
  - destruct (eval_extends e (declare TBool _se350_loop_has_run 0 st)) as [t Ht].
    destruct (eval extcall e (declare TBool _se350_loop_has_run 0 st)) as [v st1].
    cbn [snd] in Ht. exists (t ++ [EvDecl x (convert ty v)]).
    rewrite trace_declare, Ht, trace_declare. now rewrite <- !app_assoc.
Qed.

Lemma trace_enter g (st : state W) :
  trace (enter extcall g st) = trace st ++ since st (enter extcall g st).
Proof.
  destruct (enter_extends g st) as [t Ht]. now rewrite (since_app _ _ _ Ht).
Qed.

Lemma trace_close g (st : state W) : trace (close g st) = trace st.
Proof. now destruct g. Qed.

Lemma guard_run g body n (st : state W) o st2 :
  hygienic g = true ->
  free _se350_loop_has_run body = false ->
  exec extcall n body (enter extcall g st) = Some (o, st2) ->
  let r := guard_exit extcall (after_of g) (o, st2) in
  exec extcall (depth g + n) (expand g body) st = Some (fst r, close g (snd r))
  /\ (forall m r',
         exec extcall m (expand g body) st = Some r' ->
         r' = (fst r, close g (snd r))).
Proof.
  intros Hg Hblk E r.
  assert (Hrun : exec extcall (depth g + n) (expand g body) st
                 = Some (fst r, close g (snd r))).
  { rewrite (guard_exec _ _ _ _ Hg Hblk), E. subst r.
    now destruct (guard_exit extcall (after_of g) (o, st2)). }
  split; [exact Hrun|].
  intros m r' Hm. symmetry. eapply exec_deterministic; eassumption.
Qed.

Lemma trace_guard_exit after_expr o (st2 : state W) :
  uses _se350_loop_has_run after_expr = false ->
  flag_is 0 st2 ->
  trace (snd (guard_exit extcall after_expr (o, st2))) =
  trace st2 ++
  match o with
  | ONormal | OContinue =>
      [EvWrite _se350_loop_has_run 0 1]
        ++ since (set_run st2) (snd (eval extcall after_expr (set_run st2)))
        ++ [EvWrite _se350_loop_has_run 1 1]
  | OBreak =>
      since st2 (snd (eval extcall after_expr st2))
        ++ [EvWrite _se350_loop_has_run 0 1]
  | OReturn _ | OAbort => []
  end.
Proof.
  intros Ha H2.
  pose proof (flag_is_set_run _ _ H2) as H2'.
  destruct o; cbn [guard_exit snd].
  - rewrite (trace_set_run 1), eval_trace, (trace_set_run 0 _ H2).
    + now rewrite <- !app_assoc.
    + now apply flag_is_eval.
  - rewrite (trace_set_run 0), eval_trace.
    + now rewrite <- !app_assoc.
    + now apply flag_is_eval.
  - rewrite (trace_set_run 1), eval_trace, (trace_set_run 0 _ H2).
    + now rewrite <- !app_assoc.
    + now apply flag_is_eval.
  - now rewrite app_nil_r.
  - now rewrite app_nil_r.
Qed.

(** ** The caller's text cannot tell the flag *)

Lemma agree_update_both f seen x v rho rho' :
  agree f seen rho rho' ->
  agree f seen (update x v rho) (update x v rho').
Proof.
  induction 1 as [|seen y ty w w' rho rho' Hw Hag IH]; simpl.
  - constructor.
  - destruct (String.eqb y x).
    + constructor; [now left | exact Hag].
    + constructor; [exact Hw | exact IH].
Qed.

Lemma agree_seen_eq f seen rho rho' :
  agree f seen rho rho' ->
  (forall y, f y = true -> In y seen) ->
  rho' = rho.
Proof.
  induction 1 as [|seen y ty w w' rho rho' Hw Hag IH]; intros Hf.
  - reflexivity.
  - destruct Hw as [->|[Hy Hn]]; [|exfalso; apply Hn; now apply Hf].
    f_equal. apply IH. intros z Hz. right. now apply Hf.
Qed.

Lemma unflagged_app t1 t2 : unflagged (t1 ++ t2) = unflagged t1 ++ unflagged t2.
Proof. apply filter_app. Qed.

Lemma same_but_flag_refl (st : state W) : same_but_flag st st.
Proof. repeat split; trivial. apply agree_refl. Qed.

Lemma same_but_flag_set_run v (st st' : state W) :
  flag_is v st' ->
  same_but_flag st st' -> same_but_flag st (set_run st').
Proof.
  intros Hv (Hg & Hh & He & Hl & Ht). rewrite (set_run_eq v st' Hv).
  repeat split; cbn [globals heap ext locals trace]; trivial.
  - eapply agree_trans; [exact Hl|].
    apply agree_update; [apply String.eqb_refl | intros []].
  - rewrite unflagged_app, Ht. cbn. apply app_nil_r.
Qed.

Lemma same_but_flag_sym_set_run v (st st' : state W) :
  flag_is v st ->
  same_but_flag st st' -> same_but_flag (set_run st) st'.
Proof.
  intros Hv (Hg & Hh & He & Hl & Ht). rewrite (set_run_eq v st Hv).
  repeat split; cbn [globals heap ext locals trace]; trivial.
  - clear Hv Ht. remember (locals st) as rho. clear Heqrho.
    remember (@nil ident) as seen. assert (Hn : ~ In _se350_loop_has_run seen)
      by (subst seen; intros []). clear Heqseen.
    induction Hl as [|seen y ty w w' rho rho' Hw Hag IH]; simpl.
    + constructor.
    + destruct (String.eqb_spec y _se350_loop_has_run) as [->|Hy].
      * constructor; [|exact Hag]. right. split; [apply String.eqb_refl | exact Hn].
      * constructor;
          [destruct Hw as [->|[Hf _]]; [now left | discriminate]|].
        apply IH. intros [E|Hin]; [now apply Hy | now apply Hn].
  - rewrite unflagged_app, Ht. cbn. now rewrite app_nil_r.
Qed.

Lemma assign_same_but_flag x v (st st' : state W) :
  String.eqb x _se350_loop_has_run = false ->
  same_but_flag st st' ->
  fst (assign x v st') = fst (assign x v st)
  /\ same_but_flag (snd (assign x v st)) (snd (assign x v st')).
Proof.
  intros Hx (Hg & Hh & He & Hl & Ht).
  pose proof (agree_lookup _ _ _ _ x Hl Hx) as Lx.
  unfold assign. rewrite Lx.
  destruct (lookup x (locals st)) as [[ty old]|]; cbn [fst snd].
  - split; [reflexivity|].
    repeat split; cbn [globals heap ext locals trace]; trivial.
    + now apply agree_update_both.
    + now rewrite !unflagged_app, Ht.
  - split; [reflexivity|].
    repeat split; cbn [globals heap ext locals trace]; trivial.
    + now rewrite Hg.
    + now rewrite !unflagged_app, Ht, Hg.
Qed.

(** An expression that does not name the flag has the same value and the
    same effects in two states that differ in the flag only. *)
Lemma eval_same_but_flag e :
  uses _se350_loop_has_run e = false ->
  forall st st' : state W,
    same_but_flag st st' ->
    fst (eval extcall e st') = fst (eval extcall e st)
    /\ same_but_flag (snd (eval extcall e st)) (snd (eval extcall e st')).
Proof.
  induction e using expr_induction; intros Hu st st' R; cbn [uses] in Hu.
  - now split.
  - split; [|exact R]. cbn [eval fst]. unfold read.
    destruct R as (Hg & _ & _ & Hl & _).
    now rewrite (agree_lookup _ _ _ _ x Hl Hu), Hg.
  - apply orb_false_elim in Hu as [Hx Hu].
    cbn [eval]. destruct (IHe Hu st st' R) as [Hv R1].
    destruct (eval extcall e st) as [v st1], (eval extcall e st') as [v' st1'].
    cbn [fst snd] in Hv, R1. subst v'. now apply assign_same_but_flag.
  - cbn [eval]. destruct (IHe Hu st st' R) as [Hv R1].
    destruct (eval extcall e st) as [v st1], (eval extcall e st') as [v' st1'].
    cbn [fst snd] in *. subst v'. split; [|exact R1].
    destruct R1 as (_ & Hh & _). now rewrite Hh.
  - apply orb_false_elim in Hu as [Hu1 Hu2].
    cbn [eval]. destruct (IHe1 Hu1 st st' R) as [Ha R1].
    destruct (eval extcall e1 st) as [a st1], (eval extcall e1 st') as [a' st1'].
    cbn [fst snd] in Ha, R1. subst a'.
    destruct (IHe2 Hu2 st1 st1' R1) as [Hv R2].
    destruct (eval extcall e2 st1) as [v st2], (eval extcall e2 st1') as [v' st2'].
    cbn [fst snd] in *. subst v'. split; [reflexivity|].
    destruct R2 as (Hg & Hh & He & Hl & Ht).
    repeat split; cbn [globals heap ext locals trace store]; trivial.
    + now rewrite Hh.
    + now rewrite !unflagged_app, Ht.
  - cbn [eval]. destruct (IHe Hu st st' R) as [Hv R1].
    destruct (eval extcall e st) as [v st1], (eval extcall e st') as [v' st1'].
    cbn [fst snd] in *. now subst v'.
  - apply orb_false_elim in Hu as [Hu1 Hu2].
    cbn [eval]. destruct (IHe1 Hu1 st st' R) as [Ha R1].
    destruct (eval extcall e1 st) as [a st1], (eval extcall e1 st') as [a' st1'].
    cbn [fst snd] in Ha, R1. subst a'.
    destruct (IHe2 Hu2 st1 st1' R1) as [Hv R2].
    destruct (eval extcall e2 st1) as [v st2], (eval extcall e2 st1') as [v' st2'].
    cbn [fst snd] in *. now subst v'.
  - apply orb_false_elim in Hu as [Hu Hu3].
    apply orb_false_elim in Hu as [Hu1 Hu2].
    cbn [eval]. destruct (IHe1 Hu1 st st' R) as [Hv R1].
    destruct (eval extcall e1 st) as [v st1], (eval extcall e1 st') as [v' st1'].
    cbn [fst snd] in Hv, R1. subst v'.
    destruct (truth v); [now apply IHe2 | now apply IHe3].
  - apply orb_false_elim in Hu as [Hu1 Hu2].
    cbn [eval]. destruct (IHe1 Hu1 st st' R) as [Hv R1].
    destruct (eval extcall e1 st) as [v st1], (eval extcall e1 st') as [v' st1'].
    cbn [fst snd] in Hv, R1. now apply IHe2.
  - rewrite !eval_call.
    assert (Hargs : forall st st' : state W,
               same_but_flag st st' ->
               fst (eval_args extcall args st') = fst (eval_args extcall args st)
               /\ same_but_flag (snd (eval_args extcall args st))
                                (snd (eval_args extcall args st'))).
    { clear st st' R.
      induction H as [|e args He Hall IH]; intros st st' R; cbn [eval_args].
      - now split.
      - cbn [existsb] in Hu. apply orb_false_elim in Hu as [Hu1 Hu2].
        destruct (He Hu1 st st' R) as [Hv R1].
        destruct (eval extcall e st) as [v st1],
                 (eval extcall e st') as [v' st1'].
        cbn [fst snd] in Hv, R1. subst v'.
        destruct (IH Hu2 st1 st1' R1) as [Hvs R2].
        destruct (eval_args extcall args st1) as [vs st2],
                 (eval_args extcall args st1') as [vs' st2'].
        cbn [fst snd] in *. now subst vs'. }
    destruct (Hargs st st' R) as [Hvs R1].
    destruct (eval_args extcall args st) as [vs st1],
             (eval_args extcall args st') as [vs' st1'].
    cbn [fst snd] in Hvs, R1. subst vs'.
    destruct R1 as (Hg & Hh & He & Hl & Ht).
    unfold call. rewrite He.
    destruct (extcall f vs (ext st1)) as [r w]. cbn [fst snd].
    split; [reflexivity|].
    repeat split; cbn [globals heap ext locals trace]; trivial.
    now rewrite !unflagged_app, Ht.
Qed.

(** Once the guard's scopes are closed, the flag is out of sight. *)
Lemma close_same_outside g (st s s' : state W) :
  hygienic g = true ->
  shape (locals s) = shape (locals (enter extcall g st)) ->
  same_but_flag s s' ->
  same_outside (close g s) (close g s').
Proof.
  intros Hg Hs (Hgl & Hh & He & Hl & Ht).
  unfold same_outside.
  assert (Hloc : locals (close g s') = locals (close g s)).
  { destruct g as [b a|a|[ty x e] a]; cbn [close leave locals enter] in *.
    - unfold enter_scope in Hs. rewrite shape_eval in Hs. cbn in Hs.
      destruct (locals s) as [|[y [ty v]] rho]; [discriminate|].
      injection Hs as -> -> _.
      inversion Hl as [|? ? ? ? ? ? ? Hv Hrest]; subst. cbn [tl].
      apply (agree_seen_eq _ _ _ _ Hrest). intros y Hy.
      apply String.eqb_eq in Hy. now left.
    - unfold enter_scope in Hs. rewrite shape_eval in Hs. cbn in Hs.
      destruct (locals s) as [|[y [ty v]] rho]; [discriminate|].
      injection Hs as -> -> _.
      inversion Hl as [|? ? ? ? ? ? ? Hv Hrest]; subst. cbn [tl].
      apply (agree_seen_eq _ _ _ _ Hrest). intros y Hy.
      apply String.eqb_eq in Hy. now left.
    - rewrite enter_using_eq in Hs. cbn [declare locals shape map fst snd] in Hs.
      rewrite shape_eval in Hs. cbn in Hs.
      destruct (locals s) as [|[y [ty1 v]] [|[y2 [ty2 v2]] rho]]; try discriminate.
      injection Hs as -> -> -> -> _.
      inversion Hl as [|? ? ? ? ? ? ? Hv Hrest]; subst.
      inversion Hrest as [|? ? ? ? ? ? ? Hv2 Hrest2]; subst. cbn [tl].
      apply (agree_seen_eq _ _ _ _ Hrest2). intros y Hy.
      apply String.eqb_eq in Hy. now left. }
  split; [exact Hloc|].
  destruct g; cbn [close leave globals heap ext trace]; auto.
Qed.

(** Leaving a block by the escape and falling out of it at the same
    point come to the same, but for the order of the flag's events. *)
Lemma escape_like_fall_through g (st st2 : state W) :
  hygienic g = true ->
  flag_is 0 st2 ->
  shape (locals st2) = shape (locals (enter extcall g st)) ->
  same_outside
    (close g (snd (guard_exit extcall (after_of g) (ONormal, st2))))
    (close g (snd (guard_exit extcall (after_of g) (OBreak, st2)))).
Proof.
  intros Hg F2 S2. pose proof (hygienic_after g Hg) as Ha.
  cbn [guard_exit snd].
  apply close_same_outside with (st := st); [exact Hg | |].
  - now rewrite shape_set_run, shape_eval, shape_set_run.
  - pose proof (flag_is_set_run _ _ F2) as F2'.
    assert (R0 : same_but_flag (set_run st2) st2).
    { eapply same_but_flag_sym_set_run; [exact F2 | apply same_but_flag_refl]. }
    destruct (eval_same_but_flag (after_of g) Ha _ _ R0) as [_ R1].
    eapply same_but_flag_set_run; [apply flag_is_eval; eassumption|].
    eapply same_but_flag_sym_set_run; [apply flag_is_eval; eassumption|].
    exact R1.
Qed.

(** ** Erasing the flag *)

Lemma lookup_drop_at x k rho b :
  nth_error rho k = Some (_se350_loop_has_run, b) ->
  x <> _se350_loop_has_run \/ In x (map fst (firstn k rho)) ->
  lookup x (drop_at k rho) = lookup x rho.
Proof.
  revert k; induction rho as [|[y c] rho IH]; intros k Hk Hx.
  - destruct k; discriminate.
  - destruct k as [|k]; cbn [drop_at lookup].
    + injection Hk as -> _.
      destruct Hx as [Hx|[]].
      destruct (String.eqb_spec _se350_loop_has_run x); [congruence | reflexivity].
    + cbn [nth_error] in Hk. cbn [firstn map fst In] in Hx.
      destruct (String.eqb_spec y x) as [_|Hyx]; [reflexivity|].
      apply IH; [exact Hk|].
      destruct Hx as [Hx|[Hx|Hx]]; [now left | contradiction | now right].
Qed.

Lemma update_drop_at x v k rho b :
  nth_error rho k = Some (_se350_loop_has_run, b) ->
  x <> _se350_loop_has_run \/ In x (map fst (firstn k rho)) ->
  drop_at k (update x v rho) = update x v (drop_at k rho)
  /\ nth_error (update x v rho) k = Some (_se350_loop_has_run, b).
Proof.
  revert k; induction rho as [|[y [ty w]] rho IH]; intros k Hk Hx.
  - destruct k; discriminate.
  - destruct k as [|k]; cbn [drop_at update].
    + injection Hk as -> <-.
      destruct Hx as [Hx|[]].
      destruct (String.eqb_spec _se350_loop_has_run x); [congruence|].
      now split.
    + cbn [nth_error] in Hk. cbn [firstn map fst In] in Hx.
      destruct (String.eqb_spec y x) as [_|Hyx]; cbn [drop_at update nth_error].
      * now split.
      * destruct (IH k Hk) as [Hd Hn].
        { destruct Hx as [Hx|[Hx|Hx]]; [now left | contradiction | now right]. }
        destruct (String.eqb_spec y x); [contradiction|].
        split; [now rewrite Hd | exact Hn].
Qed.

Lemma update_at_flag k rho ty v w :
  nth_error rho k = Some (_se350_loop_has_run, (ty, v)) ->
  ~ In _se350_loop_has_run (map fst (firstn k rho)) ->
  drop_at k (update _se350_loop_has_run w rho) = drop_at k rho
  /\ nth_error (update _se350_loop_has_run w rho) k
     = Some (_se350_loop_has_run, (ty, w)).
Proof.
  revert k; induction rho as [|[y [ty' u]] rho IH]; intros k Hk Hn.
  - destruct k; discriminate.
  - destruct k as [|k]; cbn [drop_at update].
    + injection Hk as -> -> ->. rewrite String.eqb_refl. now split.
    + cbn [nth_error] in Hk. cbn [firstn map fst In] in Hn.
      destruct (String.eqb_spec y _se350_loop_has_run) as [Hy|Hy].
      * exfalso; apply Hn; now left.
      * destruct (IH k Hk) as [Hd Hnth]; [intro; apply Hn; now right|].
        cbn [drop_at nth_error]. split; [now rewrite Hd | exact Hnth].
Qed.

Lemma names_firstn_shape k rho rho' :
  shape rho' = shape rho ->
  map fst (firstn k rho') = map fst (firstn k rho).
Proof.
  revert k rho'; induction rho as [|[y [ty v]] rho IH]; intros k rho' Hs.
  - destruct rho'; [reflexivity | discriminate].
  - destruct rho' as [|[y' [ty' v']] rho']; [discriminate|].
    cbn in Hs. injection Hs as -> -> Hs.
    destruct k; cbn; [reflexivity|]. f_equal. now apply IH.
Qed.

Lemma shadowed_shape k (st st' : state W) :
  shape (locals st') = shape (locals st) -> shadowed k st -> shadowed k st'.
Proof.
  unfold shadowed. intros Hs. now rewrite (names_firstn_shape k _ _ Hs).
Qed.

Lemma shadowed_eval k e (st : state W) :
  shadowed k st -> shadowed k (snd (eval extcall e st)).
Proof. apply shadowed_shape, shape_eval. Qed.

Lemma visible_cases x k (st : state W) :
  String.eqb x _se350_loop_has_run = false \/ shadowed k st ->
  x <> _se350_loop_has_run \/ In x (map fst (firstn k (locals st))).
Proof.
  intros [Hx|Hs].
  - left. now apply String.eqb_neq.
  - destruct (String.eqb_spec x _se350_loop_has_run) as [->|Hx];
      [right; exact Hs | now left].
Qed.

Lemma assign_erased k x v (stw sto : state W) :
  erased k stw sto ->
  String.eqb x _se350_loop_has_run = false \/ shadowed k stw ->
  fst (assign x v sto) = fst (assign x v stw)
  /\ erased k (snd (assign x v stw)) (snd (assign x v sto)).
Proof.
  intros ([b Hk] & Hl & Hg & Hh & He & Ht) Hc.
  apply visible_cases in Hc.
  pose proof (lookup_drop_at x k _ b Hk Hc) as Lx.
  unfold assign. rewrite Hl, Lx.
  destruct (lookup x (locals stw)) as [[ty old]|]; cbn [fst snd].
  - split; [reflexivity|].
    destruct (update_drop_at x (convert ty v) k _ b Hk Hc) as [Hd Hn].
    unfold erased; cbn [locals globals heap ext trace].
    split; [eauto|]. split; [now rewrite Hd|].
    repeat split; trivial. now rewrite !unflagged_app, Ht.
  - split; [reflexivity|].
    unfold erased; cbn [locals globals heap ext trace].
    split; [eauto|]. split; [reflexivity|].
    rewrite Hg. repeat split; trivial. now rewrite !unflagged_app, Ht.
Qed.

(** The caller's expression has the same value and effects with and
    without the flag in scope. *)
Lemma eval_erased e :
  forall k (stw sto : state W),
    erased k stw sto ->
    uses _se350_loop_has_run e = false \/ shadowed k stw ->
    fst (eval extcall e sto) = fst (eval extcall e stw)
    /\ erased k (snd (eval extcall e stw)) (snd (eval extcall e sto)).
Proof.
  induction e using expr_induction; intros k stw sto R Hc; cbn [uses] in Hc.
  - now split.
  - split; [|exact R]. cbn [eval fst]. unfold read.
    apply visible_cases in Hc.
    destruct R as ([b Hk] & Hl & Hg & _).
    now rewrite Hl, (lookup_drop_at x k _ b Hk Hc), Hg.
  - assert (Hc1 : uses _se350_loop_has_run e = false \/ shadowed k stw).
    { destruct Hc as [Hu|Hs]; [|now right].
      apply orb_false_elim in Hu as [_ Hu]. now left. }
    cbn [eval]. destruct (IHe k stw sto R Hc1) as [Hv R1].
    pose proof (shadowed_eval k e stw) as Hsh.
    destruct (eval extcall e stw) as [v stw1], (eval extcall e sto) as [v' sto1].
    cbn [fst snd] in Hv, R1, Hsh. subst v'.
    apply assign_erased; [exact R1|].
    destruct Hc as [Hu|Hs]; [|right; now apply Hsh].
    apply orb_false_elim in Hu as [Hx _]. now left.
  - cbn [eval]. destruct (IHe k stw sto R Hc) as [Hv R1].
    destruct (eval extcall e stw) as [v stw1], (eval extcall e sto) as [v' sto1].
    cbn [fst snd] in *. subst v'. split; [|exact R1].
    destruct R1 as (_ & _ & _ & Hh & _). now rewrite Hh.
  - assert (Hc1 : uses _se350_loop_has_run e1 = false \/ shadowed k stw).
    { destruct Hc as [Hu|Hs]; [|now right].
      apply orb_false_elim in Hu as [Hu _]. now left. }
    cbn [eval]. destruct (IHe1 k stw sto R Hc1) as [Ha R1].
    pose proof (shadowed_eval k e1 stw) as Hsh.
    destruct (eval extcall e1 stw) as [a stw1], (eval extcall e1 sto) as [a' sto1].
    cbn [fst snd] in Ha, R1, Hsh. subst a'.
    assert (Hc2 : uses _se350_loop_has_run e2 = false \/ shadowed k stw1).
    { destruct Hc as [Hu|Hs]; [|right; now apply Hsh].
      apply orb_false_elim in Hu as [_ Hu]. now left. }
    destruct (IHe2 k stw1 sto1 R1 Hc2) as [Hv R2].
    destruct (eval extcall e2 stw1) as [v stw2], (eval extcall e2 sto1) as [v' sto2].
    cbn [fst snd] in *. subst v'. split; [reflexivity|].
    destruct R2 as (Hk & Hl & Hg & Hh & He & Ht).
    unfold erased; cbn [locals globals heap ext trace store].
    repeat split; trivial; [now rewrite Hh | now rewrite !unflagged_app, Ht].
  - cbn [eval]. destruct (IHe k stw sto R Hc) as [Hv R1].
    destruct (eval extcall e stw) as [v stw1], (eval extcall e sto) as [v' sto1].
    cbn [fst snd] in *. now subst v'.
  - assert (Hc1 : uses _se350_loop_has_run e1 = false \/ shadowed k stw).
    { destruct Hc as [Hu|Hs]; [|now right].
      apply orb_false_elim in Hu as [Hu _]. now left. }
    cbn [eval]. destruct (IHe1 k stw sto R Hc1) as [Ha R1].
    pose proof (shadowed_eval k e1 stw) as Hsh.
    destruct (eval extcall e1 stw) as [a stw1], (eval extcall e1 sto) as [a' sto1].
    cbn [fst snd] in Ha, R1, Hsh. subst a'.
    assert (Hc2 : uses _se350_loop_has_run e2 = false \/ shadowed k stw1).
    { destruct Hc as [Hu|Hs]; [|right; now apply Hsh].
      apply orb_false_elim in Hu as [_ Hu]. now left. }
    destruct (IHe2 k stw1 sto1 R1 Hc2) as [Hv R2].
    destruct (eval extcall e2 stw1) as [v stw2], (eval extcall e2 sto1) as [v' sto2].
    cbn [fst snd] in *. now subst v'.
  - assert (Hc1 : uses _se350_loop_has_run e1 = false \/ shadowed k stw).
    { destruct Hc as [Hu|Hs]; [|now right].
      apply orb_false_elim in Hu as [Hu _].
      apply orb_false_elim in Hu as [Hu _]. now left. }
    cbn [eval]. destruct (IHe1 k stw sto R Hc1) as [Hv R1].
    pose proof (shadowed_eval k e1 stw) as Hsh.
    destruct (eval extcall e1 stw) as [v stw1], (eval extcall e1 sto) as [v' sto1].
    cbn [fst snd] in Hv, R1, Hsh. subst v'.
    destruct (truth v).
    + apply IHe2; [exact R1|].
      destruct Hc as [Hu|Hs]; [|right; now apply Hsh].
      apply orb_false_elim in Hu as [Hu _].
      apply orb_false_elim in Hu as [_ Hu]. now left.
    + apply IHe3; [exact R1|].
      destruct Hc as [Hu|Hs]; [|right; now apply Hsh].
      apply orb_false_elim in Hu as [_ Hu]. now left.
  - assert (Hc1 : uses _se350_loop_has_run e1 = false \/ shadowed k stw).
    { destruct Hc as [Hu|Hs]; [|now right].
      apply orb_false_elim in Hu as [Hu _]. now left. }
    cbn [eval]. destruct (IHe1 k stw sto R Hc1) as [Hv R1].
    pose proof (shadowed_eval k e1 stw) as Hsh.
    destruct (eval extcall e1 stw) as [v stw1], (eval extcall e1 sto) as [v' sto1].
    cbn [fst snd] in Hv, R1, Hsh.
    apply IHe2; [exact R1|].
    destruct Hc as [Hu|Hs]; [|right; now apply Hsh].
    apply orb_false_elim in Hu as [_ Hu]. now left.
  - rewrite !eval_call.
    assert (Hargs : forall stw sto : state W,
               erased k stw sto ->
               existsb (uses _se350_loop_has_run) args = false \/ shadowed k stw ->
               fst (eval_args extcall args sto) = fst (eval_args extcall args stw)
               /\ erased k (snd (eval_args extcall args stw))
                         (snd (eval_args extcall args sto))).
    { clear stw sto R Hc.
      induction H as [|e args He Hall IH]; intros stw sto R Hc; cbn [eval_args].
      - now split.
      - cbn [existsb] in Hc.
        assert (Hc1 : uses _se350_loop_has_run e = false \/ shadowed k stw).
        { destruct Hc as [Hu|Hs]; [|now right].
          apply orb_false_elim in Hu as [Hu _]. now left. }
        destruct (He k stw sto R Hc1) as [Hv R1].
        pose proof (shadowed_eval k e stw) as Hsh.
        destruct (eval extcall e stw) as [v stw1],
                 (eval extcall e sto) as [v' sto1].
        cbn [fst snd] in Hv, R1, Hsh. subst v'.
        assert (Hc2 : existsb (uses _se350_loop_has_run) args = false
                      \/ shadowed k stw1).
        { destruct Hc as [Hu|Hs]; [|right; now apply Hsh].
          apply orb_false_elim in Hu as [_ Hu]. now left. }
        destruct (IH stw1 sto1 R1 Hc2) as [Hvs R2].
        destruct (eval_args extcall args stw1) as [vs stw2],
                 (eval_args extcall args sto1) as [vs' sto2].
        cbn [fst snd] in *. now subst vs'. }
    destruct (Hargs stw sto R Hc) as [Hvs R1].
    destruct (eval_args extcall args stw) as [vs stw1],
             (eval_args extcall args sto) as [vs' sto1].
    cbn [fst snd] in Hvs, R1. subst vs'.
    destruct R1 as (Hk & Hl & Hg & Hh & He & Ht).
    unfold call. rewrite He.
    destruct (extcall f vs (ext stw1)) as [r w]. cbn [fst snd].
    split; [reflexivity|].
    unfold erased; cbn [locals globals heap ext trace].
    repeat split; trivial. now rewrite !unflagged_app, Ht.
Qed.

Lemma eval_opt_erased i k (stw sto : state W) :
  erased k stw sto ->
  uses_opt _se350_loop_has_run i = false \/ shadowed k stw ->
  erased k (eval_opt extcall i stw) (eval_opt extcall i sto).
Proof.
  destruct i as [e|]; cbn [eval_opt uses_opt]; intros R Hc; [|exact R].
  now apply eval_erased.
Qed.

Lemma erased_log ev k (stw sto : state W) :
  erased k stw sto -> erased k (log ev stw) (log ev sto).
Proof.
  intros (Hk & Hl & Hg & Hh & He & Ht).
  unfold erased; cbn [log locals globals heap ext trace].
  repeat split; trivial. now rewrite !unflagged_app, Ht.
Qed.

Lemma erased_declare ty y v k (stw sto : state W) :
  erased k stw sto ->
  erased (S k) (declare ty y v stw) (declare ty y v sto).
Proof.
  intros (Hk & Hl & Hg & Hh & He & Ht).
  unfold erased; cbn [declare locals globals heap ext trace nth_error drop_at].
  repeat split; trivial; [now rewrite Hl | now rewrite !unflagged_app, Ht].
Qed.

Lemma erased_leave k (stw sto : state W) :
  erased (S k) stw sto -> erased k (leave stw) (leave sto).
Proof.
  intros ([b Hk] & Hl & Hg & Hh & He & Ht).
  unfold erased; cbn [leave locals globals heap ext trace].
  destruct (locals stw) as [|c rho]; [discriminate|].
  cbn [nth_error drop_at tl] in *. rewrite Hl. cbn [tl].
  repeat split; trivial. eauto.
Qed.

Lemma shadowed_declare ty y v k (st : state W) :
  y = _se350_loop_has_run \/ shadowed k st ->
  shadowed (S k) (declare ty y v st).
Proof.
  unfold shadowed; cbn [declare locals firstn map fst In].
  intros [->|H]; [now left | now right].
Qed.

(** The caller's statement runs the same way with and without the flag in
    scope. *)
Lemma exec_erased n :
  forall s k (stw sto : state W) o stw',
    erased k stw sto ->
    free _se350_loop_has_run s = false \/ shadowed k stw ->
    exec extcall n s stw = Some (o, stw') ->
    exists sto', exec extcall n s sto = Some (o, sto') /\ erased k stw' sto'.
Proof.
  induction n as [|n IH]; intros s k stw sto o stw' R Hc H; [discriminate|].
  destruct s; cbn [exec] in H |- *; cbn [free] in Hc.
  - injection H as <- <-. eauto.
  - injection H as <- <-. eexists; split; [reflexivity|].
    now apply eval_erased.
  - destruct (eval_erased e k stw sto R Hc) as [Hv R1].
    destruct (eval extcall e stw) as [v stw1], (eval extcall e sto) as [v' sto1].
    cbn [fst snd] in Hv, R1. subst v'.
    destruct (truth v); injection H as <- <-; eauto.
  - destruct (exec extcall n s1 stw) as [[o1 stw1]|] eqn:E1; [|discriminate].
    assert (Hc1 : free _se350_loop_has_run s1 = false \/ shadowed k stw).
    { destruct Hc as [Hu|Hs]; [|now right].
      apply orb_false_elim in Hu as [Hu _]. now left. }
    destruct (IH _ _ _ _ _ _ R Hc1 E1) as (sto1 & E1' & R1).
    rewrite E1'.
    destruct o1; try (injection H as <- <-; eauto).
    apply (IH _ _ _ _ _ _ R1); [|exact H].
    destruct Hc as [Hu|Hs];
      [|right; eapply shadowed_shape; [eapply shape_exec; exact E1 | exact Hs]].
    apply orb_false_elim in Hu as [_ Hu]. now left.
  - assert (Hc1 : uses _se350_loop_has_run c = false \/ shadowed k stw).
    { destruct Hc as [Hu|Hs]; [|now right].
      apply orb_false_elim in Hu as [Hu _].
      apply orb_false_elim in Hu as [Hu _]. now left. }
    destruct (eval_erased c k stw sto R Hc1) as [Hv R1].
    pose proof (shadowed_eval k c stw) as Hsh.
    destruct (eval extcall c stw) as [v stw1], (eval extcall c sto) as [v' sto1].
    cbn [fst snd] in Hv, R1, Hsh. subst v'.
    destruct (truth v); apply (IH _ _ _ _ _ _ R1); try exact H.
    + destruct Hc as [Hu|Hs]; [|right; now apply Hsh].
      apply orb_false_elim in Hu as [Hu _].
      apply orb_false_elim in Hu as [_ Hu]. now left.
    + destruct Hc as [Hu|Hs]; [|right; now apply Hsh].
      apply orb_false_elim in Hu as [_ Hu]. now left.
  - destruct d as [ty y e]. cbn [free] in Hc.
    assert (Hc1 : uses _se350_loop_has_run e = false \/ shadowed k stw).
    { destruct Hc as [Hu|Hs]; [|now right].
      apply orb_false_elim in Hu as [Hu _]. now left. }
    destruct (eval_erased e k stw sto R Hc1) as [Hv R1].
    pose proof (shadowed_eval k e stw) as Hsh.
    destruct (eval extcall e stw) as [v stw1], (eval extcall e sto) as [v' sto1].
    cbn [fst snd] in Hv, R1, Hsh. subst v'.
    destruct (exec extcall n s (declare ty y v stw1)) as [[o2 stw2]|] eqn:E2;
      [|discriminate].
    injection H as <- <-.
    assert (Hc2 : free _se350_loop_has_run s = false
                  \/ shadowed (S k) (declare ty y v stw1)).
    { destruct Hc as [Hu|Hs];
        [|right; apply shadowed_declare; right; now apply Hsh].
      apply orb_false_elim in Hu as [_ Hu].
      destruct (String.eqb_spec y _se350_loop_has_run) as [->|Hy];
        [right; apply shadowed_declare; now left | left; exact Hu]. }
    destruct (IH _ _ _ _ _ _ (erased_declare ty y v k _ _ R1) Hc2 E2)
      as (sto2 & E2' & R2).
    rewrite E2'. eexists; split; [reflexivity|]. now apply erased_leave.
  - destruct init as [[ty y e]|]; cbn [free] in Hc.
    + assert (Hc1 : uses _se350_loop_has_run e = false \/ shadowed k stw).
      { destruct Hc as [Hu|Hs]; [|now right].
        apply orb_false_elim in Hu as [Hu _]. now left. }
      destruct (eval_erased e k stw sto R Hc1) as [Hv R1].
      pose proof (shadowed_eval k e stw) as Hsh.
      destruct (eval extcall e stw) as [v stw1], (eval extcall e sto) as [v' sto1].
      cbn [fst snd] in Hv, R1, Hsh. subst v'.
      destruct (exec extcall n (SFor None cond incr s) (declare ty y v stw1))
        as [[o2 stw2]|] eqn:E2; [|discriminate].
      injection H as <- <-.
      assert (Hc2 : free _se350_loop_has_run (SFor None cond incr s) = false
                    \/ shadowed (S k) (declare ty y v stw1)).
      { destruct Hc as [Hu|Hs];
          [|right; apply shadowed_declare; right; now apply Hsh].
        apply orb_false_elim in Hu as [_ Hu].
        destruct (String.eqb_spec y _se350_loop_has_run) as [->|Hy];
          [right; apply shadowed_declare; now left | left; exact Hu]. }
      destruct (IH _ _ _ _ _ _ (erased_declare ty y v k _ _ R1) Hc2 E2)
        as (sto2 & E2' & R2).
      rewrite E2'. eexists; split; [reflexivity|]. now apply erased_leave.
    + assert (Hc1 : uses _se350_loop_has_run cond = false \/ shadowed k stw).
      { destruct Hc as [Hu|Hs]; [|now right].
        apply orb_false_elim in Hu as [Hu _].
        apply orb_false_elim in Hu as [Hu _]. now left. }
      destruct (eval_erased cond k stw sto R Hc1) as [Hv R1].
      pose proof (shadowed_eval k cond stw) as Hsh.
      destruct (eval extcall cond stw) as [v stw1],
               (eval extcall cond sto) as [v' sto1].
      cbn [fst snd] in Hv, R1, Hsh. subst v'.
      destruct (truth v); [|injection H as <- <-; eauto].
      destruct (exec extcall n s stw1) as [[o2 stw2]|] eqn:E2; [|discriminate].
      assert (Hc2 : free _se350_loop_has_run s = false \/ shadowed k stw1).
      { destruct Hc as [Hu|Hs]; [|right; now apply Hsh].
        apply orb_false_elim in Hu as [_ Hu]. now left. }
      destruct (IH _ _ _ _ _ _ R1 Hc2 E2) as (sto2 & E2' & R2).
      rewrite E2'.
      assert (Hsh2 : shadowed k stw -> shadowed k stw2).
      { intros Hs. eapply shadowed_shape; [eapply shape_exec; exact E2|].
        now apply Hsh. }
      assert (Hc3 : uses_opt _se350_loop_has_run incr = false \/ shadowed k stw2).
      { destruct Hc as [Hu|Hs]; [|right; now apply Hsh2].
        apply orb_false_elim in Hu as [Hu _].
        apply orb_false_elim in Hu as [_ Hu]. now left. }
      pose proof (eval_opt_erased incr k stw2 sto2 R2 Hc3) as R3.
      assert (Hc4 : free _se350_loop_has_run (SFor None cond incr s) = false
                    \/ shadowed k (eval_opt extcall incr stw2)).
      { destruct Hc as [Hu|Hs]; [now left|]. right.
        eapply shadowed_shape; [|apply Hsh2, Hs].
        destruct incr; cbn [eval_opt]; [apply shape_eval | reflexivity]. }
      destruct o2; try (injection H as <- <-; eauto);
        exact (IH _ _ _ _ _ _ R3 Hc4 H).
  - injection H as <- <-. eexists; split; [reflexivity|]. now apply erased_log.
  - injection H as <- <-. eexists; split; [reflexivity|]. now apply erased_log.
  - destruct e as [e|]; cbn [free] in Hc.
    + destruct (eval_erased e k stw sto R Hc) as [Hv R1].
      destruct (eval extcall e stw) as [v stw1], (eval extcall e sto) as [v' sto1].
      cbn [fst snd] in Hv, R1. subst v'.
      injection H as <- <-. eexists; split; [reflexivity|]. now apply erased_log.
    + injection H as <- <-. eexists; split; [reflexivity|]. now apply erased_log.
Qed.

Lemma lookup_nth x k rho b :
  nth_error rho k = Some (x, b) ->
  ~ In x (map fst (firstn k rho)) ->
  lookup x rho = Some b.
Proof.
  revert k; induction rho as [|[y c] rho IH]; intros k Hk Hn.
  - destruct k; discriminate.
  - destruct k as [|k]; cbn [nth_error lookup] in *.
    + injection Hk as -> ->. now rewrite String.eqb_refl.
    + cbn [firstn map fst In] in Hn.
      destruct (String.eqb_spec y x) as [->|_]; [exfalso; apply Hn; now left|].
      apply (IH k Hk). intro; apply Hn; now right.
Qed.

Lemma erased_set_run k (stw sto : state W) :
  erased k stw sto -> ~ shadowed k stw -> erased k (set_run stw) sto.
Proof.
  intros ([[ty v] Hk] & Hl & Hg & Hh & He & Ht) Hn.
  pose proof (lookup_nth _ _ _ _ Hk Hn) as Lf.
  unfold set_run, assign. rewrite Lf. cbn [snd].
  destruct (update_at_flag k _ ty v (convert ty 1) Hk Hn) as [Hd Hnth].
  unfold erased; cbn [locals globals heap ext trace].
  split; [eauto|]. split; [now rewrite Hd|].
  repeat split; trivial.
  rewrite unflagged_app, Ht. cbn. now rewrite app_nil_r.
Qed.

Lemma erased_enter g (st : state W) :
  hygienic g = true ->
  erased (flag_depth g) (enter extcall g st) (caller_enter extcall g st).
Proof.
  intros Hg.
  assert (R0 : erased 0 (declare TBool _se350_loop_has_run 0 st) st).
  { unfold erased; cbn [declare locals globals heap ext trace nth_error drop_at].
    repeat split; trivial; [eauto|].
    rewrite unflagged_app. cbn. now rewrite app_nil_r. }
  destruct g as [b a|a|[ty x e] a];
    cbn [flag_depth enter caller_enter hygienic] in *.
  - apply andb_prop in Hg as [Hb _]. apply negb_true_iff in Hb.
    unfold enter_scope. apply eval_erased; [exact R0 | now left].
  - exact R0.
  - apply andb_prop in Hg as [Hg _]. apply andb_prop in Hg as [_ He].
    apply negb_true_iff in He. cbn [initialiser] in He.
    rewrite enter_using_eq.
    destruct (eval_erased e 0 _ _ R0 (or_introl He)) as [Hv R1].
    rewrite Hv. now apply erased_declare.
Qed.

Lemma not_shadowed g (st s : state W) :
  hygienic g = true ->
  shape (locals s) = shape (locals (enter extcall g st)) ->
  ~ shadowed (flag_depth g) s.
Proof.
  intros Hg Hs. unfold shadowed.
  rewrite (names_firstn_shape _ _ _ Hs).
  destruct g as [b a|a|[ty x e] a]; cbn [flag_depth firstn map]; try (intros []).
  cbn [enter]. rewrite enter_using_eq. cbn [declare locals firstn map fst].
  apply andb_prop in Hg as [Hg _]. apply andb_prop in Hg as [Hx _].
  apply negb_true_iff in Hx. cbn [declared] in Hx.
  apply String.eqb_neq in Hx. intros [E|[]]. now apply Hx.
Qed.

Lemma erased_close g (stw sto : state W) :
  erased (flag_depth g) stw sto ->
  same_outside (caller_close g sto) (close g stw).
Proof.
  intros ([b Hk] & Hl & Hg & Hh & He & Ht). unfold same_outside.
  destruct g as [b' a|a|d a];
    cbn [flag_depth caller_close close leave locals globals heap ext trace] in *.
  - destruct (locals stw) as [|c rho]; [discriminate|].
    cbn [drop_at tl] in *. now rewrite Hl.
  - destruct (locals stw) as [|c rho]; [discriminate|].
    cbn [drop_at tl] in *. now rewrite Hl.
  - destruct (locals stw) as [|c [|c' rho]]; try discriminate.
    cbn [drop_at tl] in *. rewrite Hl. now cbn [tl].
Qed.

(** A guard does what the caller's parts do without any guard, but for
    flag events: the entry, the block, and [after_expr] unless the block
    left the function. *)
Lemma guard_erasure g body n (st : state W) ob st2 :
  hygienic g = true ->
  free _se350_loop_has_run body = false ->
  exec extcall n body (enter extcall g st) = Some (ob, st2) ->
  exists sto2,
    exec extcall n body (caller_enter extcall g st) = Some (ob, sto2)
    /\ same_outside
         (caller_close g
            (if leaves_function ob then sto2
             else snd (eval extcall (after_of g) sto2)))
         (close g (snd (guard_exit extcall (after_of g) (ob, st2)))).
Proof.
  intros Hg Hblk E. pose proof (hygienic_after g Hg) as Ha.
  destruct (exec_erased _ _ _ _ _ _ _ (erased_enter g st Hg) (or_introl Hblk) E)
    as (sto2 & E' & R2).
  pose proof (shape_exec _ _ _ _ _ E) as S2.
  exists sto2. split; [exact E'|].
  assert (Hset : forall s s' : state W, erased (flag_depth g) s s' ->
                              shape (locals s) = shape (locals st2) ->
                              erased (flag_depth g) (set_run s) s').
  { intros s s' R Hs. apply erased_set_run; [exact R|].
    apply (not_shadowed g st); [exact Hg | now rewrite Hs]. }
  destruct ob; cbn [leaves_function guard_exit fst snd]; apply erased_close.
  - apply Hset.
    + apply eval_erased; [|now left]. now apply Hset.
    + now rewrite shape_eval, shape_set_run.
  - apply Hset.
    + apply eval_erased; [exact R2 | now left].
    + now rewrite shape_eval.
  - apply Hset.
    + apply eval_erased; [|now left]. now apply Hset.
    + now rewrite shape_eval, shape_set_run.
  - exact R2.
  - exact R2.
Qed.

(** The same in one equation. *)
Lemma guard_is_caller_run g body n (st : state W) ob st2 :
  hygienic g = true ->
  free _se350_loop_has_run body = false ->
  exec extcall n body (enter extcall g st) = Some (ob, st2) ->
  exists plain,
    caller_run extcall g body n st
    = Some (fst (guard_exit extcall (after_of g) (ob, st2)), plain)
    /\ same_outside plain
         (close g (snd (guard_exit extcall (after_of g) (ob, st2)))).
Proof.
  intros Hg Hblk E.
  destruct (guard_erasure _ _ _ _ _ _ Hg Hblk E) as (sto2 & E' & Hs).
  unfold caller_run. rewrite E'.
  destruct ob; cbn [leaves_function guard_exit fst] in *; eauto.
Qed.

(** ** Fall-through *)

(** C1.  SE350_SCOPE(before, after) around a block that runs to its end,
    the caller's text not naming the flag: the flag is declared,
    [before_expr] is evaluated once, then the block runs once, then
    [after_expr] is evaluated once, and the statement completes normally.
    The trace of the whole statement is the declaration of the flag, the
    events of [before_expr], the events of the block, the flag going from
    0 to 1, the events of [after_expr], and the flag being set again; the
    statement has no other result, whatever the fuel.  The final state is
    that of [{ before_expr; block; after_expr; }] run without any guard,
    but for the flag events in the trace. *)
Theorem scope_guard_fall_through
    (before_expr after_expr : expr) (body : stmt) (n : nat) (st st2 : state W) :
  uses _se350_loop_has_run before_expr = false ->
  uses _se350_loop_has_run after_expr = false ->
  free _se350_loop_has_run body = false ->
  exec extcall n body (enter_scope extcall before_expr st) = Some (ONormal, st2) ->
  let st0 := declare TBool _se350_loop_has_run 0 st in
  let st1 := enter_scope extcall before_expr st in
  let st3 := snd (eval extcall after_expr (set_run st2)) in
  let final := leave (set_run st3) in
  exec extcall (S (S (S n))) (SE350_SCOPE before_expr after_expr body) st
    = Some (ONormal, final)
  /\ (forall m r,
         exec extcall m (SE350_SCOPE before_expr after_expr body) st = Some r ->
         r = (ONormal, final))
  /\ trace final =
       trace st ++ [EvDecl _se350_loop_has_run 0]
         ++ since st0 st1
         ++ since st1 st2
         ++ [EvWrite _se350_loop_has_run 0 1]
         ++ since (set_run st2) st3
         ++ [EvWrite _se350_loop_has_run 1 1]
  /\ (exists plain,
         exec extcall (S (S n))
              (SSeq (SExpr before_expr) (SSeq body (SExpr after_expr))) st
         = Some (ONormal, plain)
         /\ same_outside plain final).
Proof.
  intros Hb Ha Hblk E st0 st1 st3 final.
  assert (Hrun : exec extcall (S (S (S n)))
                   (SE350_SCOPE before_expr after_expr body) st
                 = Some (ONormal, final)).
  { rewrite (SE350_SCOPE_exec _ _ _ _ _ Hb Ha Hblk), E. reflexivity. }
  split; [exact Hrun|]. split; [|split].
  - intros m r Hm. symmetry. eapply exec_deterministic; eassumption.
  - pose proof (flag_is_enter_scope _ st Hb) as H1.
    pose proof (flag_is_exec _ _ _ _ _ _ Hblk E H1) as H2.
    pose proof (flag_is_set_run _ _ H2) as H2'.
    pose proof (flag_is_eval after_expr _ _ Ha H2') as H3.
    subst final st3 st1 st0.
    rewrite trace_leave, (trace_set_run 1 _ H3), eval_trace.
    rewrite (trace_set_run 0 _ H2), (exec_trace _ _ _ _ _ E).
    rewrite trace_enter_scope.
    now rewrite <- !app_assoc.
  - assert (Hg : hygienic (Scope before_expr after_expr) = true)
      by (cbn [hygienic]; now rewrite Hb, Ha).
    destruct (guard_erasure (Scope before_expr after_expr) body n st ONormal st2
                Hg Hblk E) as (sto2 & E' & Hs).
    cbn [caller_enter caller_close leaves_function after_of close guard_exit snd]
      in E', Hs.
    exists (snd (eval extcall after_expr sto2)). split; [|exact Hs].
    rewrite exec_seq.
    change (exec extcall (S n) (SExpr before_expr) st)
      with (Some (ONormal, snd (eval extcall before_expr st))).
    cbv iota. rewrite exec_seq, E'.
    destruct (exec_some_pos _ _ _ _ E') as [m ->]. reflexivity.
Qed.

(** ** Early exit *)

(** What follows the escape in a block is not executed. *)
Lemma escape_cuts_block pre post n (st st1 : state W) :
  exec extcall n pre st = Some (ONormal, st1) ->
  exec extcall (S (S n)) (SSeq pre (SSeq SE350_SCOPE_BREAK post)) st
  = Some (OBreak, log EvBreak st1).
Proof.
  intros E. rewrite exec_seq, (exec_fuel_S _ _ _ _ E), exec_seq.
  destruct (exec_some_pos _ _ _ _ E) as [m ->]. reflexivity.
Qed.

(** C2, amended.  A guarded block whose run ends at a SE350_SCOPE_BREAK
    that leaves the block (outcome [OBreak]: the [break] is not inside a
    loop nested in the block), the caller's text not naming the flag: the
    block's last event is that [break], so nothing of the block runs after
    it; then [after_expr] is evaluated once, the flag is set, and the
    guard completes normally, for each of the three macros.  The final
    state is the one the guard reaches when its block falls through at
    the point of the escape, but for the order of the flag's events. *)
Theorem scope_break_leaves_block
    (g : guard) (body : stmt) (n : nat) (st st2 : state W) :
  hygienic g = true ->
  free _se350_loop_has_run body = false ->
  exec extcall n body (enter extcall g st) = Some (OBreak, st2) ->
  let st1 := enter extcall g st in
  let st3 := snd (eval extcall (after_of g) st2) in
  let final := close g (set_run st3) in
  exec extcall (depth g + n) (expand g body) st = Some (ONormal, final)
  /\ (forall m r, exec extcall m (expand g body) st = Some r ->
                  r = (ONormal, final))
  /\ (exists t, since st1 st2 = t ++ [EvBreak])
  /\ trace final =
       trace st ++ since st st1 ++ since st1 st2
         ++ since st2 st3 ++ [EvWrite _se350_loop_has_run 0 1]
  /\ same_outside
       (close g (set_run (snd (eval extcall (after_of g) (set_run st2)))))
       final.
Proof.
  intros Hg Hblk E st1 st3 final.
  destruct (guard_run _ _ _ _ _ _ Hg Hblk E) as [Hrun Huniq].
  pose proof (flag_is_exec _ _ _ _ _ _ Hblk E (flag_is_enter g st Hg)) as H2.
  split; [exact Hrun|]. split; [exact Huniq|]. split; [|split].
  - exact (exec_ends _ _ _ _ _ E).
  - pose proof (trace_guard_exit _ OBreak st2 (hygienic_after g Hg) H2) as Ht.
    subst final st3 st1. rewrite trace_close.
    cbn [guard_exit snd] in Ht. rewrite Ht.
    rewrite (exec_trace _ _ _ _ _ E), trace_enter.
    now rewrite <- !app_assoc.
  - exact (escape_like_fall_through g st st2 Hg H2 (shape_exec _ _ _ _ _ E)).
Qed.

(** C9.  [continue] directly in the guarded block (outcome [OContinue]),
    the caller's text not naming the flag: the block's last event is that
    [continue]; the block is not run again; the flag goes from 0 to 1,
    [after_expr] is evaluated once, and the guard completes normally, for
    each of the three macros.  The final state is the one SE350_SCOPE_BREAK
    at the same point leads to, but for the order of the flag's events. *)
Theorem continue_leaves_block
    (g : guard) (body : stmt) (n : nat) (st st2 : state W) :
  hygienic g = true ->
  free _se350_loop_has_run body = false ->
  exec extcall n body (enter extcall g st) = Some (OContinue, st2) ->
  let st1 := enter extcall g st in
  let st3 := snd (eval extcall (after_of g) (set_run st2)) in
  let final := close g (set_run st3) in
  exec extcall (depth g + n) (expand g body) st = Some (ONormal, final)
  /\ (forall m r, exec extcall m (expand g body) st = Some r ->
                  r = (ONormal, final))
  /\ (exists t, since st1 st2 = t ++ [EvContinue])
  /\ trace final =
       trace st ++ since st st1 ++ since st1 st2
         ++ [EvWrite _se350_loop_has_run 0 1]
         ++ since (set_run st2) st3
         ++ [EvWrite _se350_loop_has_run 1 1]
  /\ same_outside final
       (close g (set_run (snd (eval extcall (after_of g) st2)))).
Proof.
  intros Hg Hblk E st1 st3 final.
  destruct (guard_run _ _ _ _ _ _ Hg Hblk E) as [Hrun Huniq].
  pose proof (flag_is_exec _ _ _ _ _ _ Hblk E (flag_is_enter g st Hg)) as H2.
  split; [exact Hrun|]. split; [exact Huniq|]. split; [|split].
  - exact (exec_ends _ _ _ _ _ E).
  - pose proof (trace_guard_exit _ OContinue st2 (hygienic_after g Hg) H2) as Ht.
    subst final st3 st1. rewrite trace_close.
    cbn [guard_exit snd] in Ht. rewrite Ht.
    rewrite (exec_trace _ _ _ _ _ E), trace_enter.
    now rewrite <- !app_assoc.
  - exact (escape_like_fall_through g st st2 Hg H2 (shape_exec _ _ _ _ _ E)).
Qed.

(** ** Function return *)

(** C3.  A guarded block that ends in [return] (outcome [OReturn v]),
    the caller's text not naming the flag: the guard returns with the same
    value from the state of the [return] statement, only the guard's
    scopes being closed.  The trace is that of the entry (flag,
    [before_expr] or declaration) and of the block up to the [return];
    [after_expr] is not evaluated and the flag is still 0.  This holds for
    each of the three macros. *)
Theorem function_return_skips_after
    (g : guard) (body : stmt) (n : nat) (st st2 : state W) (v : option Z) :
  hygienic g = true ->
  free _se350_loop_has_run body = false ->
  exec extcall n body (enter extcall g st) = Some (OReturn v, st2) ->
  let st1 := enter extcall g st in
  exec extcall (depth g + n) (expand g body) st = Some (OReturn v, close g st2)
  /\ (forall m r, exec extcall m (expand g body) st = Some r ->
                  r = (OReturn v, close g st2))
  /\ (exists t, since st1 st2 = t ++ [EvReturn v])
  /\ flag_is 0 st2
  /\ trace (close g st2) = trace st ++ since st st1 ++ since st1 st2.
Proof.
  intros Hg Hblk E st1.
  destruct (guard_run _ _ _ _ _ _ Hg Hblk E) as [Hrun Huniq].
  split; [exact Hrun|]. split; [exact Huniq|]. split; [|split].
  - exact (exec_ends _ _ _ _ _ E).
  - exact (flag_is_exec _ _ _ _ _ _ Hblk E (flag_is_enter g st Hg)).
  - subst st1. rewrite trace_close, (exec_trace _ _ _ _ _ E), trace_enter.
    now rewrite <- !app_assoc.
Qed.

(** ** SE350_SCOPE_EXIT *)

Lemma exec_for_cond_ext c c' i b :
  (forall st : state W, eval extcall c st = eval extcall c' st) ->
  forall n (st : state W),
    exec extcall n (SFor None c i b) st = exec extcall n (SFor None c' i b) st.
Proof.
  intros Hc. induction n as [|n IH]; intros st; [reflexivity|].
  rewrite !exec_for_loop, Hc.
  destruct (eval extcall c' st) as [v st1].
  destruct (truth v); [|reflexivity].
  destruct (exec extcall n b st1) as [[[] st2]|]; try reflexivity; apply IH.
Qed.

(** C7.  SE350_SCOPE_EXIT(after) around a block and SE350_SCOPE(nop, after)
    around the same block, for any expression [nop] whose evaluation leaves
    the state (trace included) as it is, have the same result from every
    state and with every fuel: the same outcome, the same final state, the
    same trace, and the one does not terminate when the other does not. *)
Theorem scope_exit_is_scope_with_noop
    (nop after_expr : expr) (body : stmt) (n : nat) (st : state W) :
  (forall st' : state W, snd (eval extcall nop st') = st') ->
  exec extcall n (SE350_SCOPE_EXIT after_expr body) st
  = exec extcall n (SE350_SCOPE nop after_expr body) st.
Proof.
  intros Hnop. unfold SE350_SCOPE_EXIT, SE350_SCOPE.
  destruct n as [|n]; [reflexivity|].
  rewrite !exec_for_decl. cbn [eval].
  rewrite (exec_for_cond_ext
             (ECond (EVar _se350_loop_has_run) (EConst 0)
                    (EComma (EConst 0) (EConst 1)))
             (ECond (EVar _se350_loop_has_run) (EConst 0)
                    (EComma nop (EConst 1)))); [reflexivity|].
  intros st'. cbn [eval].
  destruct (truth (read _se350_loop_has_run st')); [reflexivity|].
  specialize (Hnop st'). destruct (eval extcall nop st') as [v st'']. 
  cbn [snd] in Hnop. now subst.
Qed.

(** ** Reading and writing an [int] *)

Lemma lookup_update_other x y v rho :
  x <> y -> lookup x (update y v rho) = lookup x rho.
Proof.
  intros Hxy. induction rho as [|[z [ty w]] rho IH]; simpl; [reflexivity|].
  destruct (String.eqb_spec z y) as [->|Hzy]; simpl.
  - destruct (String.eqb_spec y x); [congruence | reflexivity].
  - destruct (String.eqb_spec z x); [reflexivity | exact IH].
Qed.

Lemma read_assign x v (st : state W) :
  int_object x st -> read x (snd (assign x v st)) = v.
Proof.
  unfold int_object, read, assign.
  destruct (lookup x (locals st)) as [[ty old]|] eqn:L; simpl.
  - intros Hty. rewrite (lookup_update_same _ _ _ _ _ L).
    destruct ty; [contradiction | reflexivity | reflexivity].
  - intros _. rewrite L. now rewrite String.eqb_refl.
Qed.

Lemma read_assign_other x y v (st : state W) :
  x <> y -> read x (snd (assign y v st)) = read x st.
Proof.
  intros Hxy. unfold read, assign.
  destruct (lookup y (locals st)) as [[ty old]|] eqn:L; simpl.
  - now rewrite lookup_update_other.
  - destruct (lookup x (locals st)) as [[ty w]|]; [reflexivity|].
    destruct (String.eqb_spec x y); [contradiction | reflexivity].
Qed.

Lemma int_object_assign x y v (st : state W) :
  int_object x st -> int_object x (snd (assign y v st)).
Proof.
  unfold int_object. intros H.
  assert (Hs : forall z u rho,
             match lookup x (update z u rho) with
             | Some (ty, _) => ty <> TBool | None => True end <->
             match lookup x rho with
             | Some (ty, _) => ty <> TBool | None => True end).
  { intros z u rho. induction rho as [|[k [ty w]] rho IH]; simpl; [tauto|].
    destruct (String.eqb_spec k z) as [->|Hkz]; simpl.
    - destruct (String.eqb z x); tauto.
    - destruct (String.eqb k x); [tauto | exact IH]. }
  unfold assign. destruct (lookup y (locals st)) as [[ty old]|]; simpl.
  - now apply Hs.
  - exact H.
Qed.

Lemma int_object_declare_other x y ty v (st : state W) :
  x <> y -> int_object x st -> int_object x (declare ty y v st).
Proof.
  intros Hxy. unfold int_object; simpl.
  destruct (String.eqb_spec y x); [congruence | trivial].
Qed.

Lemma read_leave x y ty sh (st : state W) :
  shape (locals st) = (y, ty) :: sh -> x <> y ->
  read x (leave st) = read x st.
Proof.
  unfold read; simpl. destruct (locals st) as [|[z [ty' w]] rho]; [discriminate|].
  simpl. intros [= -> _ _] Hxy.
  destruct (String.eqb_spec y x); [congruence | reflexivity].
Qed.

(** ** The scenario with x *)

(** C8.  [SE350_SCOPE(x = 1, x = 2) { assert(x == 1); }] for an [int]
    object [x]: the statement completes normally, so the assertion in the
    block held; [x] is 1 when the block is entered and 2 once the
    statement is left, so that [assert(x == 2)] after it holds too. *)
Theorem set_x_scenario_holds (st : state W) :
  int_object "x" st ->
  exists final,
    exec extcall 5 set_x_scenario st = Some (ONormal, final)
    /\ read "x" (enter_scope extcall (EAssign "x" (EConst 1)) st) = 1
    /\ read "x" final = 2
    /\ exec extcall 6 (SSeq set_x_scenario set_x_check) st
       = Some (ONormal, final).
Proof.
  intros Hx.
  assert (Hne : "x" <> _se350_loop_has_run) by discriminate.
  set (st1 := enter_scope extcall (EAssign "x" (EConst 1)) st).
  assert (H1 : read "x" st1 = 1).
  { subst st1; unfold enter_scope; cbn [eval].
    apply read_assign. now apply int_object_declare_other. }
  assert (O1 : int_object "x" st1).
  { subst st1; unfold enter_scope; cbn [eval].
    apply int_object_assign. now apply int_object_declare_other. }
  assert (E : exec extcall 2 (SAssert (EBinop Oeq (EVar "x") (EConst 1))) st1
              = Some (ONormal, st1)).
  { cbn [exec eval]. rewrite H1. reflexivity. }
  assert (Hrun : exec extcall 5 set_x_scenario st
                 = Some (ONormal,
                         leave (set_run (snd (eval extcall (EAssign "x" (EConst 2))
                                                (set_run st1)))))).
  { unfold set_x_scenario.
    rewrite (SE350_SCOPE_exec (EAssign "x" (EConst 1)) (EAssign "x" (EConst 2))
               (SAssert (EBinop Oeq (EVar "x") (EConst 1))) 2 st
               eq_refl eq_refl eq_refl).
    fold st1. rewrite E. reflexivity. }
  set (st3 := snd (eval extcall (EAssign "x" (EConst 2)) (set_run st1))) in *.
  assert (H3 : read "x" st3 = 2).
  { subst st3; cbn [eval]. apply read_assign.
    unfold set_run. now apply int_object_assign. }
  assert (S3 : shape (locals (set_run st3))
               = (_se350_loop_has_run, TBool) :: shape (locals st)).
  { subst st3. rewrite shape_set_run, shape_eval, shape_set_run.
    subst st1. unfold enter_scope. now rewrite shape_eval. }
  assert (Hfin : read "x" (leave (set_run st3)) = 2).
  { rewrite (read_leave _ _ _ _ _ S3 Hne).
    unfold set_run. now rewrite read_assign_other. }
  exists (leave (set_run st3)). repeat split; trivial.
  change (exec extcall 6 (SSeq set_x_scenario set_x_check) st)
    with (match exec extcall 5 set_x_scenario st with
          | Some (ONormal, st') => exec extcall 5 set_x_check st'
          | r => r
          end).
  rewrite Hrun. unfold set_x_check. cbn [exec eval]. rewrite Hfin. reflexivity.
Qed.

(** ** Stacked declarations *)

Lemma free_SE350_USING d after_expr body :
  free _se350_loop_has_run (SE350_USING d after_expr body) = false.
Proof. reflexivity. Qed.

Lemma free_expand g body :
  free _se350_loop_has_run (expand g body) = false.
Proof. now destruct g. Qed.

Lemma lookup_shape x rho rho' ty v :
  shape rho' = shape rho -> lookup x rho = Some (ty, v) ->
  exists w, lookup x rho' = Some (ty, w).
Proof.
  revert rho'; induction rho as [|[y [ty1 v1]] rho IH]; intros rho' Hs; [discriminate|].
  destruct rho' as [|[y' [ty' v']] rho']; [discriminate|].
  simpl in Hs. injection Hs as -> -> Hs. simpl.
  destruct (String.eqb y x).
  - intros [= -> _]. eauto.
  - now apply IH.
Qed.

(** C5.  Two SE350_USING written one after the other before one block,
    the block running to its end and the caller's text not naming the
    flag.  In order: the outer declaration is
    evaluated and its object declared, then the inner one; at the entry of
    the block both objects are in scope; after the block the inner
    [after_expr] is evaluated and the inner scopes are closed, and only
    then the outer [after_expr] is evaluated. *)
Theorem stacked_using_order
    (ty1 ty2 : ctype) (x1 x2 : ident) (e1 e2 after1 after2 : expr)
    (body : stmt) (n : nat) (st s6 : state W) :
  hygienic (Using (Decl ty1 x1 e1) after1) = true ->
  hygienic (Using (Decl ty2 x2 e2) after2) = true ->
  free _se350_loop_has_run body = false ->
  let s0 := declare TBool _se350_loop_has_run 0 st in
  let v1 := fst (eval extcall e1 s0) in
  let s1 := snd (eval extcall e1 s0) in
  let s2 := declare ty1 x1 v1 s1 in
  let s3 := declare TBool _se350_loop_has_run 0 s2 in
  let v2 := fst (eval extcall e2 s3) in
  let s4 := snd (eval extcall e2 s3) in
  let s5 := declare ty2 x2 v2 s4 in
  exec extcall n body s5 = Some (ONormal, s6) ->
  let s7 := snd (eval extcall after2 (set_run s6)) in
  let s8 := leave (leave (set_run s7)) in
  let s9 := snd (eval extcall after1 (set_run s8)) in
  let final := leave (leave (set_run s9)) in
  exec extcall (10 + n)
       (SE350_USING (Decl ty1 x1 e1) after1
          (SE350_USING (Decl ty2 x2 e2) after2 body)) st
    = Some (ONormal, final)
  /\ lookup x2 (locals s5) = Some (ty2, convert ty2 v2)
  /\ (x1 <> x2 -> exists w, lookup x1 (locals s5) = Some (ty1, w))
  /\ trace final =
       trace st
         ++ [EvDecl _se350_loop_has_run 0] ++ since s0 s1
         ++ [EvDecl x1 (convert ty1 v1)]
         ++ [EvDecl _se350_loop_has_run 0] ++ since s3 s4
         ++ [EvDecl x2 (convert ty2 v2)]
         ++ since s5 s6
         ++ [EvWrite _se350_loop_has_run 0 1] ++ since (set_run s6) s7
         ++ [EvWrite _se350_loop_has_run 1 1]
         ++ [EvWrite _se350_loop_has_run 0 1] ++ since (set_run s8) s9
         ++ [EvWrite _se350_loop_has_run 1 1].
Proof.
  intros Hg1 Hg2 Hblk s0 v1 s1 s2 s3 v2 s4 s5 E s7 s8 s9 final.
  pose proof (hygienic_after _ Hg1) as Ha1.
  pose proof (hygienic_after _ Hg2) as Ha2.
  cbn [after_of] in Ha1, Ha2.
  assert (Hs2 : enter extcall (Using (Decl ty1 x1 e1) after1) st = s2)
    by apply enter_using_eq.
  assert (Hs5 : enter extcall (Using (Decl ty2 x2 e2) after2) s2 = s5)
    by apply enter_using_eq.
  pose proof (flag_is_enter _ st Hg1) as F2. rewrite Hs2 in F2.
  pose proof (flag_is_enter _ s2 Hg2) as F5. rewrite Hs5 in F5.
  pose proof (flag_is_exec _ _ _ _ _ _ Hblk E F5) as F6.
  (* the inner guard *)
  assert (Hin : exec extcall (5 + n)
                  (SE350_USING (Decl ty2 x2 e2) after2 body) s2
                = Some (ONormal, s8)).
  { pose proof (guard_exec (Using (Decl ty2 x2 e2) after2) body n s2 Hg2 Hblk)
      as G.
    cbn [depth expand after_of close] in G. rewrite Hs5, E in G. exact G. }
  pose proof (flag_is_exec _ _ _ _ _ _
                (free_SE350_USING _ after2 body) Hin F2) as F8.
  (* the outer guard *)
  assert (Hout : exec extcall (10 + n)
                   (SE350_USING (Decl ty1 x1 e1) after1
                      (SE350_USING (Decl ty2 x2 e2) after2 body)) st
                 = Some (ONormal, final)).
  { pose proof (guard_exec (Using (Decl ty1 x1 e1) after1)
                  (SE350_USING (Decl ty2 x2 e2) after2 body) (5 + n) st Hg1
                  (free_SE350_USING _ after2 body)) as G.
    cbn [depth expand after_of close] in G. rewrite Hs2, Hin in G. exact G. }
  split; [exact Hout|]. split; [|split].
  - subst s5; cbn [lookup locals declare]. now rewrite String.eqb_refl.
  - intros Hne. subst s5; cbn [lookup locals declare].
    destruct (String.eqb_spec x2 x1) as [Heq|_]; [congruence|].
    assert (L3 : lookup x1 (locals s3) = Some (ty1, convert ty1 v1)).
    { subst s3 s2; cbn [lookup locals declare].
      apply andb_prop in Hg1 as [Hg1 _]. apply andb_prop in Hg1 as [Hx1 _].
      apply negb_true_iff in Hx1. cbn [declared] in Hx1.
      rewrite String.eqb_sym in Hx1. rewrite Hx1.
      now rewrite String.eqb_refl. }
    eapply lookup_shape; [|exact L3]. subst s4. apply shape_eval.
  - pose proof (trace_guard_exit after2 ONormal s6 Ha2 F6) as T2.
    pose proof (trace_guard_exit after1 ONormal s8 Ha1 F8) as T1.
    cbn [guard_exit snd] in T1, T2.
    subst final. rewrite !trace_leave. fold s9 in T1. rewrite T1.
    subst s8. rewrite !trace_leave. fold s7 in T2. rewrite T2.
    rewrite (exec_trace _ _ _ _ _ E).
    subst s5. rewrite trace_declare. subst s4. rewrite eval_trace.
    subst s3. rewrite trace_declare.
    subst s2. rewrite trace_declare. subst s1. rewrite eval_trace.
    subst s0. rewrite trace_declare.
    now rewrite <- !app_assoc.
Qed.

(** ** Confinement of the escape *)

Lemma for_never_breaks n :
  forall init c i b (st : state W) o st',
    exec extcall n (SFor init c i b) st = Some (o, st') ->
    o <> OBreak /\ o <> OContinue.
Proof.
  induction n as [|n IH]; intros init c i b st o st' H; [discriminate|].
  destruct init as [[ty x e]|].
  - rewrite exec_for_decl in H. destruct (eval extcall e st) as [v st1].
    destruct (exec extcall n (SFor None c i b) (declare ty x v st1))
      as [[o2 st2]|] eqn:E; [|discriminate].
    injection H as <- <-. exact (IH _ _ _ _ _ _ _ E).
  - rewrite exec_for_loop in H. destruct (eval extcall c st) as [v st1].
    destruct (truth v).
    + destruct (exec extcall n b st1) as [[[] st2]|]; try discriminate;
        try (injection H as <- <-; split; discriminate);
        exact (IH _ _ _ _ _ _ _ H).
    + injection H as <- <-; split; discriminate.
Qed.

Lemma guard_never_breaks g body n (st : state W) o st' :
  exec extcall n (expand g body) st = Some (o, st') ->
  o <> OBreak /\ o <> OContinue.
Proof. destruct g; apply for_never_breaks. Qed.

(** C6.  A guard whose block ends at SE350_SCOPE_BREAK, inside any
    context, the caller's text not naming the flag.  (a) The guard itself
    completes normally.  (b) In an enclosing block, the statement that
    follows the guard is executed next.  (c) An enclosing loop goes on
    with its increment and its next test.  (d) An enclosing guard runs the
    rest of its own block, and evaluates its own [after_expr] once, after
    that rest.  (e) Whatever the block of a guard does, the guard never
    ends in [break] or [continue]: no escape gets past the innermost guard
    around it. *)
Theorem scope_break_is_confined
    (g : guard) (body : stmt) (n : nat) (st st2 : state W) :
  hygienic g = true ->
  free _se350_loop_has_run body = false ->
  exec extcall n body (enter extcall g st) = Some (OBreak, st2) ->
  let final := close g (set_run (snd (eval extcall (after_of g) st2))) in
  exec extcall (depth g + n) (expand g body) st = Some (ONormal, final)
  /\ (forall rest m,
         (depth g + n <= m)%nat ->
         exec extcall (S m) (SSeq (expand g body) rest) st
         = exec extcall m rest final)
  /\ (forall c i m (st0 : state W),
         snd (eval extcall c st0) = st ->
         truth (fst (eval extcall c st0)) = true ->
         (depth g + n <= m)%nat ->
         exec extcall (S m) (SFor None c i (expand g body)) st0
         = exec extcall m (SFor None c i (expand g body))
                (eval_opt extcall i final))
  /\ (forall g_out rest k (st_out st_r : state W),
         hygienic g_out = true ->
         free _se350_loop_has_run rest = false ->
         enter extcall g_out st_out = st ->
         exec extcall k rest final = Some (ONormal, st_r) ->
         exists fuel,
           exec extcall fuel (expand g_out (SSeq (expand g body) rest)) st_out
           = Some (ONormal,
                   close g_out
                     (set_run (snd (eval extcall (after_of g_out)
                                      (set_run st_r))))))
  /\ (forall body' n' (st' : state W) o st'',
         exec extcall n' (expand g body') st' = Some (o, st'') ->
         o <> OBreak /\ o <> OContinue).
Proof.
  intros Hg Hblk E final.
  destruct (guard_run _ _ _ _ _ _ Hg Hblk E) as [Hrun _].
  cbn [guard_exit fst snd] in Hrun. fold final in Hrun.
  split; [exact Hrun|]. split; [|split; [|split]].
  - intros rest m Hm. rewrite exec_seq.
    now rewrite (exec_fuel_le _ _ _ _ _ Hm Hrun).
  - intros c i m st0 Hc Hv Hm. rewrite exec_for_loop.
    destruct (eval extcall c st0) as [v st1]. cbn [fst snd] in Hc, Hv.
    subst st1. rewrite Hv.
    now rewrite (exec_fuel_le _ _ _ _ _ Hm Hrun).
  - intros g_out rest k st_out st_r Hgo Hrest Hst Er.
    set (m := Nat.max (depth g + n) k).
    assert (Eb : exec extcall (S m) (SSeq (expand g body) rest)
                      (enter extcall g_out st_out) = Some (ONormal, st_r)).
    { rewrite exec_seq, Hst.
      rewrite (exec_fuel_le (depth g + n) m _ _ _ (Nat.le_max_l _ _) Hrun).
      exact (exec_fuel_le k m _ _ _ (Nat.le_max_r _ _) Er). }
    assert (Hfree : free _se350_loop_has_run (SSeq (expand g body) rest) = false).
    { cbn [free]. now rewrite free_expand, Hrest. }
    destruct (guard_run _ _ _ _ _ _ Hgo Hfree Eb) as [Hout _].
    exists (depth g_out + S m)%nat. exact Hout.
  - intros body' n' st' o st''. apply guard_never_breaks.
Qed.

(** ** The frame of a guard *)

Lemma own_step_refl (st : state W) : own_step st st.
Proof.
  repeat split; trivial; [apply agree_refl|].
  exists []; now rewrite app_nil_r.
Qed.

Lemma own_step_set_run v (st : state W) :
  flag_is v st -> own_step st (set_run st).
Proof.
  intros Hv. rewrite (set_run_eq v st Hv). repeat split; cbn.
  - apply agree_update; [apply String.eqb_refl | intros []].
  - exists [EvWrite _se350_loop_has_run v 1]. now split.
Qed.

Lemma enter_cases g (st : state W) :
  let st0 := declare TBool _se350_loop_has_run 0 st in
  enter extcall g st =
  match g with
  | Scope before_expr _ => snd (eval extcall before_expr st0)
  | ScopeExit _ => st0
  | Using (Decl ty x e) _ =>
      declare ty x (fst (eval extcall e st0)) (snd (eval extcall e st0))
  end.
Proof.
  destruct g as [b a|a|[ty x e] a]; cbn [enter]; try reflexivity.
  apply enter_using_eq.
Qed.

Lemma shape_enter_close g o (st st2 s' : state W) n body :
  exec extcall n body (enter extcall g st) = Some (o, st2) ->
  shape (locals s') = shape (locals st2) ->
  shape (locals (close g s')) = shape (locals st).
Proof.
  intros E Hs. pose proof (shape_exec _ _ _ _ _ E) as S2.
  rewrite S2 in Hs. clear E S2.
  destruct g as [b a|a|[ty x e] a]; cbn [enter close] in *.
  - rewrite shape_leave, Hs. unfold enter_scope. now rewrite shape_eval.
  - rewrite shape_leave, Hs. unfold enter_scope. now rewrite shape_eval.
  - rewrite !shape_leave, Hs, enter_using_eq. cbn [declare locals shape map].
    now rewrite shape_eval.
Qed.

(** C10.  Every terminating run of a guard whose caller text does not
    name the flag, however its block ends, is made of these steps and no
    others: the flag is declared; the caller's [before_expr] is evaluated
    (SE350_SCOPE), or nothing (SE350_SCOPE_EXIT), or the caller's
    declaration is evaluated and its object declared (SE350_USING); the
    block runs; unless the block left the function, a step [own_step] that
    touches only the flag, the caller's [after_expr], and another
    [own_step]; finally the scopes opened at the entry are closed, and the
    declared objects are those of before the guard.  The guard terminates,
    with this result, whenever its block does.  And the final state is the
    one that the caller's parts alone lead to, run in the same order
    without any guard, but for the flag events in the trace. *)
Theorem guard_frame
    (g : guard) (body : stmt) (m : nat) (st : state W) (o : outcome)
    (st' : state W) :
  hygienic g = true ->
  free _se350_loop_has_run body = false ->
  exec extcall m (expand g body) st = Some (o, st') ->
  let st0 := declare TBool _se350_loop_has_run 0 st in
  enter extcall g st =
    match g with
    | Scope before_expr _ => snd (eval extcall before_expr st0)
    | ScopeExit _ => st0
    | Using (Decl ty x e) _ =>
        declare ty x (fst (eval extcall e st0)) (snd (eval extcall e st0))
    end
  /\ (exists ob st2 p q s',
         exec extcall m body (enter extcall g st) = Some (ob, st2)
         /\ own_step st2 p
         /\ q = (if leaves_function ob then p
                 else snd (eval extcall (after_of g) p))
         /\ own_step q s'
         /\ (leaves_function ob = true -> s' = st2 /\ o = ob)
         /\ (leaves_function ob = false -> o = ONormal)
         /\ st' = close g s')
  /\ shape (locals st') = shape (locals st)
  /\ (forall n ob st2,
         exec extcall n body (enter extcall g st) = Some (ob, st2) ->
         exec extcall (depth g + n) (expand g body) st = Some (o, st'))
  /\ (exists plain,
         caller_run extcall g body m st = Some (o, plain)
         /\ same_outside plain st').
Proof.
  intros Hg Hblk H st0.
  assert (Hterm : forall n ob st2,
             exec extcall n body (enter extcall g st) = Some (ob, st2) ->
             exec extcall (depth g + n) (expand g body) st = Some (o, st')).
  { intros n ob st2 E.
    destruct (guard_run _ _ _ _ _ _ Hg Hblk E) as [Hrun Huniq].
    rewrite Hrun. f_equal. symmetry. now apply (Huniq m). }
  assert (Hm : exec extcall (depth g + m) (expand g body) st = Some (o, st')).
  { eapply exec_fuel_le; [|exact H]. lia. }
  rewrite (guard_exec _ _ _ _ Hg Hblk) in Hm.
  destruct (exec extcall m body (enter extcall g st)) as [[ob st2]|] eqn:E;
    [|discriminate].
  pose proof (flag_is_exec _ _ _ _ _ _ Hblk E (flag_is_enter g st Hg)) as F2.
  pose proof (hygienic_after g Hg) as Ha.
  pose proof (shape_guard_exit (after_of g) ob st2) as Sg.
  destruct (guard_is_caller_run _ _ _ _ _ _ Hg Hblk E) as (plain & Hplain & Hsame).
  destruct (guard_exit extcall (after_of g) (ob, st2)) as [o' s'] eqn:G.
  injection Hm as <- <-. cbn [fst snd] in Sg, Hplain, Hsame.
  pose proof (flag_is_set_run _ _ F2) as F2'.
  assert (Hown : forall v (s : state W),
             flag_is v s ->
             own_step (snd (eval extcall (after_of g) s))
                      (set_run (snd (eval extcall (after_of g) s)))).
  { intros v s Hs. eapply own_step_set_run. apply flag_is_eval; eassumption. }
  split; [apply enter_cases|]. split; [|split; [|split]].
  - destruct ob; cbn [guard_exit] in G; injection G as <- <-.
    + exists ONormal, st2, (set_run st2),
        (snd (eval extcall (after_of g) (set_run st2))),
        (set_run (snd (eval extcall (after_of g) (set_run st2)))).
      split; [reflexivity|]. split; [exact (own_step_set_run _ _ F2)|].
      split; [reflexivity|]. split; [exact (Hown _ _ F2')|].
      split; [discriminate|]. split; reflexivity.
    + exists OBreak, st2, st2, (snd (eval extcall (after_of g) st2)),
        (set_run (snd (eval extcall (after_of g) st2))).
      split; [reflexivity|]. split; [apply own_step_refl|].
      split; [reflexivity|]. split; [exact (Hown _ _ F2)|].
      split; [discriminate|]. split; reflexivity.
    + exists OContinue, st2, (set_run st2),
        (snd (eval extcall (after_of g) (set_run st2))),
        (set_run (snd (eval extcall (after_of g) (set_run st2)))).
      split; [reflexivity|]. split; [exact (own_step_set_run _ _ F2)|].
      split; [reflexivity|]. split; [exact (Hown _ _ F2')|].
      split; [discriminate|]. split; reflexivity.
    + exists (OReturn v), st2, st2, st2, st2.
      split; [reflexivity|]. split; [apply own_step_refl|].
      split; [reflexivity|]. split; [apply own_step_refl|].
      split; [now split|]. split; [discriminate | reflexivity].
    + exists OAbort, st2, st2, st2, st2.
      split; [reflexivity|]. split; [apply own_step_refl|].
      split; [reflexivity|]. split; [apply own_step_refl|].
      split; [now split|]. split; [discriminate | reflexivity].
  - exact (shape_enter_close _ _ _ _ _ _ _ E Sg).
  - exact Hterm.
  - exists plain. now split.
Qed.

(** The guards around an empty block, with nothing to do before and
    after: the state is as before, and only flag events were logged. *)
Lemma guard_alone_changes_nothing (st : state W) :
  exec extcall 4 (SE350_SCOPE (EConst 0) (EConst 0) SSkip) st
  = Some (ONormal,
          mkState (locals st) (globals st) (heap st) (ext st)
                  (((trace st ++ [EvDecl _se350_loop_has_run 0])
                      ++ [EvWrite _se350_loop_has_run 0 1])
                     ++ [EvWrite _se350_loop_has_run 1 1])).
Proof. reflexivity. Qed.

(** ** The flag in the trace *)

Lemma assign_silent x v (st : state W) :
  String.eqb x _se350_loop_has_run = false ->
  exists ev, trace (snd (assign x v st)) = trace st ++ [ev]
             /\ is_flag_event ev = false.
Proof.
  intros Hx. unfold assign.
  destruct (lookup x (locals st)) as [[ty old]|]; simpl; eauto.
Qed.

Lemma forallb_silent_app (t1 t2 : list event) :
  forallb (fun ev => negb (is_flag_event ev)) t1 = true ->
  forallb (fun ev => negb (is_flag_event ev)) t2 = true ->
  forallb (fun ev => negb (is_flag_event ev)) (t1 ++ t2) = true.
Proof. intros H1 H2. now rewrite forallb_app, H1, H2. Qed.

(** An expression that does not name the flag logs no flag event. *)
Lemma eval_silent e :
  forall st : state W,
    uses _se350_loop_has_run e = false ->
    exists t, trace (snd (eval extcall e st)) = trace st ++ t
              /\ forallb (fun ev => negb (is_flag_event ev)) t = true.
Proof.
  induction e using expr_induction; intros st Hu; cbn [uses] in Hu.
  - exists []; simpl; now rewrite app_nil_r.
  - exists []; simpl; now rewrite app_nil_r.
  - apply orb_false_elim in Hu as [Hx Hu].
    simpl. destruct (IHe st Hu) as (t1 & H1 & S1).
    destruct (eval extcall e st) as [v st1]; simpl in H1.
    destruct (assign_silent x v st1 Hx) as (ev & Hev & Sev).
    exists (t1 ++ [ev]). split; [now rewrite Hev, H1, app_assoc|].
    apply forallb_silent_app; [exact S1 | simpl; now rewrite Sev].
  - simpl. destruct (IHe st Hu) as (t1 & H1 & S1).
    destruct (eval extcall e st) as [v st1]; simpl in *. eauto.
  - apply orb_false_elim in Hu as [Hu1 Hu2].
    simpl. destruct (IHe1 st Hu1) as (t1 & H1 & S1).
    destruct (eval extcall e1 st) as [a st1]; simpl in H1.
    destruct (IHe2 st1 Hu2) as (t2 & H2 & S2).
    destruct (eval extcall e2 st1) as [v st2]; simpl in *.
    exists (t1 ++ t2 ++ [EvStore a v]). split; [now rewrite H2, H1, !app_assoc|].
    repeat apply forallb_silent_app; trivial.
  - simpl. destruct (IHe st Hu) as (t1 & H1 & S1).
    destruct (eval extcall e st) as [v st1]; simpl in *. eauto.
  - apply orb_false_elim in Hu as [Hu1 Hu2].
    simpl. destruct (IHe1 st Hu1) as (t1 & H1 & S1).
    destruct (eval extcall e1 st) as [a st1]; simpl in H1.
    destruct (IHe2 st1 Hu2) as (t2 & H2 & S2).
    destruct (eval extcall e2 st1) as [v st2]; simpl in *.
    exists (t1 ++ t2). split; [now rewrite H2, H1, app_assoc|].
    now apply forallb_silent_app.
  - apply orb_false_elim in Hu as [Hu Hu3].
    apply orb_false_elim in Hu as [Hu1 Hu2].
    simpl. destruct (IHe1 st Hu1) as (t1 & H1 & S1).
    destruct (eval extcall e1 st) as [v st1]; simpl in H1.
    destruct (truth v).
    + destruct (IHe2 st1 Hu2) as (t2 & H2 & S2). exists (t1 ++ t2).
      split; [now rewrite H2, H1, app_assoc | now apply forallb_silent_app].
    + destruct (IHe3 st1 Hu3) as (t2 & H2 & S2). exists (t1 ++ t2).
      split; [now rewrite H2, H1, app_assoc | now apply forallb_silent_app].
  - apply orb_false_elim in Hu as [Hu1 Hu2].
    simpl. destruct (IHe1 st Hu1) as (t1 & H1 & S1).
    destruct (eval extcall e1 st) as [v st1]; simpl in H1.
    destruct (IHe2 st1 Hu2) as (t2 & H2 & S2). exists (t1 ++ t2).
    split; [now rewrite H2, H1, app_assoc | now apply forallb_silent_app].
  - rewrite eval_call.
    assert (Hargs : forall st : state W, exists t,
               trace (snd (eval_args extcall args st)) = trace st ++ t
               /\ forallb (fun ev => negb (is_flag_event ev)) t = true).
    { clear st. induction H as [|e args He Hall IH]; intros st; simpl.
      - exists []; now rewrite app_nil_r.
      - simpl in Hu. apply orb_false_elim in Hu as [Hu1 Hu2].
        destruct (He st Hu1) as (t1 & H1 & S1).
        destruct (eval extcall e st) as [v st1]; simpl in H1.
        destruct (IH Hu2 st1) as (t2 & H2 & S2).
        destruct (eval_args extcall args st1) as [vs st2]; simpl in *.
        exists (t1 ++ t2).
        split; [now rewrite H2, H1, app_assoc | now apply forallb_silent_app]. }
    destruct (Hargs st) as (t1 & H1 & S1).
    destruct (eval_args extcall args st) as [vs st1]; simpl in H1.
    unfold call. destruct (extcall f vs (ext st1)) as [r w]; simpl.
    exists (t1 ++ [EvCall f vs r]). split; [now rewrite H1, app_assoc|].
    now apply forallb_silent_app.
Qed.

Lemma silent_no_transition (t : list event) :
  forallb (fun ev => negb (is_flag_event ev)) t = true -> transitions t = 0%nat.
Proof.
  unfold transitions. induction t as [|ev t IH]; simpl; [reflexivity|].
  intros H. apply andb_prop in H as [Hev Ht].
  assert (is_transition ev = false) as ->.
  { destruct ev; try reflexivity. simpl in *.
    apply negb_true_iff in Hev. now rewrite Hev. }
  now apply IH.
Qed.

Lemma transitions_app (t1 t2 : list event) :
  transitions (t1 ++ t2) = (transitions t1 + transitions t2)%nat.
Proof. unfold transitions. now rewrite filter_app, length_app. Qed.

Lemma eval_no_transition e (st : state W) :
  uses _se350_loop_has_run e = false ->
  transitions (since st (snd (eval extcall e st))) = 0%nat.
Proof.
  intros Hu. destruct (eval_silent e st Hu) as (t & Ht & St).
  rewrite (since_app _ _ _ Ht). now apply silent_no_transition.
Qed.

Lemma since_refl (st : state W) : since st st = [].
Proof. apply since_app. now rewrite app_nil_r. Qed.

Lemma calls_app t1 t2 : calls (t1 ++ t2) = calls t1 ++ calls t2.
Proof.
  induction t1 as [|[] t1 IH]; simpl; trivial. now rewrite IH.
Qed.

Lemma marks_app fb fa t1 t2 :
  marks fb fa (t1 ++ t2) = marks fb fa t1 ++ marks fb fa t2.
Proof. unfold marks. now rewrite calls_app, filter_app. Qed.

(** ** Repeated entry of one guard *)

Lemma since_guard_exit after_expr o (st2 : state W) :
  uses _se350_loop_has_run after_expr = false ->
  flag_is 0 st2 ->
  since st2 (snd (guard_exit extcall after_expr (o, st2))) =
  match o with
  | ONormal | OContinue =>
      [EvWrite _se350_loop_has_run 0 1]
        ++ since (set_run st2) (snd (eval extcall after_expr (set_run st2)))
        ++ [EvWrite _se350_loop_has_run 1 1]
  | OBreak =>
      since st2 (snd (eval extcall after_expr st2))
        ++ [EvWrite _se350_loop_has_run 0 1]
  | OReturn _ | OAbort => []
  end.
Proof.
  intros Ha H2. apply since_app. now apply trace_guard_exit.
Qed.

Lemma read_local x ty v (st : state W) :
  lookup x (locals st) = Some (ty, v) -> read x st = v.
Proof. unfold read. now intros ->. Qed.

(** One activation inside the loop: the marks are [fb] then [fa]. *)
Lemma guard_marks g body fb fa k (st : state W) :
  hygienic g = true ->
  free _se350_loop_has_run body = false ->
  (forall s : state W, marks fb fa (since s (enter extcall g s)) = [fb]) ->
  (forall s : state W,
      marks fb fa (since s (snd (eval extcall (after_of g) s))) = [fa]) ->
  (forall s : state W, exists ob s2,
      exec extcall k body s = Some (ob, s2)
      /\ leaves_function ob = false
      /\ marks fb fa (since s s2) = []) ->
  exists stG,
    exec extcall (depth g + k) (expand g body) st = Some (ONormal, stG)
    /\ marks fb fa (since st stG) = [fb; fa].
Proof.
  intros Hg Hblk Hent Haft Hbody.
  destruct (Hbody (enter extcall g st)) as (ob & s2 & E & Hob & Mb).
  destruct (guard_run _ _ _ _ _ _ Hg Hblk E) as [Hrun _].
  pose proof (flag_is_exec _ _ _ _ _ _ Hblk E (flag_is_enter g st Hg)) as F2.
  pose proof (hygienic_after g Hg) as Ha.
  pose proof (trace_guard_exit (after_of g) ob s2 Ha F2) as Tx.
  pose proof (since_guard_exit (after_of g) ob s2 Ha F2) as Sx.
  set (r := guard_exit extcall (after_of g) (ob, s2)) in *.
  exists (close g (snd r)). split.
  - rewrite Hrun. f_equal. f_equal.
    subst r. destruct ob; try discriminate; reflexivity.
  - assert (Ht : trace (close g (snd r)) =
                 trace st ++ since st (enter extcall g st)
                   ++ since (enter extcall g st) s2 ++ since s2 (snd r)).
    { rewrite trace_close, Tx, <- Sx, (exec_trace _ _ _ _ _ E), trace_enter.
      now rewrite <- !app_assoc. }
    rewrite (since_app _ _ _ Ht), !marks_app, Hent, Mb, Sx.
    destruct ob; try discriminate; rewrite !marks_app, Haft; reflexivity.
Qed.

Lemma counted_loop_iterations g body fb fa i N k :
  hygienic g = true ->
  free _se350_loop_has_run body = false ->
  free i (expand g body) = false ->
  (forall s : state W, marks fb fa (since s (enter extcall g s)) = [fb]) ->
  (forall s : state W,
      marks fb fa (since s (snd (eval extcall (after_of g) s))) = [fa]) ->
  (forall s : state W, exists ob s2,
      exec extcall k body s = Some (ob, s2)
      /\ leaves_function ob = false
      /\ marks fb fa (since s s2) = []) ->
  forall r j (s : state W),
    (j + r = N)%nat ->
    lookup i (locals s) = Some (TInt, Z.of_nat j) ->
    exists s',
      exec extcall (r + (depth g + k) + 1)
           (SFor None (EBinop Olt (EVar i) (EConst (Z.of_nat N)))
                 (Some (EAssign i (EBinop Oadd (EVar i) (EConst 1))))
                 (expand g body)) s
      = Some (ONormal, s')
      /\ marks fb fa (since s s') = List.concat (repeat [fb; fa] r).
Proof.
  intros Hg Hblk Hi Hent Haft Hbody.
  induction r as [|r IH]; intros j s Hj Li.
  - exists s. split; [|now rewrite since_refl].
    replace (0 + (depth g + k) + 1)%nat with (S (depth g + k)) by lia.
    rewrite exec_for_loop. cbn [eval]. rewrite (read_local _ _ _ _ Li).
    cbn [eval_binop]. replace j with N by lia. now rewrite Z.ltb_irrefl.
  - replace (S r + (depth g + k) + 1)%nat with (S (r + (depth g + k) + 1)) by lia.
    rewrite exec_for_loop. cbn [eval]. rewrite (read_local _ _ _ _ Li).
    cbn [eval_binop].
    assert ((Z.of_nat j <? Z.of_nat N) = true) as -> by (apply Z.ltb_lt; lia).
    change (truth 1) with true. cbv iota.
    destruct (guard_marks g body fb fa k s Hg Hblk Hent Haft Hbody)
      as (sG & HG & MG).
    rewrite (exec_fuel_le (depth g + k) (r + (depth g + k) + 1) _ _ _
               ltac:(lia) HG).
    pose proof (agree_lookup _ _ _ _ _ (exec_agree _ _ _ _ _ HG) Hi) as LG.
    rewrite Li in LG.
    set (s_next := eval_opt extcall
                     (Some (EAssign i (EBinop Oadd (EVar i) (EConst 1)))) sG).
    assert (Hnext : s_next =
              mkState (update i (Z.of_nat j + 1) (locals sG)) (globals sG)
                      (heap sG) (ext sG)
                      (trace sG ++ [EvWrite i (Z.of_nat j) (Z.of_nat j + 1)])).
    { subst s_next. cbn [eval_opt eval]. rewrite (read_local _ _ _ _ LG).
      cbn [eval_binop]. unfold assign. rewrite LG. reflexivity. }
    assert (Ln : lookup i (locals s_next) = Some (TInt, Z.of_nat (S j))).
    { rewrite Hnext; cbn [locals]. rewrite Nat2Z.inj_succ.
      now apply lookup_update_same with (old := Z.of_nat j). }
    destruct (IH (S j) s_next ltac:(lia) Ln) as (s' & Hs' & Ms').
    exists s'. split; [exact Hs'|].
    assert (Ht : trace s' = trace s ++ since s sG
                   ++ [EvWrite i (Z.of_nat j) (Z.of_nat j + 1)]
                   ++ since s_next s').
    { rewrite (exec_trace _ _ _ _ _ Hs'). rewrite Hnext at 1. cbn [trace].
      rewrite (exec_trace _ _ _ _ _ HG). now rewrite <- !app_assoc. }
    rewrite (since_app _ _ _ Ht), !marks_app, MG, Ms'. reflexivity.
Qed.

(** C4, amended.  For a guard whose caller text does not name the flag.
    First part, one activation: the flag is 0 at the entry of the block
    and still 0 when the block ends; the guard's exit logs exactly one
    flag transition from 0 to 1 when the block stayed in the function and
    none when it left it; [after_expr] is evaluated once, next to that
    transition, and not at all without it.
    Second part, [N] entries: when the guard is the body of a loop that
    runs [N] times, and the entry and [after_expr] each make one call of
    [fb] and of [fa] that the block does not make, the loop completes and
    the calls of [fb] and [fa] alternate, [N] of each. *)
Theorem run_state_flag (g : guard) (body : stmt) :
  hygienic g = true ->
  free _se350_loop_has_run body = false ->
  (forall n (st : state W) ob st2,
      exec extcall n body (enter extcall g st) = Some (ob, st2) ->
      let after_expr := after_of g in
      let exit := snd (guard_exit extcall after_expr (ob, st2)) in
      flag_is 0 (enter extcall g st)
      /\ flag_is 0 st2
      /\ (leaves_function ob = false -> flag_is 1 exit)
      /\ transitions (since st2 exit) = (if leaves_function ob then 0 else 1)%nat
      /\ since st2 exit =
           match ob with
           | ONormal | OContinue =>
               [EvWrite _se350_loop_has_run 0 1]
                 ++ since (set_run st2)
                      (snd (eval extcall after_expr (set_run st2)))
                 ++ [EvWrite _se350_loop_has_run 1 1]
           | OBreak =>
               since st2 (snd (eval extcall after_expr st2))
                 ++ [EvWrite _se350_loop_has_run 0 1]
           | OReturn _ | OAbort => []
           end
      /\ exec extcall (depth g + n) (expand g body) st
         = Some ((if leaves_function ob then ob else ONormal), close g exit))
  /\ (forall fb fa i N k (st : state W),
         free i (expand g body) = false ->
         (forall s : state W, marks fb fa (since s (enter extcall g s)) = [fb]) ->
         (forall s : state W,
             marks fb fa (since s (snd (eval extcall (after_of g) s))) = [fa]) ->
         (forall s : state W, exists ob s2,
             exec extcall k body s = Some (ob, s2)
             /\ leaves_function ob = false
             /\ marks fb fa (since s s2) = []) ->
         exists final,
           exec extcall (N + (depth g + k) + 2)
                (counted_loop i N (expand g body)) st
           = Some (ONormal, final)
           /\ marks fb fa (since st final) = List.concat (repeat [fb; fa] N)).
Proof.
  intros Hg Hblk. pose proof (hygienic_after g Hg) as Ha. split.
  - intros n st ob st2 E after_expr exit.
    pose proof (flag_is_enter g st Hg) as F1.
    pose proof (flag_is_exec _ _ _ _ _ _ Hblk E F1) as F2.
    pose proof (since_guard_exit (after_of g) ob st2 Ha F2) as Sx.
    assert (Fx : leaves_function ob = false -> flag_is 1 exit).
    { pose proof (flag_is_guard_exit (after_of g) ob st2 Ha F2) as Hgx.
      intros Hl. destruct ob; try discriminate; exact Hgx. }
    destruct (guard_run _ _ _ _ _ _ Hg Hblk E) as [Hrun _].
    split; [exact F1|]. split; [exact F2|]. split; [exact Fx|].
    split; [|split; [exact Sx|]].
    + subst exit after_expr. rewrite Sx.
      destruct ob; cbn [leaves_function]; try reflexivity;
        rewrite !transitions_app, eval_no_transition by exact Ha; reflexivity.
    + rewrite Hrun. subst exit after_expr. f_equal. f_equal.
      destruct ob; reflexivity.
  - intros fb fa i N k st Hi Hent Haft Hbody.
    unfold counted_loop.
    replace (N + (depth g + k) + 2)%nat with (S (N + (depth g + k) + 1)) by lia.
    rewrite exec_for_decl. cbn [eval].
    destruct (counted_loop_iterations g body fb fa i N k Hg Hblk Hi Hent Haft
                Hbody N 0%nat (declare TInt i 0 st) eq_refl)
      as (s' & Hs' & Ms').
    { cbn [declare locals lookup]. now rewrite String.eqb_refl. }
    rewrite Hs'. exists (leave s'). split; [reflexivity|].
    assert (Ht : trace (leave s') =
                 trace st ++ [EvDecl i 0] ++ since (declare TInt i 0 st) s').
    { rewrite trace_leave, (exec_trace _ _ _ _ _ Hs'), trace_declare.
      now rewrite <- app_assoc. }
    rewrite (since_app _ _ _ Ht), marks_app, Ms'. reflexivity.
Qed.


(** ** Callers that write the flag *)

Lemma flag_bound v (st st' : state W) :
  shape (locals st') = shape (locals st) ->
  flag_is v st -> exists w, flag_is w st'.
Proof. intros Hs Hf. unfold flag_is in *. eapply lookup_shape; eauto. Qed.

Lemma flag_bound_eval e v (st : state W) :
  flag_is v st -> exists w, flag_is w (snd (eval extcall e st)).
Proof. apply flag_bound, shape_eval. Qed.

Lemma flag_bound_exec n s v (st : state W) o st' :
  exec extcall n s st = Some (o, st') ->
  flag_is v st -> exists w, flag_is w st'.
Proof. intros E. apply flag_bound. eapply shape_exec; eauto. Qed.

Lemma flag_is_set_run_after after_expr v (st : state W) :
  flag_is v st -> flag_is 1 (set_run (snd (eval extcall after_expr st))).
Proof.
  intros Hf. destruct (flag_bound_eval after_expr v st Hf) as [w Hw].
  eapply flag_is_set_run; exact Hw.
Qed.

(** The innermost loop for any block and any value of the flag. *)
Lemma exec_inner_loop_any n body v (st : state W) :
  flag_is v st ->
  exec extcall (S n)
       (SFor None (ENot (EVar _se350_loop_has_run))
             (Some (EAssign _se350_loop_has_run (EConst 1))) body) st =
  if truth v then Some (ONormal, st)
  else match exec extcall n body st with
       | Some (ONormal, st2) | Some (OContinue, st2) =>
           Some (ONormal, set_run st2)
       | Some (OBreak, st2) => Some (ONormal, st2)
       | r => r
       end.
Proof.
  intros Hf. rewrite exec_for_loop, (eval_not_flag v st Hf).
  destruct (truth v).
  - change (truth 0) with false. reflexivity.
  - change (truth 1) with true. cbv iota.
    destruct (exec extcall n body st) as [[o st2]|] eqn:E; [|reflexivity].
    destruct (flag_bound_exec _ _ _ _ _ _ E Hf) as [w Hw].
    destruct (exec_some_pos _ _ _ _ E) as [m ->].
    destruct o; try reflexivity;
      (unfold eval_opt; rewrite eval_flag_incr;
       apply exec_loop_done; eapply flag_is_set_run; exact Hw).
Qed.

Lemma exec_scope_done before_expr i b n (st : state W) :
  flag_is 1 st ->
  exec extcall (S n)
    (SFor None
       (ECond (EVar _se350_loop_has_run) (EConst 0)
              (EComma before_expr (EConst 1))) i b) st
  = Some (ONormal, st).
Proof. intros H1. now rewrite exec_for_loop, (eval_scope_cond _ 1 _ H1). Qed.

(** SE350_SCOPE for any arguments and any block. *)
Lemma SE350_SCOPE_exec_any before_expr after_expr body n (st : state W) :
  let st1 := enter_scope extcall before_expr st in
  exec extcall (S (S (S n))) (SE350_SCOPE before_expr after_expr body) st =
  if truth (read _se350_loop_has_run st1)
  then Some (ONormal, leave (set_run (snd (eval extcall after_expr st1))))
  else match exec extcall n body st1 with
       | Some r =>
           let '(o, st') := guard_exit extcall after_expr r in
           Some (o, leave st')
       | None => None
       end.
Proof.
  intros st1. unfold SE350_SCOPE.
  rewrite exec_for_decl. simpl eval. cbv iota.
  rewrite exec_for_loop, (eval_scope_cond _ 0 _ (flag_is_declare st)).
  change (truth 0) with false. cbv iota. change (truth 1) with true. cbv iota.
  fold (enter_scope extcall before_expr st). fold st1.
  destruct (flag_bound_eval before_expr 0 _ (flag_is_declare st)) as [v Hv].
  fold (enter_scope extcall before_expr st) in Hv. fold st1 in Hv.
  rewrite (exec_inner_loop_any _ _ _ _ Hv), (read_local _ _ _ _ Hv).
  destruct (truth v).
  - unfold eval_opt. rewrite eval_guard_incr, exec_scope_done; [reflexivity|].
    eapply flag_is_set_run_after; exact Hv.
  - destruct (exec extcall n body st1) as [[o st2]|] eqn:E; [|reflexivity].
    destruct (flag_bound_exec _ _ _ _ _ _ E Hv) as [w Hw].
    destruct o; simpl guard_exit; cbv iota; try reflexivity;
      (unfold eval_opt; rewrite eval_guard_incr, exec_scope_done;
       [reflexivity|]).
    + eapply flag_is_set_run_after, flag_is_set_run; exact Hw.
    + eapply flag_is_set_run_after; exact Hw.
    + eapply flag_is_set_run_after, flag_is_set_run; exact Hw.
Qed.

Lemma exec_loop_done_any n i b v (st : state W) :
  flag_is v st -> truth v = true ->
  exec extcall (S n) (SFor None (ENot (EVar _se350_loop_has_run)) i b) st =
  Some (ONormal, st).
Proof.
  intros Hf Tv. rewrite exec_for_loop, (eval_not_flag v st Hf), Tv.
  reflexivity.
Qed.

Lemma exec_using_loop_any after_expr body n v (st : state W) :
  flag_is v st ->
  exec extcall (S (S n))
       (SFor None (ENot (EVar _se350_loop_has_run))
          (Some (EComma after_expr (EAssign _se350_loop_has_run (EConst 1))))
          (SFor None (ENot (EVar _se350_loop_has_run))
             (Some (EAssign _se350_loop_has_run (EConst 1))) body)) st =
  if truth v then Some (ONormal, st)
  else match exec extcall n body st with
       | Some r => Some (guard_exit extcall after_expr r)
       | None => None
       end.
Proof.
  intros Hf. destruct (truth v) eqn:Tv.
  - exact (exec_loop_done_any _ _ _ _ _ Hf Tv).
  - rewrite exec_for_loop, (eval_not_flag v _ Hf), Tv.
    change (truth 1) with true. cbv iota.
    rewrite (exec_inner_loop_any _ _ _ _ Hf), Tv.
    destruct (exec extcall n body st) as [[o st3]|] eqn:E; [|reflexivity].
    destruct (flag_bound_exec _ _ _ _ _ _ E Hf) as [w Hw].
    destruct o; simpl guard_exit; cbv iota; try reflexivity;
      (unfold eval_opt; rewrite eval_guard_incr; apply exec_loop_done).
    + eapply flag_is_set_run_after, flag_is_set_run; exact Hw.
    + eapply flag_is_set_run_after; exact Hw.
    + eapply flag_is_set_run_after, flag_is_set_run; exact Hw.
Qed.

(** SE350_USING for any initialiser, after-expression and block; the
    declared object is not called [_se350_loop_has_run]. *)
Lemma SE350_USING_exec_any ty x e after_expr body n (st : state W) :
  x <> _se350_loop_has_run ->
  let st1 := enter_using extcall (Decl ty x e) st in
  exec extcall (S (S (S (S (S n))))) (SE350_USING (Decl ty x e) after_expr body) st =
  if truth (read _se350_loop_has_run st1)
  then Some (ONormal, leave (leave st1))
  else match exec extcall n body st1 with
       | Some r =>
           let '(o, st') := guard_exit extcall after_expr r in
           Some (o, leave (leave st'))
       | None => None
       end.
Proof.
  intros Hx st1. subst st1. unfold SE350_USING, enter_using.
  rewrite exec_for_decl. simpl (eval extcall (EConst 0) st). cbv iota.
  set (st0 := declare TBool _se350_loop_has_run 0 st).
  assert (H0 : flag_is 0 st0) by apply flag_is_declare.
  rewrite exec_for_loop, (eval_not_flag 0 _ H0).
  change (truth (if truth 0 then 0 else 1)) with true. cbv iota.
  rewrite exec_for_decl.
  destruct (flag_bound_eval e 0 st0 H0) as [v1 H1].
  destruct (eval extcall e st0) as [v st1]; simpl in H1.
  set (st2 := declare ty x v st1).
  assert (H2 : flag_is v1 st2) by (apply flag_is_under; assumption).
  assert (S2 : shape (locals st2) = (x, ty) :: shape (locals st1)) by reflexivity.
  rewrite (exec_using_loop_any _ _ _ _ _ H2), (read_local _ _ _ _ H2).
  destruct (truth v1) eqn:Tv.
  - unfold eval_opt. rewrite (exec_loop_done_any _ _ _ v1); [reflexivity| |exact Tv].
    eapply flag_is_leave; [exact S2 | exact Hx | exact H2].
  - destruct (exec extcall n body st2) as [[o st3]|] eqn:E; [|reflexivity].
    destruct (flag_bound_exec _ _ _ _ _ _ E H2) as [w Hw].
    pose proof (shape_exec _ _ _ _ _ E) as S3.
    pose proof (shape_guard_exit after_expr o st3) as Sg.
    assert (Hg : match o with OReturn _ | OAbort => True | _ =>
                   flag_is 1 (snd (guard_exit extcall after_expr (o, st3))) end).
    { destruct o; simpl; try exact I.
      - eapply flag_is_set_run_after, flag_is_set_run; exact Hw.
      - eapply flag_is_set_run_after; exact Hw.
      - eapply flag_is_set_run_after, flag_is_set_run; exact Hw. }
    destruct (guard_exit extcall after_expr (o, st3)) as [o' st5] eqn:G.
    simpl snd in *.
    assert (Ho : match o with OReturn _ | OAbort => o' = o | _ => o' = ONormal end).
    { destruct o; simpl in G; now injection G. }
    destruct o; subst o'; try reflexivity;
      (unfold eval_opt; rewrite exec_loop_done; [reflexivity|];
       eapply flag_is_leave; [rewrite Sg, S3; exact S2 | exact Hx | exact Hg]).
Qed.

(** X1: the caller's after-expression and block may write the flag: the
    guard still runs the block once and the after-expression once. *)
Theorem guard_survives_flag_writes
    (g : guard) (body : stmt) (n : nat) (st : state W) :
  entry_hygienic g = true ->
  exec extcall (depth g + n) (expand g body) st =
  match exec extcall n body (enter extcall g st) with
  | Some r =>
      let '(o, st') := guard_exit extcall (after_of g) r in
      Some (o, close g st')
  | None => None
  end.
Proof.
  intros Hg. destruct g as [b a | a | [ty x e] a];
    simpl in Hg; simpl depth; simpl expand; simpl enter; simpl after_of;
    simpl close.
  - apply negb_true_iff in Hg.
    pose proof (SE350_SCOPE_exec_any b a body n st) as H. cbv zeta in H.
    rewrite (read_local _ _ _ _ (flag_is_enter_scope b st Hg)) in H.
    exact H.
  - unfold SE350_SCOPE_EXIT.
    pose proof (SE350_SCOPE_exec_any (EConst 0) a body n st) as H. cbv zeta in H.
    rewrite (read_local _ _ _ _ (flag_is_enter_scope (EConst 0) st eq_refl)) in H.
    exact H.
  - apply andb_true_iff in Hg as [Hx He].
    apply negb_true_iff in Hx, He. apply String.eqb_neq in Hx.
    pose proof (SE350_USING_exec_any ty x e a body n st Hx) as H. cbv zeta in H.
    assert (Hf : flag_is 0 (enter_using extcall (Decl ty x e) st)).
    { rewrite enter_using_eq. apply flag_is_under; [exact Hx|].
      apply flag_is_eval; [exact He | apply flag_is_declare]. }
    rewrite (read_local _ _ _ _ Hf) in H. exact H.
Qed.

(** X2: a before-expression that leaves the flag set makes SE350_SCOPE
    skip its block; the after-expression is still evaluated, once. *)
Theorem scope_before_setting_flag_skips_block
    (before_expr after_expr : expr) (body : stmt) (n : nat) (st : state W) :
  let st1 := enter_scope extcall before_expr st in
  let final := leave (set_run (snd (eval extcall after_expr st1))) in
  truth (read _se350_loop_has_run st1) = true ->
  exec extcall (S (S (S n))) (SE350_SCOPE before_expr after_expr body) st
    = Some (ONormal, final)
  /\ (forall m r,
         exec extcall m (SE350_SCOPE before_expr after_expr body) st = Some r ->
         r = (ONormal, final))
  /\ (exists w,
         trace final
         = trace st1 ++ since st1 (snd (eval extcall after_expr st1))
             ++ [EvWrite _se350_loop_has_run w 1]).
Proof.
  intros st1 final Hset.
  assert (Hrun : exec extcall (S (S (S n)))
                   (SE350_SCOPE before_expr after_expr body) st
                 = Some (ONormal, final)).
  { pose proof (SE350_SCOPE_exec_any before_expr after_expr body n st) as H.
    cbv zeta in H. fold st1 in H. rewrite Hset in H. exact H. }
  split; [exact Hrun|]. split.
  - intros m r Hm. exact (exec_deterministic _ _ _ _ _ _ Hm Hrun).
  - destruct (flag_bound_eval before_expr 0 _ (flag_is_declare st)) as [v Hv].
    fold (enter_scope extcall before_expr st) in Hv. fold st1 in Hv.
    destruct (flag_bound_eval after_expr v st1 Hv) as [w Hw].
    exists w. unfold final.
    rewrite trace_leave, (trace_set_run _ _ Hw), eval_trace.
    now rewrite <- app_assoc.
Qed.

(** X3: an initialiser that leaves the flag set makes SE350_USING skip
    both its block and its after-expression: the object is declared and
    its scope closed, nothing else. *)
Theorem using_initialiser_setting_flag_skips_all
    (ty : ctype) (x : ident) (e after_expr : expr) (body : stmt) (n : nat)
    (st : state W) :
  let st1 := enter_using extcall (Decl ty x e) st in
  let final := leave (leave st1) in
  x <> _se350_loop_has_run ->
  truth (read _se350_loop_has_run st1) = true ->
  exec extcall (S (S (S (S (S n))))) (SE350_USING (Decl ty x e) after_expr body) st
    = Some (ONormal, final)
  /\ (forall m r,
         exec extcall m (SE350_USING (Decl ty x e) after_expr body) st = Some r ->
         r = (ONormal, final))
  /\ trace final = trace st1.
Proof.
  intros st1 final Hx Hset.
  assert (Hrun : exec extcall (S (S (S (S (S n)))))
                   (SE350_USING (Decl ty x e) after_expr body) st
                 = Some (ONormal, final)).
  { pose proof (SE350_USING_exec_any ty x e after_expr body n st Hx) as H.
    cbv zeta in H. fold st1 in H. rewrite Hset in H. exact H. }
  split; [exact Hrun|]. split.
  - intros m r Hm. exact (exec_deterministic _ _ _ _ _ _ Hm Hrun).
  - unfold final. now rewrite !trace_leave.
Qed.

(** ** The flags of enclosing guards *)

Lemma agree_nth f seen rho rho' :
  agree f seen rho rho' ->
  forall k y b, f y = false ->
    nth_error rho k = Some (y, b) -> nth_error rho' k = Some (y, b).
Proof.
  induction 1 as [|seen y ty v v' rho rho' Hv _ IH]; intros k z b Hz Hk.
  - exact Hk.
  - destruct k as [|k]; simpl in *.
    + injection Hk as -> <-. destruct Hv as [->|[Hf _]]; [reflexivity|].
      congruence.
    + now apply IH.
Qed.

(** X4: a guarded statement, whatever its arguments and its block, leaves
    every object called [_se350_loop_has_run] that was in scope at its
    entry as it was: the flag it works on is its own. *)
Theorem guard_keeps_enclosing_flags
    (g : guard) (body : stmt) (n : nat) (st : state W) (o : outcome)
    (st' : state W) :
  exec extcall n (expand g body) st = Some (o, st') ->
  (forall k b,
      nth_error (locals st) k = Some (_se350_loop_has_run, b) ->
      nth_error (locals st') k = Some (_se350_loop_has_run, b))
  /\ lookup _se350_loop_has_run (locals st')
     = lookup _se350_loop_has_run (locals st).
Proof.
  intros H. apply exec_agree in H. split.
  - intros k b. eapply agree_nth; [exact H | apply free_expand].
  - eapply agree_lookup; [exact H | apply free_expand].
Qed.

(** ** SE350_USING as a block with a declaration *)

(** X5: on fall-through [SE350_USING(ty x = e, after_expr) body] ends in
    the state in which [{ ty x = e; body after_expr; }] ends, but for
    flag events. *)
Theorem using_is_plain_block
    (ty : ctype) (x : ident) (e after_expr : expr) (body : stmt) (n : nat)
    (st st2 : state W) :
  hygienic (Using (Decl ty x e) after_expr) = true ->
  free _se350_loop_has_run body = false ->
  exec extcall n body (enter_using extcall (Decl ty x e) st)
    = Some (ONormal, st2) ->
  exists final plain,
    exec extcall (S (S (S (S (S n))))) (SE350_USING (Decl ty x e) after_expr body) st
      = Some (ONormal, final)
    /\ exec extcall (S (S n))
            (SLocal (Decl ty x e) (SSeq body (SExpr after_expr))) st
       = Some (ONormal, plain)
    /\ same_outside plain final.
Proof.
  intros Hg Hb E.
  set (g := Using (Decl ty x e) after_expr) in *.
  change (enter_using extcall (Decl ty x e) st) with (enter extcall g st) in E.
  destruct (guard_run g body n st ONormal st2 Hg Hb E) as [Hrun _].
  destruct (guard_erasure g body n st ONormal st2 Hg Hb E)
    as (sto2 & Eo & Hsame).
  destruct (exec_some_pos _ _ _ _ E) as [m ->].
  eexists; eexists; split; [exact Hrun|].
  split; [|exact Hsame].
  simpl caller_enter in Eo.
  change (exec extcall (S (S (S m)))
            (SLocal (Decl ty x e) (SSeq body (SExpr after_expr))) st)
    with (let '(v, st1) := eval extcall e st in
          match exec extcall (S (S m)) (SSeq body (SExpr after_expr))
                     (declare ty x v st1) with
          | Some (o, s) => Some (o, leave s)
          | None => None
          end).
  destruct (eval extcall e st) as [v st1]; simpl fst in Eo; simpl snd in Eo.
  rewrite exec_seq, Eo. reflexivity.
Qed.

(** ** What the block does not assign *)

Lemma eval_assigns e :
  forall (st : state W),
    agree (fun x => assigns x e) [] (locals st) (locals (snd (eval extcall e st))).
Proof.
  induction e using expr_induction; intros st.
  - apply agree_refl.
  - apply agree_refl.
  - simpl. specialize (IHe st). destruct (eval extcall e st) as [v st1]; simpl in *.
    eapply agree_trans.
    + eapply agree_mono; [|exact IHe]. intros z Hz; simpl. rewrite Hz. apply orb_true_r.
    + eapply agree_mono; [|apply assign_locals]. intros z Hz; simpl.
      now rewrite Hz.
  - simpl. specialize (IHe st). now destruct (eval extcall e st).
  - simpl. specialize (IHe1 st). destruct (eval extcall e1 st) as [a st1]; simpl in *.
    specialize (IHe2 st1). destruct (eval extcall e2 st1) as [v st2]; simpl in *.
    eapply agree_trans.
    + eapply agree_mono; [|exact IHe1]. intros z Hz; now rewrite Hz.
    + eapply agree_mono; [|exact IHe2]. intros z Hz; rewrite Hz; apply orb_true_r.
  - simpl. specialize (IHe st). now destruct (eval extcall e st).
  - simpl. specialize (IHe1 st). destruct (eval extcall e1 st) as [a st1]; simpl in *.
    specialize (IHe2 st1). destruct (eval extcall e2 st1) as [v st2]; simpl in *.
    eapply agree_trans.
    + eapply agree_mono; [|exact IHe1]. intros z Hz; now rewrite Hz.
    + eapply agree_mono; [|exact IHe2]. intros z Hz; rewrite Hz; apply orb_true_r.
  - simpl. specialize (IHe1 st). destruct (eval extcall e1 st) as [v st1]; simpl in *.
    eapply agree_trans.
    + eapply agree_mono; [|exact IHe1]. intros z Hz; now rewrite Hz.
    + destruct (truth v).
      * eapply agree_mono; [|apply IHe2]. intros z Hz; rewrite Hz.
        rewrite orb_true_r; reflexivity.
      * eapply agree_mono; [|apply IHe3]. intros z Hz; rewrite Hz.
        apply orb_true_r.
  - simpl. specialize (IHe1 st). destruct (eval extcall e1 st) as [v st1]; simpl in *.
    eapply agree_trans.
    + eapply agree_mono; [|exact IHe1]. intros z Hz; now rewrite Hz.
    + eapply agree_mono; [|apply IHe2]. intros z Hz; rewrite Hz; apply orb_true_r.
  - rewrite eval_call.
    assert (Hargs : forall st : state W,
               agree (fun x => existsb (assigns x) args) [] (locals st)
                     (locals (snd (eval_args extcall args st)))).
    { clear st. induction H as [|e args He Hall IH]; intros st; simpl.
      - apply agree_refl.
      - specialize (He st). destruct (eval extcall e st) as [v st1]; simpl in *.
        specialize (IH st1). destruct (eval_args extcall args st1) as [vs st2]; simpl in *.
        eapply agree_trans.
        + eapply agree_mono; [|exact He]. intros z Hz; now rewrite Hz.
        + eapply agree_mono; [|exact IH]. intros z Hz; rewrite Hz; apply orb_true_r. }
    specialize (Hargs st). destruct (eval_args extcall args st) as [vs st1]; simpl in *.
    now rewrite call_locals.
Qed.

Lemma eval_opt_assigns i (st : state W) :
  agree (fun x => assigns_opt x i) [] (locals st) (locals (eval_opt extcall i st)).
Proof.
  destruct i as [e|]; simpl; [apply eval_assigns | apply agree_refl].
Qed.

Lemma exec_writes n :
  forall s (st : state W) o st',
    exec extcall n s st = Some (o, st') ->
    agree (fun x => writes x s) [] (locals st) (locals st').
Proof.
  induction n as [|n IH]; intros s st o st' H; [discriminate|].
  destruct s; simpl in H.
  - injection H as <- <-. apply agree_refl.
  - injection H as <- <-. apply eval_assigns.
  - pose proof (eval_assigns e st) as He.
    destruct (eval extcall e st) as [v st1]; simpl in He.
    destruct (truth v); injection H as <- <-; exact He.
  - destruct (exec extcall n s1 st) as [[o1 st1]|] eqn:E1; [|discriminate].
    apply IH in E1.
    assert (H1 : agree (fun x => writes x (SSeq s1 s2)) [] (locals st) (locals st1)).
    { eapply agree_mono; [|exact E1]. intros z Hz; simpl; now rewrite Hz. }
    destruct o1; try (injection H as <- <-; exact H1).
    apply IH in H. eapply agree_trans; [exact H1|].
    eapply agree_mono; [|exact H]. intros z Hz; simpl; rewrite Hz; apply orb_true_r.
  - pose proof (eval_assigns c st) as Hc.
    destruct (eval extcall c st) as [v st1]; simpl in Hc.
    eapply agree_trans.
    + eapply agree_mono; [|exact Hc]. intros z Hz; simpl; now rewrite Hz.
    + destruct (truth v); apply IH in H.
      * eapply agree_mono; [|exact H]. intros z Hz; simpl; rewrite Hz.
        rewrite orb_true_r; reflexivity.
      * eapply agree_mono; [|exact H]. intros z Hz; simpl; rewrite Hz.
        apply orb_true_r.
  - destruct d as [ty y e].
    pose proof (eval_assigns e st) as He.
    destruct (eval extcall e st) as [v st1]; simpl in He.
    destruct (exec extcall n s (declare ty y v st1)) as [[o2 st2]|] eqn:E2;
      [|discriminate].
    injection H as <- <-. apply IH in E2. simpl in E2.
    apply agree_pop in E2 as (v' & rho1 & Hl & Hag).
    simpl. rewrite Hl; simpl.
    eapply agree_trans.
    + eapply agree_mono; [|exact He]. intros z Hz; now rewrite Hz.
    + eapply agree_weaken; [|exact Hag]. intros z Hz Hn; split; [|intros []].
      rewrite Hz, andb_true_r.
      destruct (String.eqb_spec y z) as [->|]; [exfalso; apply Hn; now left|].
      apply orb_true_r.
  - destruct init as [[ty y e]|].
    + pose proof (eval_assigns e st) as He.
      destruct (eval extcall e st) as [v st1]; simpl in He.
      destruct (exec extcall n (SFor None cond incr s) (declare ty y v st1))
        as [[o2 st2]|] eqn:E2; [|discriminate].
      injection H as <- <-. apply IH in E2. simpl in E2.
      apply agree_pop in E2 as (v' & rho1 & Hl & Hag).
      simpl. rewrite Hl; simpl.
      eapply agree_trans.
      * eapply agree_mono; [|exact He]. intros z Hz; now rewrite Hz.
      * eapply agree_weaken; [|exact Hag]. intros z Hz Hn; split; [|intros []].
        rewrite Hz, andb_true_r.
        destruct (String.eqb_spec y z) as [->|]; [exfalso; apply Hn; now left|].
        apply orb_true_r.
    + pose proof (eval_assigns cond st) as Hc.
      destruct (eval extcall cond st) as [v st1]; simpl in Hc.
      assert (H1 : agree (fun x => writes x (SFor None cond incr s)) []
                         (locals st) (locals st1)).
      { eapply agree_mono; [|exact Hc]. intros z Hz; simpl; now rewrite Hz. }
      destruct (truth v); [|injection H as <- <-; exact H1].
      destruct (exec extcall n s st1) as [[o2 st2]|] eqn:E2; [|discriminate].
      apply IH in E2.
      assert (H2 : agree (fun x => writes x (SFor None cond incr s)) []
                         (locals st) (locals st2)).
      { eapply agree_trans; [exact H1|]. eapply agree_mono; [|exact E2].
        intros z Hz; simpl; rewrite Hz; apply orb_true_r. }
      assert (H3 : agree (fun x => writes x (SFor None cond incr s)) []
                         (locals st) (locals (eval_opt extcall incr st2))).
      { eapply agree_trans; [exact H2|].
        eapply agree_mono; [|apply eval_opt_assigns].
        intros z Hz; simpl; rewrite Hz. rewrite orb_true_r; reflexivity. }
      destruct o2; try (injection H as <- <-; exact H2);
        (apply IH in H; eapply agree_trans; [exact H3 | exact H]).
  - injection H as <- <-. apply agree_refl.
  - injection H as <- <-. apply agree_refl.
  - destruct e as [e|].
    + pose proof (eval_assigns e st) as He.
      destruct (eval extcall e st) as [v st1]; simpl in He.
      injection H as <- <-. exact He.
    + injection H as <- <-. apply agree_refl.
Qed.

Lemma lookup_set_run x (st : state W) :
  x <> _se350_loop_has_run ->
  lookup x (locals (set_run st)) = lookup x (locals st).
Proof.
  intros Hx. unfold set_run, assign.
  destruct (lookup _se350_loop_has_run (locals st)) as [[ty old]|]; simpl;
    [now apply lookup_update_other | reflexivity].
Qed.

(** usage.c, [log_release(x)] for an object [x]: the message is printed,
    then the value of [x] is handed to [release_memory_block]; no object
    and no memory changes. *)
Lemma eval_log_release x (st : state W) :
  exists r1 r2,
    trace (snd (eval extcall (log_release (EVar x)) st))
    = trace st ++ [EvCall (Printf "Freeing pointer\n") [] r1;
                   EvCall (Fn "release_memory_block") [read x st] r2]
    /\ locals (snd (eval extcall (log_release (EVar x)) st)) = locals st
    /\ globals (snd (eval extcall (log_release (EVar x)) st)) = globals st
    /\ heap (snd (eval extcall (log_release (EVar x)) st)) = heap st.
Proof.
  unfold log_release.
  change (eval extcall
            (EComma (ECall (Printf "Freeing pointer\n") [])
                    (ECall (Fn "release_memory_block") [EVar x])) st)
    with (let '(_, st1) := call extcall (Printf "Freeing pointer\n") [] st in
          call extcall (Fn "release_memory_block") [read x st1] st1).
  unfold call, read.
  destruct (extcall (Printf "Freeing pointer\n") [] (ext st)) as [r1 w1].
  cbn [locals globals ext heap trace snd fst].
  match goal with
  | |- context [extcall (Fn "release_memory_block") ?vs w1] =>
      destruct (extcall (Fn "release_memory_block") vs w1) as [r2 w2]
  end.
  exists r1, r2. simpl. rewrite <- app_assoc. repeat split; reflexivity.
Qed.

(** X6: the pattern of usage.c,
    [SE350_USING(ty x = e, log_release(x)) body]: when the block does
    not assign [x] and does not leave the function, what is released at
    the end of the scope is what [e] gave at its beginning. *)
Theorem using_releases_what_it_acquired
    (ty : ctype) (x : ident) (e : expr) (body : stmt) (n : nat)
    (st st2 : state W) (ob : outcome) :
  let st0 := declare TBool _se350_loop_has_run 0 st in
  let h := convert ty (fst (eval extcall e st0)) in
  x <> _se350_loop_has_run ->
  uses _se350_loop_has_run e = false ->
  free _se350_loop_has_run body = false ->
  writes x body = false ->
  exec extcall n body (enter_using extcall (Decl ty x e) st) = Some (ob, st2) ->
  leaves_function ob = false ->
  exists final r1 r2,
    exec extcall (S (S (S (S (S n)))))
         (SE350_USING (Decl ty x e) (log_release (EVar x)) body) st
      = Some (ONormal, final)
    /\ read x (enter_using extcall (Decl ty x e) st) = h
    /\ read x st2 = h
    /\ unflagged (since st2 final)
       = [EvCall (Printf "Freeing pointer\n") [] r1;
          EvCall (Fn "release_memory_block") [h] r2].
Proof.
  intros st0 h Hx He Hb Hw E Hob.
  set (a := log_release (EVar x)).
  set (g := Using (Decl ty x e) a).
  assert (Hxb : String.eqb x _se350_loop_has_run = false)
    by now apply String.eqb_neq.
  assert (Ha : uses _se350_loop_has_run a = false).
  { unfold a, log_release. simpl. now rewrite Hxb. }
  assert (Hg : hygienic g = true).
  { unfold g, hygienic. simpl declared. simpl initialiser.
    now rewrite Hxb, He, Ha. }
  change (enter_using extcall (Decl ty x e) st) with (enter extcall g st) in *.
  destruct (guard_run g body n st ob st2 Hg Hb E) as [Hrun _].
  pose proof (flag_is_exec _ _ _ _ _ _ Hb E (flag_is_enter g st Hg)) as H2.
  assert (L1 : lookup x (locals (enter extcall g st)) = Some (ty, h)).
  { change (enter extcall g st) with (enter_using extcall (Decl ty x e) st).
    rewrite enter_using_eq. unfold declare.
    cbn [locals lookup]. now rewrite String.eqb_refl. }
  assert (L2 : lookup x (locals st2) = Some (ty, h)).
  { rewrite <- L1. eapply agree_lookup; [eapply exec_writes; exact E|exact Hw]. }
  assert (Hfin : trace (close g (snd (guard_exit extcall a (ob, st2))))
                 = trace st2 ++ since st2 (snd (guard_exit extcall a (ob, st2)))).
  { rewrite trace_close, (trace_guard_exit _ _ _ Ha H2).
    now rewrite (since_guard_exit _ _ _ Ha H2). }
  simpl after_of in Hrun. fold a in Hrun.
  destruct ob; try discriminate Hob; simpl fst in Hrun.
  - destruct (eval_log_release x (set_run st2)) as (r1 & r2 & Ht & _).
    exists (close g (snd (guard_exit extcall a (ONormal, st2)))), r1, r2.
    split; [exact Hrun|]. split; [exact (read_local _ _ _ _ L1)|].
    split; [exact (read_local _ _ _ _ L2)|].
    rewrite (since_app _ _ _ Hfin), (since_guard_exit _ _ _ Ha H2).
    fold a in Ht. rewrite (since_app _ _ _ Ht).
    rewrite (read_local x ty h (set_run st2))
      by (rewrite lookup_set_run; assumption).
    reflexivity.
  - destruct (eval_log_release x st2) as (r1 & r2 & Ht & _).
    exists (close g (snd (guard_exit extcall a (OBreak, st2)))), r1, r2.
    split; [exact Hrun|]. split; [exact (read_local _ _ _ _ L1)|].
    split; [exact (read_local _ _ _ _ L2)|].
    rewrite (since_app _ _ _ Hfin), (since_guard_exit _ _ _ Ha H2).
    fold a in Ht. rewrite (since_app _ _ _ Ht).
    rewrite (read_local x ty h st2) by assumption.
    reflexivity.
  - destruct (eval_log_release x (set_run st2)) as (r1 & r2 & Ht & _).
    exists (close g (snd (guard_exit extcall a (OContinue, st2)))), r1, r2.
    split; [exact Hrun|]. split; [exact (read_local _ _ _ _ L1)|].
    split; [exact (read_local _ _ _ _ L2)|].
    rewrite (since_app _ _ _ Hfin), (since_guard_exit _ _ _ Ha H2).
    fold a in Ht. rewrite (since_app _ _ _ Ht).
    rewrite (read_local x ty h (set_run st2))
      by (rewrite lookup_set_run; assumption).
    reflexivity.
Qed.

(** ** Guards stacked on one block *)

Lemma free_expand_all gs body :
  free _se350_loop_has_run body = false ->
  free _se350_loop_has_run (expand_all gs body) = false.
Proof.
  intros Hb. destruct gs as [|g gs]; [exact Hb | apply free_expand].
Qed.

Lemma guards_exec gs body n :
  forallb hygienic gs = true ->
  free _se350_loop_has_run body = false ->
  forall st : state W,
    exec extcall (depth_all gs + n) (expand_all gs body) st =
    match exec extcall n body (enter_all extcall gs st) with
    | Some r => Some (exit_all extcall gs r)
    | None => None
    end.
Proof.
  intros Hgs Hb. induction gs as [|g gs IH]; intros st.
  - simpl. now destruct (exec extcall n body st).
  - simpl in Hgs. apply andb_true_iff in Hgs as [Hg Hgs].
    simpl expand_all. simpl depth_all. simpl enter_all. simpl exit_all.
    rewrite <- Nat.add_assoc,
      (guard_exec g _ _ st Hg (free_expand_all gs body Hb)), (IH Hgs).
    destruct (exec extcall n body (enter_all extcall gs (enter extcall g st)))
      as [r|]; [|reflexivity].
    now destruct (guard_exit extcall (after_of g) (exit_all extcall gs r)).
Qed.

Lemma eval_call0 f (st : state W) :
  exists r, trace (snd (eval extcall (ECall f []) st))
            = trace st ++ [EvCall f [] r].
Proof.
  rewrite eval_call. simpl eval_args. cbv iota. unfold call.
  destruct (extcall f [] (ext st)) as [r w]. now exists r.
Qed.

Lemma calls_call0 f (st : state W) :
  calls (since st (snd (eval extcall (ECall f []) st))) = [f].
Proof.
  destruct (eval_call0 f st) as [r Hr]. now rewrite (since_app _ _ _ Hr).
Qed.

Lemma exit_all_calls gs body n ob :
  forallb hygienic gs = true ->
  free _se350_loop_has_run body = false ->
  leaves_function ob = false ->
  forall fs (st st2 : state W),
    map after_of gs = map (fun f => ECall f []) fs ->
    exec extcall n body (enter_all extcall gs st) = Some (ob, st2) ->
    leaves_function (fst (exit_all extcall gs (ob, st2))) = false
    /\ (gs <> [] -> fst (exit_all extcall gs (ob, st2)) = ONormal)
    /\ exists t, trace (snd (exit_all extcall gs (ob, st2))) = trace st2 ++ t
                 /\ calls t = rev fs.
Proof.
  intros Hgs Hb Hob. induction gs as [|g gs IH]; intros fs st st2 Hfs E.
  - destruct fs; [|discriminate]. simpl. split; [exact Hob|].
    split; [congruence|]. exists []. now rewrite app_nil_r.
  - destruct fs as [|f fs]; [discriminate|]. simpl in Hfs.
    injection Hfs as Hf Hfs.
    simpl in Hgs. apply andb_true_iff in Hgs as [Hg Hgs].
    simpl enter_all in E.
    destruct (IH Hgs fs _ _ Hfs E) as (Hl & _ & t & Ht & Hc).
    pose proof (guards_exec gs body n Hgs Hb (enter extcall g st)) as Hrun.
    rewrite E in Hrun.
    simpl exit_all.
    destruct (exit_all extcall gs (ob, st2)) as [o' s'] eqn:X.
    simpl fst in Hl. simpl snd in Ht.
    pose proof (flag_is_exec _ _ _ _ _ _ (free_expand_all gs body Hb) Hrun
                  (flag_is_enter g st Hg)) as F.
    pose proof (hygienic_after g Hg) as Ha.
    pose proof (trace_guard_exit (after_of g) o' s' Ha F) as Hx.
    assert (Hcalls : calls (since s' (snd (guard_exit extcall (after_of g) (o', s'))))
                     = [f]
                     /\ fst (guard_exit extcall (after_of g) (o', s')) = ONormal).
    { rewrite (since_app _ _ _ Hx). rewrite Hf.
      destruct o'; try discriminate Hl; simpl fst;
        (split; [|reflexivity]);
        rewrite !calls_app, calls_call0; reflexivity. }
    destruct Hcalls as [Hcs Ho].
    destruct (guard_exit extcall (after_of g) (o', s')) as [o'' s''] eqn:G.
    simpl fst in *. simpl snd in *. subst o''.
    split; [reflexivity|]. split; [reflexivity|].
    exists (t ++ since s' s''). rewrite trace_close. split.
    + rewrite app_assoc, <- Ht. destruct o'; try discriminate Hl;
        rewrite Hx; rewrite (since_app _ _ _ Hx); reflexivity.
    + rewrite calls_app, Hc, Hcs. reflexivity.
Qed.

(** X7: guards stacked on one block, to any depth, when the block does
    not leave the function: the after-expressions are evaluated once
    each, the innermost first, the outermost last. *)
Theorem stacked_guards_unwind_in_reverse
    (gs : list guard) (fs : list callee) (body : stmt) (n : nat)
    (st st2 : state W) (ob : outcome) :
  forallb hygienic gs = true ->
  free _se350_loop_has_run body = false ->
  map after_of gs = map (fun f => ECall f []) fs ->
  exec extcall n body (enter_all extcall gs st) = Some (ob, st2) ->
  leaves_function ob = false ->
  let final := snd (exit_all extcall gs (ob, st2)) in
  exec extcall (depth_all gs + n) (expand_all gs body) st
    = Some (fst (exit_all extcall gs (ob, st2)), final)
  /\ (gs <> [] -> fst (exit_all extcall gs (ob, st2)) = ONormal)
  /\ calls (since st2 final) = rev fs.
Proof.
  intros Hgs Hb Hfs E Hob final.
  destruct (exit_all_calls gs body n ob Hgs Hb Hob fs st st2 Hfs E)
    as (_ & Ho & t & Ht & Hc).
  split; [|split; [exact Ho|]].
  - rewrite (guards_exec gs body n Hgs Hb st), E.
    now destruct (exit_all extcall gs (ob, st2)).
  - unfold final. now rewrite (since_app _ _ _ Ht).
Qed.

Lemma exit_all_return gs v (st2 : state W) :
  exit_all extcall gs (OReturn v, st2) = (OReturn v, close_all gs st2).
Proof.
  induction gs as [|g gs IH]; [reflexivity|]. simpl. now rewrite IH.
Qed.

Lemma close_all_same gs (st2 : state W) :
  trace (close_all gs st2) = trace st2
  /\ globals (close_all gs st2) = globals st2
  /\ heap (close_all gs st2) = heap st2
  /\ ext (close_all gs st2) = ext st2.
Proof.
  induction gs as [|g gs (Ht & Hg & Hh & He)]; [repeat split|].
  simpl. destruct g; simpl; now rewrite ?Ht, ?Hg, ?Hh, ?He.
Qed.

(** X8: a [return] in a block under any number of guards leaves through
    all of them: none of their after-expressions is evaluated, nothing is
    logged after the [return], and only the scopes are closed. *)
Theorem return_skips_every_enclosing_after
    (gs : list guard) (body : stmt) (n : nat) (st st2 : state W)
    (v : option Z) :
  forallb hygienic gs = true ->
  free _se350_loop_has_run body = false ->
  exec extcall n body (enter_all extcall gs st) = Some (OReturn v, st2) ->
  let final := close_all gs st2 in
  exec extcall (depth_all gs + n) (expand_all gs body) st
    = Some (OReturn v, final)
  /\ (forall m r, exec extcall m (expand_all gs body) st = Some r ->
                  r = (OReturn v, final))
  /\ trace final = trace st2
  /\ (exists t, trace final = trace (enter_all extcall gs st) ++ t ++ [EvReturn v])
  /\ globals final = globals st2
  /\ heap final = heap st2
  /\ ext final = ext st2.
Proof.
  intros Hgs Hb E final.
  assert (Hrun : exec extcall (depth_all gs + n) (expand_all gs body) st
                 = Some (OReturn v, final)).
  { now rewrite (guards_exec gs body n Hgs Hb st), E, exit_all_return. }
  destruct (close_all_same gs st2) as (Ht & Hg & Hh & He).
  split; [exact Hrun|]. split.
  { intros m r Hm. exact (exec_deterministic _ _ _ _ _ _ Hm Hrun). }
  split; [exact Ht|]. split; [|now repeat split].
  unfold final. rewrite Ht.
  destruct (exec_extends _ _ _ _ _ E) as (t & Hx & [t' ->]).
  now exists t'.
Qed.

(** ** An escape under an enclosing loop *)

Lemma may_leave_sound n :
  forall s (st : state W) o st',
    may_leave s = false ->
    exec extcall n s st = Some (o, st') -> leaves_function o = false.
Proof.
  induction n as [|n IH]; intros s st o st' Hs H; [discriminate|].
  destruct s; simpl in Hs; try discriminate Hs; simpl in H.
  - now injection H as <- _.
  - now injection H as <- _.
  - apply orb_false_iff in Hs as [H1 H2].
    destruct (exec extcall n s1 st) as [[o1 st1]|] eqn:E1; [|discriminate].
    pose proof (IH _ _ _ _ H1 E1) as L1.
    destruct o1; try discriminate L1; try (now injection H as <- _).
    exact (IH _ _ _ _ H2 H).
  - apply orb_false_iff in Hs as [H1 H2].
    destruct (eval extcall c st) as [v st1].
    destruct (truth v); [exact (IH _ _ _ _ H1 H) | exact (IH _ _ _ _ H2 H)].
  - destruct d as [ty y e]. destruct (eval extcall e st) as [v st1].
    destruct (exec extcall n s (declare ty y v st1)) as [[o2 st2]|] eqn:E2;
      [|discriminate].
    injection H as <- _. exact (IH _ _ _ _ Hs E2).
  - destruct init as [[ty y e]|].
    + destruct (eval extcall e st) as [v st1].
      destruct (exec extcall n (SFor None cond incr s) (declare ty y v st1))
        as [[o2 st2]|] eqn:E2; [|discriminate].
      injection H as <- _. exact (IH (SFor None cond incr s) _ _ _ Hs E2).
    + destruct (eval extcall cond st) as [v st1].
      destruct (truth v); [|now injection H as <- _].
      destruct (exec extcall n s st1) as [[o2 st2]|] eqn:E2; [|discriminate].
      pose proof (IH _ _ _ _ Hs E2) as L2.
      destruct o2; try discriminate L2; try (now injection H as <- _);
        exact (IH (SFor None cond incr s) _ _ _ Hs H).
  - now injection H as <- _.
  - now injection H as <- _.
Qed.

(** X9: [for (;1;i) GUARD { ... }] where the block has no [return]:
    whatever escape the block takes ends the guard, never the loop, so
    the loop does not end. *)
Theorem escape_cannot_end_enclosing_loop
    (g : guard) (body : stmt) (i : option expr) (m : nat) (st : state W) :
  hygienic g = true ->
  free _se350_loop_has_run body = false ->
  may_leave body = false ->
  exec extcall m (SFor None (EConst 1) i (expand g body)) st = None.
Proof.
  intros Hg Hb Hl. revert st. induction m as [|m IH]; intros st; [reflexivity|].
  rewrite exec_for_loop. simpl eval. change (truth 1) with true. cbv iota.
  destruct (exec extcall m (expand g body) st) as [[o st2]|] eqn:E;
    [|reflexivity].
  assert (Ho : o = ONormal).
  { assert (Hm : exec extcall (depth g + m) (expand g body) st = Some (o, st2))
      by (eapply exec_fuel_le; [|exact E]; lia).
    rewrite (guard_exec _ _ _ _ Hg Hb) in Hm.
    destruct (exec extcall m body (enter extcall g st)) as [[ob s2]|] eqn:Eb;
      [|discriminate].
    pose proof (may_leave_sound _ _ _ _ _ Hl Eb) as L.
    destruct ob; try discriminate L; simpl in Hm; now injection Hm as <- _. }
  subst o. apply IH.
Qed.

(** ** The interrupt-free block of usage.c inside itself *)

Lemma guard_exit_call f o (s : state W) :
  flag_is 0 s ->
  leaves_function o = false ->
  fst (guard_exit extcall (ECall f []) (o, s)) = ONormal
  /\ exists t,
       trace (snd (guard_exit extcall (ECall f []) (o, s))) = trace s ++ t
       /\ calls t = [f].
Proof.
  intros F Hl.
  pose proof (trace_guard_exit (ECall f []) o s eq_refl F) as Hx.
  destruct o; try discriminate Hl; (split; [reflexivity|]);
    (eexists; split; [exact Hx|]);
    rewrite !calls_app, calls_call0; reflexivity.
Qed.

Lemma enter_irq_guard (s : state W) :
  exists t, trace (enter extcall irq_guard s) = trace s ++ t
            /\ calls t = [Fn "__disable_irq"].
Proof.
  unfold irq_guard, enter, enter_scope.
  destruct (eval_call0 (Fn "__disable_irq")
              (declare TBool _se350_loop_has_run 0 s)) as [r Hr].
  unfold call0. rewrite Hr, trace_declare, <- app_assoc.
  eexists; split; reflexivity.
Qed.

(** X10: [INTERRUPT_FREE_BLOCK { INTERRUPT_FREE_BLOCK body_in rest }]:
    the inner block's end calls [__enable_irq()], and [rest] of the outer
    block runs after that call and before the outer one: the interrupt-free
    block does not nest. *)
Theorem interrupt_free_blocks_do_not_nest
    (body_in rest : stmt) (k1 k2 : nat) (st s2 s4 : state W)
    (ob_in ob_out : outcome) :
  let s1 := enter extcall irq_guard (enter extcall irq_guard st) in
  let s3 := close irq_guard
              (snd (guard_exit extcall (call0 "__enable_irq") (ob_in, s2))) in
  free _se350_loop_has_run body_in = false ->
  free _se350_loop_has_run rest = false ->
  exec extcall k1 body_in s1 = Some (ob_in, s2) ->
  leaves_function ob_in = false ->
  exec extcall k2 rest s3 = Some (ob_out, s4) ->
  leaves_function ob_out = false ->
  exists fuel final,
    exec extcall fuel
         (INTERRUPT_FREE_BLOCK (SSeq (INTERRUPT_FREE_BLOCK body_in) rest)) st
      = Some (ONormal, final)
    /\ calls (since st final)
       = [Fn "__disable_irq"; Fn "__disable_irq"]
           ++ calls (since s1 s2)
           ++ [Fn "__enable_irq"]
           ++ calls (since s3 s4)
           ++ [Fn "__enable_irq"].
Proof.
  intros s1 s3 Hb Hr E1 L1 E2 L2.
  set (s0 := enter extcall irq_guard st) in *.
  assert (Hg : hygienic irq_guard = true) by reflexivity.
  assert (F1 : flag_is 0 s1) by (apply flag_is_enter; exact Hg).
  pose proof (flag_is_exec _ _ _ _ _ _ Hb E1 F1) as F2.
  destruct (guard_run irq_guard body_in k1 s0 ob_in s2 Hg Hb E1) as [Hin _].
  destruct (guard_exit_call (Fn "__enable_irq") ob_in s2 F2 L1)
    as (Oin & tin & Tin & Cin).
  change (after_of irq_guard) with (ECall (Fn "__enable_irq") []) in Hin.
  rewrite Oin in Hin. fold (call0 "__enable_irq") in Hin. fold s3 in Hin.
  assert (F3 : flag_is 0 s3).
  { eapply flag_is_exec; [apply (free_expand irq_guard body_in) | exact Hin |].
    apply flag_is_enter; exact Hg. }
  pose proof (flag_is_exec _ _ _ _ _ _ Hr E2 F3) as F4.
  set (K := Nat.max (depth irq_guard + k1) k2).
  set (B := SSeq (expand irq_guard body_in) rest).
  assert (HB : free _se350_loop_has_run B = false).
  { unfold B.
    change (free _se350_loop_has_run (expand irq_guard body_in)
            || free _se350_loop_has_run rest = false).
    now rewrite Hr, free_expand. }
  assert (EB : exec extcall (S K) B s0 = Some (ob_out, s4)).
  { unfold B. rewrite exec_seq.
    rewrite (exec_fuel_le _ K _ _ _ (Nat.le_max_l _ _) Hin).
    exact (exec_fuel_le _ K _ _ _ (Nat.le_max_r _ _) E2). }
  destruct (guard_run irq_guard B (S K) st ob_out s4 Hg HB EB) as [Hout _].
  destruct (guard_exit_call (Fn "__enable_irq") ob_out s4 F4 L2)
    as (Oout & tout & Tout & Cout).
  change (after_of irq_guard) with (ECall (Fn "__enable_irq") []) in Hout.
  rewrite Oout in Hout.
  destruct (enter_irq_guard st) as (t0 & T0 & C0). fold s0 in T0.
  destruct (enter_irq_guard s0) as (t1 & T1 & C1). fold s1 in T1.
  eexists; eexists; split; [exact Hout|].
  assert (Ht : trace (close irq_guard
                        (snd (guard_exit extcall (ECall (Fn "__enable_irq") [])
                                (ob_out, s4))))
               = trace st ++ (t0 ++ t1 ++ since s1 s2 ++ tin
                                ++ since s3 s4 ++ tout)).
  { rewrite trace_close, Tout, (exec_trace _ _ _ _ _ E2).
    unfold s3 at 1. rewrite trace_close.
    unfold call0. rewrite Tin, (exec_trace _ _ _ _ _ E1), T1, T0.
    now rewrite <- !app_assoc. }
  rewrite (since_app _ _ _ Ht), !calls_app, C0, C1, Cin, Cout. reflexivity.
Qed.

(** ** SE350_SCOPE_EXIT on an object declared before it *)

Lemma lookup_leave x y ty sh (st : state W) :
  shape (locals st) = (y, ty) :: sh -> x <> y ->
  lookup x (locals (leave st)) = lookup x (locals st).
Proof.
  simpl. destruct (locals st) as [|[z [ty' w]] rho]; [discriminate|].
  simpl. intros [= -> _ _] Hxy.
  destruct (String.eqb_spec y x); [congruence | reflexivity].
Qed.

(** X11: the pattern of usage.c,
    [ty x = ...; SE350_SCOPE_EXIT(log_release(x)) body]: when the block
    does not assign [x] and does not leave the function, the value that
    [x] had at the guard is released; unlike the object of SE350_USING,
    [x] is in scope after the guard and still holds the released value. *)
Theorem scope_exit_releases_outer_object
    (ty : ctype) (x : ident) (h : Z) (body : stmt) (n : nat)
    (st st2 : state W) (ob : outcome) :
  x <> _se350_loop_has_run ->
  free _se350_loop_has_run body = false ->
  writes x body = false ->
  lookup x (locals st) = Some (ty, h) ->
  exec extcall n body (declare TBool _se350_loop_has_run 0 st)
    = Some (ob, st2) ->
  leaves_function ob = false ->
  exists final r1 r2,
    exec extcall (S (S (S n)))
         (SE350_SCOPE_EXIT (log_release (EVar x)) body) st
      = Some (ONormal, final)
    /\ unflagged (since st2 final)
       = [EvCall (Printf "Freeing pointer\n") [] r1;
          EvCall (Fn "release_memory_block") [h] r2]
    /\ lookup x (locals final) = Some (ty, h)
    /\ shape (locals final) = shape (locals st).
Proof.
  intros Hx Hb Hw Lx E Hob.
  set (a := log_release (EVar x)).
  set (g := ScopeExit a).
  assert (Hxb : String.eqb x _se350_loop_has_run = false)
    by now apply String.eqb_neq.
  assert (Ha : uses _se350_loop_has_run a = false).
  { unfold a, log_release. simpl. now rewrite Hxb. }
  assert (Hg : hygienic g = true).
  { unfold g, hygienic. now rewrite Ha. }
  change (declare TBool _se350_loop_has_run 0 st) with (enter extcall g st) in E.
  destruct (guard_run g body n st ob st2 Hg Hb E) as [Hrun _].
  pose proof (flag_is_exec _ _ _ _ _ _ Hb E (flag_is_enter g st Hg)) as H2.
  assert (L1 : lookup x (locals (enter extcall g st)) = Some (ty, h)).
  { change (enter extcall g st) with (declare TBool _se350_loop_has_run 0 st).
    unfold declare. cbn [locals lookup].
    destruct (String.eqb_spec _se350_loop_has_run x); [congruence | exact Lx]. }
  assert (L2 : lookup x (locals st2) = Some (ty, h)).
  { rewrite <- L1. eapply agree_lookup; [eapply exec_writes; exact E|exact Hw]. }
  assert (S2 : shape (locals st2)
               = (_se350_loop_has_run, TBool) :: shape (locals st)).
  { now rewrite (shape_exec _ _ _ _ _ E). }
  assert (Hfin : trace (close g (snd (guard_exit extcall a (ob, st2))))
                 = trace st2 ++ since st2 (snd (guard_exit extcall a (ob, st2)))).
  { rewrite trace_close, (trace_guard_exit _ _ _ Ha H2).
    now rewrite (since_guard_exit _ _ _ Ha H2). }
  pose proof (shape_guard_exit a ob st2) as Sg. rewrite S2 in Sg.
  simpl after_of in Hrun. fold a in Hrun.
  assert (Lf : forall p : state W,
             lookup x (locals p) = Some (ty, h) ->
             shape (locals p)
             = (_se350_loop_has_run, TBool) :: shape (locals st) ->
             lookup x (locals (leave (set_run (snd (eval extcall a p)))))
             = Some (ty, h)).
  { intros p Lp Sp.
    destruct (eval_log_release x p) as (r1 & r2 & _ & Hl & _).
    fold a in Hl.
    rewrite (lookup_leave x _se350_loop_has_run TBool (shape (locals st)));
      [|now rewrite shape_set_run, shape_eval | exact Hx].
    now rewrite lookup_set_run, Hl. }
  destruct ob; try discriminate Hob; simpl fst in Hrun.
  - destruct (eval_log_release x (set_run st2)) as (r1 & r2 & Ht & _).
    exists (close g (snd (guard_exit extcall a (ONormal, st2)))), r1, r2.
    split; [exact Hrun|]. split; [|split].
    + rewrite (since_app _ _ _ Hfin), (since_guard_exit _ _ _ Ha H2).
      fold a in Ht. rewrite (since_app _ _ _ Ht).
      rewrite (read_local x ty h (set_run st2))
        by (rewrite lookup_set_run; assumption).
      reflexivity.
    + apply Lf; [now rewrite lookup_set_run | now rewrite shape_set_run].
    + unfold g; cbn [close]. now rewrite shape_leave, Sg.
  - destruct (eval_log_release x st2) as (r1 & r2 & Ht & _).
    exists (close g (snd (guard_exit extcall a (OBreak, st2)))), r1, r2.
    split; [exact Hrun|]. split; [|split].
    + rewrite (since_app _ _ _ Hfin), (since_guard_exit _ _ _ Ha H2).
      fold a in Ht. rewrite (since_app _ _ _ Ht).
      rewrite (read_local x ty h st2) by assumption.
      reflexivity.
    + apply Lf; assumption.
    + unfold g; cbn [close]. now rewrite shape_leave, Sg.
  - destruct (eval_log_release x (set_run st2)) as (r1 & r2 & Ht & _).
    exists (close g (snd (guard_exit extcall a (OContinue, st2)))), r1, r2.
    split; [exact Hrun|]. split; [|split].
    + rewrite (since_app _ _ _ Hfin), (since_guard_exit _ _ _ Ha H2).
      fold a in Ht. rewrite (since_app _ _ _ Ht).
      rewrite (read_local x ty h (set_run st2))
        by (rewrite lookup_set_run; assumption).
      reflexivity.
    + apply Lf; [now rewrite lookup_set_run | now rewrite shape_set_run].
    + unfold g; cbn [close]. now rewrite shape_leave, Sg.
Qed.

(** ** A compound statement with a declaration *)

Lemma exec_local n ty x e s (st : state W) :
  exec extcall (S n) (SLocal (Decl ty x e) s) st =
  let '(v, st1) := eval extcall e st in
  match exec extcall n s (declare ty x v st1) with
  | Some (o, st2) => Some (o, leave st2)
  | None => None
  end.
Proof. reflexivity. Qed.
End Proofs.

(** * Runs in any world *)

Section Worlds.

Context {W : Type} (extcall : callee -> list Z -> W -> Z * W) (w0 : W)
        (t0 : list event).

Let hist := history_extcall (answers extcall w0).

Lemma replay_snoc h f vs :
  replay extcall w0 (h ++ [(f, vs)])
  = extcall f vs (snd (replay extcall w0 h)).
Proof. unfold replay. now rewrite fold_left_app. Qed.

Ltac same_fields st sh H :=
  destruct st as [rho gl hp w t], sh as [rho' gl' hp' w' t'];
  destruct H as (Hl & Hg & Hh & Ht & Hw); simpl in Hl, Hg, Hh, Ht, Hw;
  subst rho' gl' hp' t.

Lemma call_tracks f vs (st : state W) (sh : state history) :
  tracks extcall w0 t0 st sh ->
  fst (call hist f vs sh) = fst (call extcall f vs st)
  /\ tracks extcall w0 t0 (snd (call extcall f vs st)) (snd (call hist f vs sh)).
Proof.
  intros H. same_fields st sh H.
  unfold call, hist, history_extcall, answers, tracks; simpl.
  rewrite replay_snoc, Hw.
  destruct (extcall f vs w) as [r w1]. simpl.
  repeat split; try reflexivity. symmetry; apply app_assoc.
Qed.

Lemma assign_tracks x v (st : state W) (sh : state history) :
  tracks extcall w0 t0 st sh ->
  fst (assign x v sh) = fst (assign x v st)
  /\ tracks extcall w0 t0 (snd (assign x v st)) (snd (assign x v sh)).
Proof.
  intros H. same_fields st sh H. unfold assign, tracks; simpl.
  destruct (lookup x rho) as [[ty old]|]; simpl;
    repeat split; try assumption; symmetry; apply app_assoc.
Qed.

Lemma store_tracks a v (st : state W) (sh : state history) :
  tracks extcall w0 t0 st sh -> tracks extcall w0 t0 (store a v st) (store a v sh).
Proof.
  intros H. same_fields st sh H. unfold store, tracks; simpl.
  repeat split; try assumption. symmetry; apply app_assoc.
Qed.

Lemma declare_tracks ty x v (st : state W) (sh : state history) :
  tracks extcall w0 t0 st sh ->
  tracks extcall w0 t0 (declare ty x v st) (declare ty x v sh).
Proof.
  intros H. same_fields st sh H. unfold declare, tracks; simpl.
  repeat split; try assumption. symmetry; apply app_assoc.
Qed.

Lemma leave_tracks (st : state W) (sh : state history) :
  tracks extcall w0 t0 st sh -> tracks extcall w0 t0 (leave st) (leave sh).
Proof.
  intros H. same_fields st sh H. unfold leave, tracks; simpl.
  repeat split; try assumption; reflexivity.
Qed.

Lemma log_tracks ev (st : state W) (sh : state history) :
  tracks extcall w0 t0 st sh -> tracks extcall w0 t0 (log ev st) (log ev sh).
Proof.
  intros H. same_fields st sh H. unfold log, tracks; simpl.
  repeat split; try assumption. symmetry; apply app_assoc.
Qed.

Lemma read_tracks x (st : state W) (sh : state history) :
  tracks extcall w0 t0 st sh -> read x sh = read x st.
Proof. intros H. same_fields st sh H. reflexivity. Qed.

Lemma heap_tracks (st : state W) (sh : state history) :
  tracks extcall w0 t0 st sh -> heap sh = heap st.
Proof. now intros (_ & _ & Hh & _). Qed.

(** An expression has the same value and the same effects in both
    worlds. *)
Lemma eval_tracks e :
  forall (st : state W) (sh : state history),
    tracks extcall w0 t0 st sh ->
    fst (eval hist e sh) = fst (eval extcall e st)
    /\ tracks extcall w0 t0 (snd (eval extcall e st)) (snd (eval hist e sh)).
Proof.
  induction e using expr_induction; intros st sh T.
  - split; [reflexivity | exact T].
  - split; [exact (read_tracks x st sh T) | exact T].
  - simpl. destruct (IHe st sh T) as [Hv T1].
    destruct (eval extcall e st) as [v st1], (eval hist e sh) as [v' sh1].
    simpl in Hv, T1. subst v'. exact (assign_tracks x v st1 sh1 T1).
  - simpl. destruct (IHe st sh T) as [Hv T1].
    destruct (eval extcall e st) as [a st1], (eval hist e sh) as [a' sh1].
    simpl in Hv, T1. subst a'. simpl.
    split; [now rewrite (heap_tracks _ _ T1) | exact T1].
  - simpl. destruct (IHe1 st sh T) as [Ha T1].
    destruct (eval extcall e1 st) as [a st1], (eval hist e1 sh) as [a' sh1].
    simpl in Ha, T1. subst a'.
    destruct (IHe2 st1 sh1 T1) as [Hv T2].
    destruct (eval extcall e2 st1) as [v st2], (eval hist e2 sh1) as [v' sh2].
    simpl in Hv, T2. subst v'. simpl.
    split; [reflexivity | exact (store_tracks a v st2 sh2 T2)].
  - simpl. destruct (IHe st sh T) as [Hv T1].
    destruct (eval extcall e st) as [v st1], (eval hist e sh) as [v' sh1].
    simpl in Hv, T1. subst v'. split; [reflexivity | exact T1].
  - simpl. destruct (IHe1 st sh T) as [Ha T1].
    destruct (eval extcall e1 st) as [a st1], (eval hist e1 sh) as [a' sh1].
    simpl in Ha, T1. subst a'.
    destruct (IHe2 st1 sh1 T1) as [Hv T2].
    destruct (eval extcall e2 st1) as [v st2], (eval hist e2 sh1) as [v' sh2].
    simpl in Hv, T2. subst v'. split; [reflexivity | exact T2].
  - simpl. destruct (IHe1 st sh T) as [Hv T1].
    destruct (eval extcall e1 st) as [v st1], (eval hist e1 sh) as [v' sh1].
    simpl in Hv, T1. subst v'.
    destruct (truth v); [exact (IHe2 st1 sh1 T1) | exact (IHe3 st1 sh1 T1)].
  - simpl. destruct (IHe1 st sh T) as [Hv T1].
    destruct (eval extcall e1 st) as [v st1], (eval hist e1 sh) as [v' sh1].
    simpl in Hv, T1. exact (IHe2 st1 sh1 T1).
  - rewrite !eval_call.
    assert (Hargs : forall (st : state W) (sh : state history),
               tracks extcall w0 t0 st sh ->
               fst (eval_args hist args sh) = fst (eval_args extcall args st)
               /\ tracks extcall w0 t0 (snd (eval_args extcall args st))
                                   (snd (eval_args hist args sh))).
    { clear st sh T. induction H as [|e args He Hall IH]; intros st sh T; simpl.
      - split; [reflexivity | exact T].
      - destruct (He st sh T) as [Hv T1].
        destruct (eval extcall e st) as [v st1], (eval hist e sh) as [v' sh1].
        simpl in Hv, T1. subst v'.
        destruct (IH st1 sh1 T1) as [Hvs T2].
        destruct (eval_args extcall args st1) as [vs st2],
                 (eval_args hist args sh1) as [vs' sh2].
        simpl in Hvs, T2. subst vs'. split; [reflexivity | exact T2]. }
    destruct (Hargs st sh T) as [Hvs T1].
    destruct (eval_args extcall args st) as [vs st1],
             (eval_args hist args sh) as [vs' sh1].
    simpl in Hvs, T1. subst vs'. exact (call_tracks f vs st1 sh1 T1).
Qed.

Lemma eval_opt_tracks i (st : state W) (sh : state history) :
  tracks extcall w0 t0 st sh ->
  tracks extcall w0 t0 (eval_opt extcall i st) (eval_opt hist i sh).
Proof.
  intros T. destruct i as [e|]; simpl; [apply eval_tracks, T | exact T].
Qed.

(** A statement ends in the same way in both worlds, or in neither. *)
Lemma exec_tracks n :
  forall s (st : state W) (sh : state history),
    tracks extcall w0 t0 st sh ->
    match exec extcall n s st with
    | Some (o, st') =>
        exists sh', exec hist n s sh = Some (o, sh')
                    /\ tracks extcall w0 t0 st' sh'
    | None => exec hist n s sh = None
    end.
Proof.
  induction n as [|n IH]; intros s st sh T; [reflexivity|].
  destruct s; simpl.
  - eexists; split; [reflexivity | exact T].
  - eexists; split; [reflexivity | apply eval_tracks, T].
  - destruct (eval_tracks e st sh T) as [Hv T1].
    destruct (eval extcall e st) as [v st1], (eval hist e sh) as [v' sh1].
    simpl in Hv, T1. subst v'.
    destruct (truth v); eexists; split; try reflexivity; exact T1.
  - specialize (IH s1 st sh T) as H1.
    destruct (exec extcall n s1 st) as [[o1 st1]|].
    + destruct H1 as (sh1 & -> & T1).
      destruct o1; try (eexists; split; [reflexivity | exact T1]).
      exact (IH s2 st1 sh1 T1).
    + now rewrite H1.
  - destruct (eval_tracks c st sh T) as [Hv T1].
    destruct (eval extcall c st) as [v st1], (eval hist c sh) as [v' sh1].
    simpl in Hv, T1. subst v'.
    destruct (truth v); [exact (IH s1 st1 sh1 T1) | exact (IH s2 st1 sh1 T1)].
  - destruct d as [ty y e].
    destruct (eval_tracks e st sh T) as [Hv T1].
    destruct (eval extcall e st) as [v st1], (eval hist e sh) as [v' sh1].
    simpl in Hv, T1. subst v'.
    specialize (IH s _ _ (declare_tracks ty y v st1 sh1 T1)) as H1.
    destruct (exec extcall n s (declare ty y v st1)) as [[o2 st2]|].
    + destruct H1 as (sh2 & -> & T2).
      eexists; split; [reflexivity | exact (leave_tracks _ _ T2)].
    + now rewrite H1.
  - destruct init as [[ty y e]|].
    + destruct (eval_tracks e st sh T) as [Hv T1].
      destruct (eval extcall e st) as [v st1], (eval hist e sh) as [v' sh1].
      simpl in Hv, T1. subst v'.
      specialize (IH (SFor None cond incr s) _ _
                     (declare_tracks ty y v st1 sh1 T1)) as H1.
      destruct (exec extcall n (SFor None cond incr s) (declare ty y v st1))
        as [[o2 st2]|].
      * destruct H1 as (sh2 & -> & T2).
        eexists; split; [reflexivity | exact (leave_tracks _ _ T2)].
      * now rewrite H1.
    + destruct (eval_tracks cond st sh T) as [Hv T1].
      destruct (eval extcall cond st) as [v st1], (eval hist cond sh) as [v' sh1].
      simpl in Hv, T1. subst v'.
      destruct (truth v); [|eexists; split; [reflexivity | exact T1]].
      specialize (IH s st1 sh1 T1) as H1.
      destruct (exec extcall n s st1) as [[o2 st2]|].
      * destruct H1 as (sh2 & -> & T2).
        destruct o2; try (eexists; split; [reflexivity | exact T2]);
          exact (IH (SFor None cond incr s) _ _ (eval_opt_tracks incr _ _ T2)).
      * now rewrite H1.
  - eexists; split; [reflexivity | exact (log_tracks _ _ _ T)].
  - eexists; split; [reflexivity | exact (log_tracks _ _ _ T)].
  - destruct e as [e|].
    + destruct (eval_tracks e st sh T) as [Hv T1].
      destruct (eval extcall e st) as [v st1], (eval hist e sh) as [v' sh1].
      simpl in Hv, T1. subst v'.
      eexists; split; [reflexivity | exact (log_tracks _ _ _ T1)].
    + eexists; split; [reflexivity | exact (log_tracks _ _ _ T)].
Qed.

End Worlds.

Lemma tracks_afresh {W} (extcall : callee -> list Z -> W -> Z * W)
    (st : state W) :
  tracks extcall (ext st) (trace st) st (afresh st).
Proof.
  unfold tracks, afresh; simpl. repeat split. now rewrite app_nil_r.
Qed.

(** What a run gives in the world of histories, it gives in every
    world. *)
Lemma exec_in_any_world {W} (extcall : callee -> list Z -> W -> Z * W)
    n s (st : state W) o sh' :
  exec (history_extcall (answers extcall (ext st))) n s (afresh st)
    = Some (o, sh') ->
  exists st',
    exec extcall n s st = Some (o, st')
    /\ locals st' = locals sh'
    /\ globals st' = globals sh'
    /\ heap st' = heap sh'
    /\ since st st' = trace sh'.
Proof.
  intros H.
  pose proof (exec_tracks extcall (ext st) (trace st) n s st (afresh st)
                (tracks_afresh extcall st)) as T.
  destruct (exec extcall n s st) as [[o1 st1]|].
  - destruct T as (sh1 & E & Hl & Hg & Hh & Ht & _).
    rewrite H in E. injection E as -> <-.
    exists st1. split; [reflexivity|].
    split; [now rewrite Hl|]. split; [now rewrite Hg|].
    split; [now rewrite Hh|]. now apply since_app.
  - rewrite H in T. discriminate.
Qed.

(** ** usage.c, [main] *)

(** One part of a run from a state that is written out, and the results
    of its calls under names of their own. *)
Ltac run_part answer :=
  match goal with
  | |- context [exec ?ex ?n ?s (mkState ?a ?b ?c ?d ?t)] =>
      let r := eval cbn in (exec ex n s (mkState a b c d t)) in
      change (exec ex n s (mkState a b c d t)) with r
  | |- context [eval ?ex ?e (mkState ?a ?b ?c ?d ?t)] =>
      let r := eval cbn in (eval ex e (mkState a b c d t)) in
      change (eval ex e (mkState a b c d t)) with r
  end;
  cbv beta iota; unfold declare, leave;
  cbn [locals globals heap ext trace tl convert eval_opt fst snd];
  repeat match goal with
         | |- context [truth ?v] =>
             let b := eval cbn in (truth v) in change (truth v) with b
         end;
  cbv beta iota;
  repeat match goal with
         | |- context [answer ?h] => generalize (answer h); intro
         end.

Lemma main_history (answer : history -> Z) rho gl hp :
  exists final h2 h3 h4 h5,
    exec (history_extcall answer) 20 main (mkState rho gl hp [] [])
      = Some (ONormal, final)
    /\ locals final = rho
    /\ globals final = gl
    /\ acquired (trace final) = [h2; h3; h4; h5]
    /\ released (trace final) = [h2; h3; h5; h4]
    /\ calls (trace final)
       = [Fn "__disable_irq"; Fn "__enable_irq";
          Fn "request_memory_block"; Printf "*p2: %d\n";
          Printf "Freeing pointer\n"; Fn "release_memory_block";
          Fn "request_memory_block"; Printf "*p3: %d\n";
          Printf "Freeing pointer\n"; Fn "release_memory_block";
          Fn "request_memory_block"; Fn "request_memory_block";
          Printf "(*p4, *p5) = (%d, %d)\n";
          Printf "Freeing pointer\n"; Fn "release_memory_block";
          Printf "Freeing pointer\n"; Fn "release_memory_block"]
    /\ printed (trace final)
       = [("*p2: %d\n", [if h2 =? h2 then 6 else hp h2]);
          ("Freeing pointer\n", []);
          ("*p3: %d\n",
           [if h3 =? h3 then 7 else if h3 =? h2 then 6 else hp h3]);
          ("Freeing pointer\n", []);
          ("(*p4, *p5) = (%d, %d)\n",
           [if h4 =? h5 then 9
            else if h4 =? h4 then 8
            else if h4 =? h3 then 7 else if h4 =? h2 then 6 else hp h4;
            if h5 =? h5 then 9
            else if h5 =? h4 then 8
            else if h5 =? h3 then 7 else if h5 =? h2 then 6 else hp h5]);
          ("Freeing pointer\n", []);
          ("Freeing pointer\n", [])].
Proof.
  remember (exec (history_extcall answer) 20 main (mkState rho gl hp [] []))
    as res eqn:E.
  revert E. unfold main.
  rewrite exec_seq. run_part answer.
  rewrite exec_local. run_part answer.
  rewrite exec_seq. run_part answer.
  rewrite exec_seq. run_part answer.
  unfold double_up_using, using_p4, using_p5, SE350_USING.
  rewrite exec_for_decl. run_part answer.
  rewrite exec_for_loop. run_part answer.
  rewrite exec_for_decl. run_part answer.
  rewrite exec_for_loop. run_part answer.
  rewrite exec_for_loop. run_part answer.
  rewrite exec_for_decl. run_part answer.
  rewrite exec_for_loop. run_part answer.
  rewrite exec_for_decl. run_part answer.
  repeat run_part answer.
  match goal with
  | |- _ = Some (ONormal, ?s) -> _ => intros ->; exists s
  end.
  do 4 eexists.
  split; [reflexivity|]. split; [reflexivity|]. split; [reflexivity|].
  split; [cbn [acquired trace String.eqb Ascii.eqb Bool.eqb]; reflexivity|].
  split; [cbn [released trace String.eqb Ascii.eqb Bool.eqb app]; reflexivity|].
  split; [cbn [calls trace]; reflexivity|].
  cbn [printed trace]; reflexivity.
Qed.



(** * Runs in the concrete world *)

(** A run of C1: the three calls happen in the order before, block,
    after, once each. *)
Lemma scope_guard_fall_through_run :
  exists final,
    exec rtx_extcall 5
         (SE350_SCOPE (call0 "before") (call0 "after") (SExpr (call0 "block")))
         rtx_boot = Some (ONormal, final)
    /\ calls (trace final) = [Fn "before"; Fn "block"; Fn "after"].
Proof.
  destruct (scope_guard_fall_through rtx_extcall
              (call0 "before") (call0 "after") (SExpr (call0 "block")) 2
              rtx_boot
              (snd (eval rtx_extcall (call0 "block")
                      (enter_scope rtx_extcall (call0 "before") rtx_boot)))
              eq_refl eq_refl eq_refl eq_refl) as (Hrun & _ & Htrace & _).
  eexists; split; [exact Hrun|].
  rewrite Htrace. reflexivity.
Defined.

(** The usage example of scope.h with [earlyCondition] set: interrupts
    are disabled, the block stops at the escape, interrupts are enabled
    again; [critical()] is not called. *)
Lemma scope_break_leaves_block_run :
  run_trace rtx_extcall 7 (INTERRUPT_FREE_BLOCK early_break_block) rtx_early
  = Some (ONormal,
          [EvDecl _se350_loop_has_run 0;
           EvCall (Fn "__disable_irq") [] 0;
           EvBreak;
           EvCall (Fn "__enable_irq") [] 0;
           EvWrite _se350_loop_has_run 0 1]).
Proof.
  destruct (scope_break_leaves_block rtx_extcall irq_guard early_break_block 4
              rtx_early
              (state_after rtx_extcall 4 early_break_block
                 (enter rtx_extcall irq_guard rtx_early))
              eq_refl eq_refl eq_refl) as (Hrun & _ & _ & Htrace & _).
  unfold run_trace. change (INTERRUPT_FREE_BLOCK early_break_block)
    with (expand irq_guard early_break_block).
  change 7%nat with (depth irq_guard + 4)%nat.
  rewrite Hrun, Htrace. reflexivity.
Defined.

(** Against C2 as the specification states it: with the escape written
    inside a loop of the guarded block, the [break] ends that loop only,
    and the statement after the loop, [rest()], is executed after the
    escape. *)
Lemma scope_break_in_nested_loop :
  run_trace rtx_extcall 7 (INTERRUPT_FREE_BLOCK break_in_loop_block) rtx_boot
  = Some (ONormal,
          [EvDecl _se350_loop_has_run 0;
           EvCall (Fn "__disable_irq") [] 0;
           EvBreak;
           EvCall (Fn "rest") [] 0;
           EvWrite _se350_loop_has_run 0 1;
           EvCall (Fn "__enable_irq") [] 0;
           EvWrite _se350_loop_has_run 1 1]).
Proof. reflexivity. Qed.

(** [continue] in the interrupt-free block: [more()] is not called,
    the block is not run again, interrupts are enabled once. *)
Lemma continue_leaves_block_run :
  run_trace rtx_extcall 7 (INTERRUPT_FREE_BLOCK continue_block) rtx_boot
  = Some (ONormal,
          [EvDecl _se350_loop_has_run 0;
           EvCall (Fn "__disable_irq") [] 0;
           EvCall (Fn "work") [] 0;
           EvContinue;
           EvWrite _se350_loop_has_run 0 1;
           EvCall (Fn "__enable_irq") [] 0;
           EvWrite _se350_loop_has_run 1 1]).
Proof.
  destruct (continue_leaves_block rtx_extcall irq_guard continue_block 4
              rtx_boot
              (state_after rtx_extcall 4 continue_block
                 (enter rtx_extcall irq_guard rtx_boot))
              eq_refl eq_refl eq_refl) as (Hrun & _ & _ & Htrace & _).
  unfold run_trace. change (INTERRUPT_FREE_BLOCK continue_block)
    with (expand irq_guard continue_block).
  change 7%nat with (depth irq_guard + 4)%nat.
  rewrite Hrun, Htrace. reflexivity.
Defined.

(** [return] in the interrupt-free block: interrupts stay disabled. *)
Lemma function_return_skips_after_run :
  run_trace rtx_extcall 7 (INTERRUPT_FREE_BLOCK return_block) rtx_boot
  = Some (OReturn None,
          [EvDecl _se350_loop_has_run 0;
           EvCall (Fn "__disable_irq") [] 0;
           EvCall (Fn "work") [] 0;
           EvReturn None]).
Proof.
  destruct (function_return_skips_after rtx_extcall irq_guard return_block 4
              rtx_boot
              (state_after rtx_extcall 4 return_block
                 (enter rtx_extcall irq_guard rtx_boot))
              None eq_refl eq_refl eq_refl) as (Hrun & _ & _ & _ & Htrace).
  unfold run_trace. change (INTERRUPT_FREE_BLOCK return_block)
    with (expand irq_guard return_block).
  change 7%nat with (depth irq_guard + 4)%nat.
  rewrite Hrun, Htrace. reflexivity.
Defined.

(** usage.c, the stacked declarations in the concrete world: [p4] then
    [p5] are requested, the block sees both, [p5] is released before
    [p4]. *)
Lemma stacked_using_order_run :
  run_trace rtx_extcall 14 double_up_using rtx_boot
  = Some (ONormal,
          [EvDecl _se350_loop_has_run 0;
           EvCall (Fn "request_memory_block") [] 4096;
           EvDecl "p4" 4096;
           EvDecl _se350_loop_has_run 0;
           EvCall (Fn "request_memory_block") [] 4224;
           EvDecl "p5" 4224;
           EvStore 4096 8;
           EvStore 4224 9;
           EvCall (Printf "(*p4, *p5) = (%d, %d)\n") [8; 9] 0;
           EvWrite _se350_loop_has_run 0 1;
           EvCall (Printf "Freeing pointer\n") [] 0;
           EvCall (Fn "release_memory_block") [4224] 0;
           EvWrite _se350_loop_has_run 1 1;
           EvWrite _se350_loop_has_run 0 1;
           EvCall (Printf "Freeing pointer\n") [] 0;
           EvCall (Fn "release_memory_block") [4096] 0;
           EvWrite _se350_loop_has_run 1 1]).
Proof.
  destruct (stacked_using_order rtx_extcall TPtr TPtr "p4" "p5"
              request_memory_block request_memory_block
              (log_release (EVar "p4")) (log_release (EVar "p5"))
              double_up_block 4 rtx_boot
              (state_after rtx_extcall 4 double_up_block
                 (enter rtx_extcall (Using using_p5 (log_release (EVar "p5")))
                    (enter rtx_extcall
                       (Using using_p4 (log_release (EVar "p4"))) rtx_boot)))
              eq_refl eq_refl eq_refl eq_refl) as (Hrun & _ & _ & Htrace).
  unfold run_trace, double_up_using, using_p4, using_p5.
  change 14%nat with (10 + 4)%nat.
  rewrite Hrun, Htrace. reflexivity.
Defined.

(** Against C4 as the specification states it: a guard whose block
    returns was entered, and [__disable_irq()] called, but the trace has
    no transition of the flag, so "exactly once for every activation"
    fails here. *)
Lemma return_leaves_flag_unset :
  exec rtx_extcall 7 (INTERRUPT_FREE_BLOCK return_block) rtx_boot
  = Some (OReturn None,
          state_after rtx_extcall 7 (INTERRUPT_FREE_BLOCK return_block) rtx_boot)
  /\ calls (trace (state_after rtx_extcall 7
                     (INTERRUPT_FREE_BLOCK return_block) rtx_boot))
     = [Fn "__disable_irq"; Fn "work"]
  /\ transitions (trace (state_after rtx_extcall 7
                           (INTERRUPT_FREE_BLOCK return_block) rtx_boot))
     = 0%nat.
Proof. repeat split. Qed.

(** Three entries of the interrupt-free block of usage.c. *)
Lemma run_state_flag_run :
  exists final,
    exec rtx_extcall 10
         (counted_loop "i" 3 (INTERRUPT_FREE_BLOCK (SExpr (call0 "critical"))))
         rtx_boot = Some (ONormal, final)
    /\ marks (Fn "__disable_irq") (Fn "__enable_irq") (trace final)
       = [Fn "__disable_irq"; Fn "__enable_irq";
          Fn "__disable_irq"; Fn "__enable_irq";
          Fn "__disable_irq"; Fn "__enable_irq"].
Proof.
  destruct (run_state_flag rtx_extcall irq_guard (SExpr (call0 "critical"))
              eq_refl eq_refl) as [_ Hloop].
  destruct (Hloop (Fn "__disable_irq") (Fn "__enable_irq") "i" 3%nat 2%nat
              rtx_boot eq_refl) as (final & Hrun & Hmarks).
  - intros s.
    rewrite (since_app s _ [EvDecl _se350_loop_has_run 0;
                              EvCall (Fn "__disable_irq") [] 0]);
      [reflexivity|].
    cbn. now rewrite <- app_assoc.
  - intros s.
    rewrite (since_app s _ [EvCall (Fn "__enable_irq") [] 0]);
      reflexivity.
  - intros s. exists ONormal, (snd (eval rtx_extcall (call0 "critical") s)).
    split; [reflexivity|]. split; [reflexivity|].
    rewrite (since_app s _ [EvCall (Fn "critical") [] 0]); reflexivity.
  - exists final. split; [exact Hrun | exact Hmarks].
Defined.

(** The nested guards in the concrete world: after the inner escape,
    [unlock()] is called, then [rest()] of the outer block, then
    [__enable_irq()] once. *)
Lemma scope_break_is_confined_run :
  exists fuel,
    run_trace rtx_extcall fuel nested_break_program rtx_boot
    = Some (ONormal,
            [EvDecl _se350_loop_has_run 0;
             EvCall (Fn "__disable_irq") [] 0;
             EvDecl _se350_loop_has_run 0;
             EvCall (Fn "lock") [] 0;
             EvCall (Fn "work") [] 0;
             EvBreak;
             EvCall (Fn "unlock") [] 0;
             EvWrite _se350_loop_has_run 0 1;
             EvCall (Fn "rest") [] 0;
             EvWrite _se350_loop_has_run 0 1;
             EvCall (Fn "__enable_irq") [] 0;
             EvWrite _se350_loop_has_run 1 1]).
Proof.
  destruct (scope_break_is_confined rtx_extcall lock_guard break_block 4
              (enter rtx_extcall irq_guard rtx_boot)
              (state_after rtx_extcall 4 break_block
                 (enter rtx_extcall lock_guard
                    (enter rtx_extcall irq_guard rtx_boot)))
              eq_refl eq_refl eq_refl) as (_ & _ & _ & Hout & _).
  destruct (Hout irq_guard (SExpr (call0 "rest")) 2%nat rtx_boot
              (state_after rtx_extcall 2 (SExpr (call0 "rest"))
                 (state_after rtx_extcall 7 (expand lock_guard break_block)
                    (enter rtx_extcall irq_guard rtx_boot)))
              eq_refl eq_refl eq_refl eq_refl) as [fuel Hrun].
  exists fuel. unfold run_trace, nested_break_program.
  change (INTERRUPT_FREE_BLOCK
            (SSeq (expand lock_guard break_block) (SExpr (call0 "rest"))))
    with (expand irq_guard
            (SSeq (expand lock_guard break_block) (SExpr (call0 "rest")))).
  rewrite Hrun. reflexivity.
Defined.

(** SE350_SCOPE_EXIT against SE350_SCOPE with [x + 1] as the unused
    before-expression. *)
Lemma scope_exit_is_scope_with_noop_run :
  exec rtx_extcall 6
       (SE350_SCOPE_EXIT (call0 "__enable_irq") (SExpr (call0 "critical")))
       rtx_boot
  = exec rtx_extcall 6
         (SE350_SCOPE (EBinop Oadd (EVar "x") (EConst 1))
            (call0 "__enable_irq") (SExpr (call0 "critical")))
         rtx_boot.
Proof.
  apply (scope_exit_is_scope_with_noop rtx_extcall
           (EBinop Oadd (EVar "x") (EConst 1))).
  intros st'. reflexivity.
Defined.

(** The scenario with a file-scope [x]. *)
Lemma set_x_scenario_run :
  exists final,
    exec rtx_extcall 5 set_x_scenario rtx_boot = Some (ONormal, final)
    /\ read "x" (enter_scope rtx_extcall (EAssign "x" (EConst 1)) rtx_boot) = 1
    /\ read "x" final = 2
    /\ exec rtx_extcall 6 (SSeq set_x_scenario set_x_check) rtx_boot
       = Some (ONormal, final).
Proof. exact (set_x_scenario_holds rtx_extcall rtx_boot I). Defined.

(** The frame of SE350_USING on a run of usage.c's third block. *)
Lemma guard_frame_run :
  shape (locals (state_after rtx_extcall 8
                   (expand (Using using_p4 (log_release (EVar "p4")))
                      (SExpr (EStore (EVar "p4") (EConst 7))))
                   rtx_boot)) = [].
Proof.
  destruct (guard_frame rtx_extcall
              (Using using_p4 (log_release (EVar "p4")))
              (SExpr (EStore (EVar "p4") (EConst 7))) 8 rtx_boot ONormal
              (state_after rtx_extcall 8
                 (expand (Using using_p4 (log_release (EVar "p4")))
                    (SExpr (EStore (EVar "p4") (EConst 7))))
                 rtx_boot)
              eq_refl eq_refl eq_refl) as (_ & _ & Hshape & _).
  exact Hshape.
Defined.

(** usage.c, [main], in the concrete world: every block that is requested
    is released when its scope is left, the two of the double-up in
    reverse order. *)
Example main_calls :
  option_map (fun r => (fst r, calls (snd r)))
             (run_trace rtx_extcall 20 main rtx_boot)
  = Some (ONormal,
          [Fn "__disable_irq"; Fn "__enable_irq";
           Fn "request_memory_block"; Printf "*p2: %d\n";
           Printf "Freeing pointer\n"; Fn "release_memory_block";
           Fn "request_memory_block"; Printf "*p3: %d\n";
           Printf "Freeing pointer\n"; Fn "release_memory_block";
           Fn "request_memory_block"; Fn "request_memory_block";
           Printf "(*p4, *p5) = (%d, %d)\n";
           Printf "Freeing pointer\n"; Fn "release_memory_block";
           Printf "Freeing pointer\n"; Fn "release_memory_block"]).
Proof. reflexivity. Qed.

(** Runs of the guards with callers that write the flag. *)

(** [SE350_SCOPE_EXIT(_se350_loop_has_run = 0) { _se350_loop_has_run = 0; }]
    ends, with the flag written five times. *)
Lemma guard_survives_flag_writes_run :
  run_trace rtx_extcall 4
    (SE350_SCOPE_EXIT clear_flag (SExpr clear_flag)) rtx_boot
  = Some (ONormal,
          [EvDecl _se350_loop_has_run 0;
           EvWrite _se350_loop_has_run 0 0;
           EvWrite _se350_loop_has_run 0 1;
           EvWrite _se350_loop_has_run 1 0;
           EvWrite _se350_loop_has_run 0 1]).
Proof.
  unfold run_trace.
  change (SE350_SCOPE_EXIT clear_flag (SExpr clear_flag))
    with (expand (ScopeExit clear_flag) (SExpr clear_flag)).
  change 4%nat with (depth (ScopeExit clear_flag) + 1)%nat.
  rewrite (guard_survives_flag_writes rtx_extcall (ScopeExit clear_flag)
             (SExpr clear_flag) 1 rtx_boot eq_refl).
  reflexivity.
Defined.

(** [SE350_SCOPE((_se350_loop_has_run = 1, before()), after()) { block(); }]:
    [block()] is not called, [after()] is. *)
Lemma scope_before_setting_flag_skips_block_run :
  run_trace rtx_extcall 4
    (SE350_SCOPE (raise_flag (call0 "before")) (call0 "after")
       (SExpr (call0 "block"))) rtx_boot
  = Some (ONormal,
          [EvDecl _se350_loop_has_run 0;
           EvWrite _se350_loop_has_run 0 1;
           EvCall (Fn "before") [] 0;
           EvCall (Fn "after") [] 0;
           EvWrite _se350_loop_has_run 1 1]).
Proof.
  destruct (scope_before_setting_flag_skips_block rtx_extcall
              (raise_flag (call0 "before")) (call0 "after")
              (SExpr (call0 "block")) 1 rtx_boot eq_refl) as (Hrun & _ & _).
  unfold run_trace. rewrite Hrun. reflexivity.
Defined.

(** [SE350_USING(int* p = (_se350_loop_has_run = 1, request_memory_block()),
                 log_release(p)) { block(); }]:
    the block is requested and never released. *)
Lemma using_initialiser_setting_flag_skips_all_run :
  run_trace rtx_extcall 6
    (SE350_USING (Decl TPtr "p" (raise_flag request_memory_block))
       (log_release (EVar "p")) (SExpr (call0 "block"))) rtx_boot
  = Some (ONormal,
          [EvDecl _se350_loop_has_run 0;
           EvWrite _se350_loop_has_run 0 1;
           EvCall (Fn "request_memory_block") [] 4096;
           EvDecl "p" 4096]).
Proof.
  destruct (using_initialiser_setting_flag_skips_all rtx_extcall
              TPtr "p" (raise_flag request_memory_block)
              (log_release (EVar "p")) (SExpr (call0 "block")) 1 rtx_boot)
    as (Hrun & _ & _).
  - discriminate.
  - reflexivity.
  - unfold run_trace. rewrite Hrun. reflexivity.
Defined.

(** A guard entered inside the interrupt-free block, with a block and an
    after-expression that write [_se350_loop_has_run]: the flag of the
    interrupt-free block is 0 before and after. *)
Lemma guard_keeps_enclosing_flags_run :
  lookup _se350_loop_has_run (locals (enter rtx_extcall irq_guard rtx_boot))
  = Some (TBool, 0)
  /\ lookup _se350_loop_has_run
       (locals (state_after rtx_extcall 4
                  (expand (ScopeExit clear_flag) (SExpr clear_flag))
                  (enter rtx_extcall irq_guard rtx_boot)))
     = Some (TBool, 0).
Proof.
  split; [reflexivity|].
  rewrite (proj2 (guard_keeps_enclosing_flags rtx_extcall
                    (ScopeExit clear_flag) (SExpr clear_flag) 4
                    (enter rtx_extcall irq_guard rtx_boot) ONormal
                    (state_after rtx_extcall 4
                       (expand (ScopeExit clear_flag) (SExpr clear_flag))
                       (enter rtx_extcall irq_guard rtx_boot))
                    eq_refl)).
  reflexivity.
Defined.

(** Runs of usage.c's guard of [p3]. *)

(** The guard of [p3] against [{ int* p3 = request_memory_block();
    { *p3 = 7; printf(...); } log_release(p3); }]. *)
Lemma using_is_plain_block_run :
  exists final plain,
    exec rtx_extcall 8
         (SE350_USING using_p3 (log_release (EVar "p3")) p3_block) rtx_boot
      = Some (ONormal, final)
    /\ exec rtx_extcall 5
            (SLocal using_p3 (SSeq p3_block (SExpr (log_release (EVar "p3")))))
            rtx_boot
       = Some (ONormal, plain)
    /\ same_outside plain final.
Proof.
  exact (using_is_plain_block rtx_extcall TPtr "p3" request_memory_block
           (log_release (EVar "p3")) p3_block 3 rtx_boot
           (state_after rtx_extcall 3 p3_block
              (enter_using rtx_extcall using_p3 rtx_boot))
           eq_refl eq_refl eq_refl).
Defined.

(** The block at 4096 is requested for [p3] and released at the end. *)
Lemma using_releases_what_it_acquired_run :
  exists final r1 r2,
    exec rtx_extcall 8
         (SE350_USING using_p3 (log_release (EVar "p3")) p3_block) rtx_boot
      = Some (ONormal, final)
    /\ read "p3" (enter_using rtx_extcall using_p3 rtx_boot) = 4096
    /\ read "p3" (state_after rtx_extcall 3 p3_block
                    (enter_using rtx_extcall using_p3 rtx_boot)) = 4096
    /\ unflagged
         (since (state_after rtx_extcall 3 p3_block
                   (enter_using rtx_extcall using_p3 rtx_boot)) final)
       = [EvCall (Printf "Freeing pointer\n") [] r1;
          EvCall (Fn "release_memory_block") [4096] r2].
Proof.
  refine (using_releases_what_it_acquired rtx_extcall TPtr "p3"
            request_memory_block p3_block 3 rtx_boot
            (state_after rtx_extcall 3 p3_block
               (enter_using rtx_extcall using_p3 rtx_boot))
            ONormal _ eq_refl eq_refl eq_refl eq_refl eq_refl).
  discriminate.
Defined.

(** Runs of stacked guards. *)

(** The lock guard inside the interrupt-free block, the block ending at
    the escape: [unlock()] is called before [__enable_irq()]. *)
Lemma stacked_guards_unwind_in_reverse_run :
  exists final,
    exec rtx_extcall 10 (expand_all [irq_guard; lock_guard] break_block)
         rtx_boot
      = Some (ONormal, final)
    /\ calls (since (state_after rtx_extcall 4 break_block
                       (enter_all rtx_extcall [irq_guard; lock_guard]
                          rtx_boot))
                    final)
       = [Fn "unlock"; Fn "__enable_irq"].
Proof.
  destruct (stacked_guards_unwind_in_reverse rtx_extcall
              [irq_guard; lock_guard] [Fn "__enable_irq"; Fn "unlock"]
              break_block 4 rtx_boot
              (state_after rtx_extcall 4 break_block
                 (enter_all rtx_extcall [irq_guard; lock_guard] rtx_boot))
              OBreak eq_refl eq_refl eq_refl eq_refl eq_refl)
    as (Hrun & _ & Hcalls).
  eexists. split; [exact Hrun | exact Hcalls].
Defined.

(** The double-up of usage.c with a block that returns: both blocks are
    requested, none is released. *)
Lemma return_skips_every_enclosing_after_run :
  run_trace rtx_extcall 13 (expand_all double_up_guards leaking_block)
            rtx_boot
  = Some (OReturn None,
          [EvDecl _se350_loop_has_run 0;
           EvCall (Fn "request_memory_block") [] 4096;
           EvDecl "p4" 4096;
           EvDecl _se350_loop_has_run 0;
           EvCall (Fn "request_memory_block") [] 4224;
           EvDecl "p5" 4224;
           EvStore 4096 8;
           EvReturn None]).
Proof.
  destruct (return_skips_every_enclosing_after rtx_extcall
              double_up_guards leaking_block 3 rtx_boot
              (state_after rtx_extcall 3 leaking_block
                 (enter_all rtx_extcall double_up_guards rtx_boot))
              None eq_refl eq_refl eq_refl) as (Hrun & _ & Htrace & _).
  unfold run_trace.
  change 13%nat with (depth_all double_up_guards + 3)%nat.
  rewrite Hrun, Htrace. reflexivity.
Defined.

(** [while (1) INTERRUPT_FREE_BLOCK { SE350_SCOPE_BREAK; }] has not ended
    after a thousand nested steps. *)
Lemma escape_cannot_end_enclosing_loop_run :
  exec rtx_extcall 1000
       (SFor None (EConst 1) None (INTERRUPT_FREE_BLOCK SE350_SCOPE_BREAK))
       rtx_boot
  = None.
Proof.
  exact (escape_cannot_end_enclosing_loop rtx_extcall irq_guard
           SE350_SCOPE_BREAK None 1000 rtx_boot eq_refl eq_refl eq_refl).
Defined.

(** [INTERRUPT_FREE_BLOCK { INTERRUPT_FREE_BLOCK { work(); } rest(); }]:
    [rest()] is called after [__enable_irq()]. *)
Lemma interrupt_free_blocks_do_not_nest_run :
  exists fuel final,
    exec rtx_extcall fuel
         (INTERRUPT_FREE_BLOCK
            (SSeq (INTERRUPT_FREE_BLOCK (SExpr (call0 "work")))
                  (SExpr (call0 "rest"))))
         rtx_boot
      = Some (ONormal, final)
    /\ calls (since rtx_boot final)
       = [Fn "__disable_irq"; Fn "__disable_irq"; Fn "work";
          Fn "__enable_irq"; Fn "rest"; Fn "__enable_irq"].
Proof.
  exact (interrupt_free_blocks_do_not_nest rtx_extcall
           (SExpr (call0 "work")) (SExpr (call0 "rest")) 1 1 rtx_boot
           (state_after rtx_extcall 1 (SExpr (call0 "work"))
              (enter rtx_extcall irq_guard
                 (enter rtx_extcall irq_guard rtx_boot)))
           (state_after rtx_extcall 1 (SExpr (call0 "rest"))
              (close irq_guard
                 (snd (guard_exit rtx_extcall (call0 "__enable_irq")
                         (ONormal,
                          state_after rtx_extcall 1 (SExpr (call0 "work"))
                            (enter rtx_extcall irq_guard
                               (enter rtx_extcall irq_guard rtx_boot)))))))
           ONormal ONormal eq_refl eq_refl eq_refl eq_refl eq_refl eq_refl).
Defined.

(** usage.c's guard of [p2]: the block at 4096 is released, and [p2]
    still holds 4096 after the guard. *)
Lemma scope_exit_releases_outer_object_run :
  exists final r1 r2,
    exec rtx_extcall 6
         (SE350_SCOPE_EXIT (log_release (EVar "p2")) p2_block) rtx_with_p2
      = Some (ONormal, final)
    /\ unflagged
         (since (state_after rtx_extcall 3 p2_block
                   (declare TBool _se350_loop_has_run 0 rtx_with_p2)) final)
       = [EvCall (Printf "Freeing pointer\n") [] r1;
          EvCall (Fn "release_memory_block") [4096] r2]
    /\ lookup "p2" (locals final) = Some (TPtr, 4096)
    /\ shape (locals final) = shape (locals rtx_with_p2).
Proof.
  refine (scope_exit_releases_outer_object rtx_extcall TPtr "p2" 4096
            p2_block 3 rtx_with_p2
            (state_after rtx_extcall 3 p2_block
               (declare TBool _se350_loop_has_run 0 rtx_with_p2))
            ONormal _ eq_refl eq_refl eq_refl eq_refl eq_refl).
  discriminate.
Defined.
